(** * Dynamic Leontief planning model: a shallow embedding

    This development embeds the numerical core of the repository
    (Code/model.py and Code/main.py) and proves properties of it.

    Conventions of the embedding.
    - A float64 is a scalar of a type [num] with the operations the source
      uses (class [Scalar]).  The theorems about values are stated for the
      instance of exact real arithmetic.
    - A 1-D numpy array is a [list num]; a 2-D array is the list of its rows.
      Elementwise numpy operations are [zip_with]; numpy refuses operands
      whose shapes do not conform, so the theorems that depend on shapes
      carry the conformance of the inputs as a hypothesis.
    - Sizes and counters ([n], [k], [T_plan], [W], [t]) are natural numbers.
    - The errors modelled are the ones the source raises itself or meets by
      indexing: the [ValueError] of [predict], arithmetic on an unset ([None])
      parameter, and an index beyond the last row of a state array. *)

From Stdlib Require Import Reals Lra Lia FunctionalExtensionality.
From Stdlib Require Floats.
From stdpp Require Import base list strings gmap.

Set Default Proof Using "Type".

(** ** Scalars *)

Class Scalar (F : Type) := {
  s0 : F;
  s1 : F;
  sadd : F -> F -> F;
  ssub : F -> F -> F;
  smul : F -> F -> F;
  sdiv : F -> F -> F;
  sopp : F -> F;
  sexp : F -> F;             (* np.exp *)
  smin : F -> F -> F;        (* np.minimum *)
  ssqrt : F -> F;            (* the square root inside np.std *)
  spow : F -> F -> F;        (* the operator ** on floats *)
  szerob : F -> bool;        (* test against zero (rank test of lstsq, zero pivot) *)
  snegb : F -> bool          (* numpy's test of a negative [scale] *)
}.

Declare Scope num_scope.
Delimit Scope num_scope with num.
Infix "+!" := sadd (at level 50, left associativity) : num_scope.
Infix "-!" := ssub (at level 50, left associativity) : num_scope.
Infix "*!" := smul (at level 40, left associativity) : num_scope.
Infix "/!" := sdiv (at level 40, left associativity) : num_scope.
Notation "-! x" := (sopp x) (at level 35, right associativity) : num_scope.
Local Open Scope num_scope.

(** ** Arrays *)

Section Arrays.
Context {num : Type} `{Scalar num}.

Local Abbreviation vec := (list num).
Local Abbreviation matrix := (list (list num)).

(** [len(x)] as a float, as numpy computes means and variances. *)
Definition sofnat (m : nat) : num := Nat.iter m (fun x => x +! s1) s0.

Definition zeros (m : nat) : vec := replicate m s0.      (* np.zeros(m) *)
Definition ones (m : nat) : vec := replicate m s1.       (* np.ones(m) *)
Definition zeros2 (r c : nat) : matrix := replicate r (zeros c).

Definition vadd (u v : vec) : vec := zip_with sadd u v.  (* u + v *)
Definition vsub (u v : vec) : vec := zip_with ssub u v.  (* u - v *)
Definition vmul (u v : vec) : vec := zip_with smul u v.  (* u * v *)
Definition vdiv (u v : vec) : vec := zip_with sdiv u v.  (* u / v *)
Definition vmin (u v : vec) : vec := zip_with smin u v.  (* np.minimum *)
Definition vneg (u : vec) : vec := map sopp u.           (* -u *)
Definition vexp (u : vec) : vec := map sexp u.           (* np.exp(u) *)
Definition vscale (c : num) (u : vec) : vec := map (smul c) u.            (* c * u *)
Definition vscale_r (u : vec) (c : num) : vec := map (fun x => x *! c) u. (* u * c *)
Definition vdivs (u : vec) (c : num) : vec := map (fun x => x /! c) u.    (* u / c *)
Definition vsum (u : vec) : num := foldr sadd s0 u.        (* u.sum() *)
Definition dot (u v : vec) : num := vsum (vmul u v).       (* u @ v, both 1-D *)

Definition matvec (A : matrix) (v : vec) : vec := map (fun r => dot r v) A. (* A @ v *)
Definition msub (A B : matrix) : matrix := zip_with vsub A B.              (* A - B *)

Definition ncols (A : matrix) : nat := match A with [] => 0 | r :: _ => length r end.
Definition transpose (A : matrix) : matrix :=            (* A.T *)
  map (fun j => map (fun r => nth j r s0) A) (seq 0 (ncols A)).

Definition unit_row (m i : nat) (x : num) : vec :=
  map (fun j => if Nat.eqb i j then x else s0) (seq 0 m).
Definition eye (m : nat) : matrix := map (fun i => unit_row m i s1) (seq 0 m). (* np.eye(m) *)
Definition diag (d : vec) : matrix := imap (fun i x => unit_row (length d) i x) d. (* np.diag(d) *)

Definition is_matrix (r c : nat) (A : matrix) : Prop :=
  length A = r /\ Forall (fun row => length row = c) A.

(** *** [neumann] (model.py) *)

Fixpoint neumann_loop (A : matrix) (iters : nat) (x term : vec) : vec :=
  match iters with
  | 0 => x
  | S i => let term' := matvec A term in
           neumann_loop A i (vadd x term') term'
  end.

(** [range(1, k)] runs [k - 1] times (not at all for [k <= 1]). *)
Definition neumann (A : matrix) (v : vec) (k : nat) : vec :=
  neumann_loop A (k - 1) v v.

(** The same function on the object store: numpy arrays are mutable
    objects, [v.copy()] allocates, [A @ term] allocates its result and
    [x += term] writes into the object [x] refers to. *)
Inductive ndarray := Arr1 (v : vec) | Arr2 (m : matrix).
Local Abbreviation heap := (list ndarray).
Local Abbreviation loc := nat.

Definition alloc (h : heap) (a : ndarray) : heap * loc := (h ++ [a], length h).

Definition np_copy (h : heap) (l : loc) : option (heap * loc) :=
  a ← h !! l; Some (alloc h a).

Definition np_matmul (h : heap) (a t : loc) : option (heap * loc) :=
  match h !! a, h !! t with
  | Some (Arr2 m), Some (Arr1 v) => Some (alloc h (Arr1 (matvec m v)))
  | _, _ => None
  end.

Definition np_iadd (h : heap) (x t : loc) : option heap :=
  match h !! x, h !! t with
  | Some (Arr1 u), Some (Arr1 v) => Some (<[x := Arr1 (vadd u v)]> h)
  | _, _ => None
  end.

Fixpoint neumann_loop_h (iters : nat) (h : heap) (A x term : loc) : option heap :=
  match iters with
  | 0 => Some h
  | S i => '(h1, term') ← np_matmul h A term;
           h2 ← np_iadd h1 x term';
           neumann_loop_h i h2 A x term'
  end.

Definition neumann_h (h : heap) (A v : loc) (k : nat) : option (heap * loc) :=
  '(h1, x) ← np_copy h v;
  '(h2, term) ← np_copy h1 v;
  h3 ← neumann_loop_h (k - 1) h2 A x term;
  Some (h3, x).

(** The series of the specification, with matrix powers:
    [v + A v + A^2 v + ... + A^(k-1) v]. *)
Definition vecmat (cs : vec) (B : matrix) (c : nat) : vec :=
  foldr (fun p acc => vadd (vscale p.1 p.2) acc) (zeros c) (zip cs B).
Definition matmul (A B : matrix) (c : nat) : matrix :=
  map (fun r => vecmat r B c) A.
Fixpoint matpow (m : nat) (A : matrix) (i : nat) : matrix :=
  match i with
  | 0 => eye m
  | S j => matmul A (matpow m A j) m
  end.
Definition neumann_series (m : nat) (A : matrix) (v : vec) (k : nat) : vec :=
  foldr vadd (zeros m) (map (fun i => matvec (matpow m A i) v) (seq 0 k)).

End Arrays.

Arguments ndarray : clear implicits.

(** ** Errors *)

Inductive error :=
| ValueError_not_fitted   (* raise ValueError("Model not fitted yet") *)
| TypeError_none          (* arithmetic on a parameter that is still None *)
| IndexError              (* a row index beyond the state arrays *)
| ValueError_scale        (* np.random.normal: ValueError("scale < 0") *)
| LinAlgError_singular.   (* np.linalg.inv: LinAlgError("Singular matrix") *)

Inductive res (A : Type) := Ok (a : A) | Err (e : error).
Arguments Ok {A} a.
Arguments Err {A} e.

#[global] Instance res_ret : MRet res := fun _ a => Ok a.
#[global] Instance res_bind : MBind res := fun _ _ f m =>
  match m with Ok a => f a | Err e => Err e end.

(** A test the source makes implicitly (an index within bounds): the
    computation goes on when it holds and raises [e] otherwise. *)
Definition require (c : bool) (e : error) : res unit :=
  if c then Ok tt else Err e.

(** Sequencing of the statements of a long function body: [let* x := v in b]
    is [b] with [x] bound to [v], like [let], kept as an application so that
    proofs can name the bound values one at a time. *)
Definition let_in {A B : Type} (v : A) (k : A -> B) : B := k v.
Notation "'let*' x ':=' v 'in' b" := (let_in v (fun x => b))
  (at level 10, x name, v at level 200, b at level 200,
   format "'[v' 'let*'  x  ':='  v  'in' '/' b ']'").

(** ** Random numbers, preference shocks and least squares (model.py) *)

Section Numerics.
Context {num : Type} `{Scalar num}.
Local Abbreviation vec := (list num).
Local Abbreviation matrix := (list (list num)).

(** A value that is either a Python/numpy scalar or a 1-D array. *)
Inductive npval := Num (x : num) | Arr (v : vec).

(** [v * x] where [x] is a scalar or an array of the length of [v]. *)
Definition bmul (v : vec) (x : npval) : vec :=
  match x with Num c => vscale_r v c | Arr u => vmul v u end.

(** The state of numpy's global generator is the stream of standard
    variates it will deliver next. *)
Definition rng := nat -> num.

Definition draw (g : rng) (m : nat) : vec * rng :=
  (map g (seq 0 m), fun i => g (m + i)).

(** [np.random.seed(None)]: the global generator is initialised anew from
    operating-system entropy, whatever state it was in. *)
Definition np_random_seed_None (entropy : rng) (g : rng) : rng := entropy.

(** [np.random.uniform(lo, hi, m)] *)
Definition np_random_uniform (g : rng) (lo hi : num) (m : nat) : vec * rng :=
  let '(us, g') := draw g m in
  (map (fun u => lo +! (hi -! lo) *! u) us, g').

(** [np.random.normal(loc, scale, size=m)]: numpy raises
    [ValueError("scale < 0")] for a negative [scale], before it draws. *)
Definition np_random_normal (g : rng) (loc scale : num) (m : nat) : res (vec * rng) :=
  if snegb scale then Err ValueError_scale else
  let '(zs, g') := draw g m in
  Ok (map (fun z => loc +! scale *! z) zs, g').

Definition update_alpha (g : rng) (alpha_prev shock_prev : vec)
    (sigma persist : num) (mu : vec) : res (vec * vec * rng) :=
  let n := length alpha_prev in
  '(eps, g') ← np_random_normal g s0 sigma n;
  let shock := vadd (vscale persist shock_prev) eps in
  let alpha_tilde := vmul alpha_prev (vexp (vadd mu shock)) in
  let alpha_tilde := vdivs alpha_tilde (vsum alpha_tilde) in
  Ok (alpha_tilde, shock, g').

(** [np.linalg.lstsq(np.column_stack([x, np.ones(len(x))]), y)[0]] in
    exact arithmetic: the least-squares line, and the solution of least
    norm when the two columns are dependent (all [x] equal, in particular
    a single point). *)
Definition lstsq_line (x y : vec) : num * num :=
  let m := sofnat (length x) in
  let sx := vsum x in
  let sy := vsum y in
  let det := m *! dot x x -! sx *! sx in
  if szerob det then
    let x0 := hd s0 x in
    let ybar := sy /! m in
    let d := x0 *! x0 +! s1 in
    ((x0 *! ybar) /! d, ybar /! d)
  else
    let phi := (m *! dot x y -! sx *! sy) /! det in
    (phi, (sy -! phi *! sx) /! m).

(** [np.std(r, ddof=1)] *)
Definition std_ddof1 (r : vec) : num :=
  let m := sofnat (length r) in
  let mean := vsum r /! m in
  ssqrt (vsum (map (fun x => (x -! mean) *! (x -! mean)) r) /! (m -! s1)).

(** [phi * x + c] for scalars [phi], [c] and an array [x]. *)
Definition affine (phi c : num) (x : vec) : vec := map (fun z => phi *! z +! c) x.

Definition fit_ar1_gaussian (series : vec) : num * num * num :=
  let x := removelast series in
  let y := tail series in
  let '(phi, c) := lstsq_line x y in
  let residuals := vsub y (affine phi c x) in
  (phi, c, std_ddof1 residuals).

End Numerics.

Arguments npval : clear implicits.
Arguments rng : clear implicits.

(** ** [class AR1Forecaster] (model.py) *)

Module AR1Forecaster.
Section Forecaster.
Context {num : Type} `{Scalar num}.
Local Abbreviation vec := (list num).

Record t := mk {
  window_size : nat;
  history : list vec;
  phi : option vec;
  c : option vec;
  sigma : option (npval num);
  is_fitted : bool
}.

(** [__init__] *)
Definition init (window_size : nat) : t :=
  mk window_size [] None None None false.

Definition add_observation (self : t) (value : vec) : t :=
  let history := history self ++ [value] in
  let history := if window_size self <? length history
                 then drop 1 history       (* self.history.pop(0) *)
                 else history in
  mk (window_size self) history (phi self) (c self) (sigma self) (is_fitted self).

(** Column [i] of the history, [hist_array[:, i]]. *)
Definition column (h : list vec) (i : nat) : vec := map (fun v => nth i v s0) h.

Definition fit (self : t) : t :=
  if length (history self) <? 2 then
    mk (window_size self) (history self) (phi self) (c self) (sigma self) false
  else
    let n_vars := length (hd [] (history self)) in
    if n_vars =? 1 then
      (* the arrays have shape (m, 1): beta[0] and beta[1] have shape
         (1,), the standard deviation is a scalar *)
      let col := column (history self) 0 in
      let '(ph, cc, sg) := fit_ar1_gaussian col in
      mk (window_size self) (history self) (Some [ph]) (Some [cc]) (Some (Num sg)) true
    else
      let fits := map (fun i => fit_ar1_gaussian (column (history self) i)) (seq 0 n_vars) in
      mk (window_size self) (history self)
         (Some (map (fun r => r.1.1) fits))
         (Some (map (fun r => r.1.2) fits))
         (Some (Arr (map (fun r => r.2) fits))) true.

(** What [predict] returns: [predictions[0]] when [n_steps == 1], the list
    [predictions] otherwise. *)
Inductive prediction := One (v : vec) | Many (vs : list vec).

Fixpoint predict_loop (ph cc current : vec) (n_steps : nat) : list vec :=
  match n_steps with
  | 0 => []
  | S m => let next_val := vadd (vmul ph current) cc in
           next_val :: predict_loop ph cc next_val m
  end.

Definition predict (self : t) (last_value : vec) (n_steps : nat) : res prediction :=
  if negb (is_fitted self) then Err ValueError_not_fitted
  else match n_steps with
       | 0 => Ok (Many [])
       | _ => match phi self, c self with
              | Some ph, Some cc =>
                  let predictions := predict_loop ph cc last_value n_steps in
                  Ok (if n_steps =? 1 then One (hd [] predictions) else Many predictions)
              | _, _ => Err TypeError_none
              end
       end.

(** The call [predict(last_value)] of the main loop, whose result is used
    as an array. *)
Definition predict1 (self : t) (last_value : vec) : res vec :=
  r ← predict self last_value 1;
  match r with One v => Ok v | Many _ => Err TypeError_none end.

End Forecaster.
End AR1Forecaster.

(** ** The simulation (main.py) and the structural matrices (model.py)

    Naming: the entry [config['x']] is the field [cfg_x], [data['x']] is
    [data_x], [sim['x']] is [sim_x]; a local variable [x] of the loop body
    that a statement refers to is the field [l_x] of the record the body
    returns next to the new state. *)

Section Simulation.
Context {num : Type} `{Scalar num}.
Local Abbreviation vec := (list num).
Local Abbreviation matrix := (list (list num)).

Record config := {
  cfg_n : nat; cfg_k : nat; cfg_T_plan : nat; cfg_W : nat;
  cfg_random_seed : nat;
  cfg_tau : num; cfg_b : num;
  cfg_shock_sigma : num; cfg_shock_persist : num;
  cfg_g_a : num; cfg_initial_capacity_buffer : num;
  cfg_n_heavy : nat; cfg_n_medium : nat; cfg_n_light : nat;
  cfg_delta_heavy_min : num; cfg_delta_heavy_max : num;
  cfg_delta_medium_min : num; cfg_delta_medium_max : num;
  cfg_delta_light_min : num; cfg_delta_light_max : num;
  cfg_heavy_diag_min : num; cfg_heavy_diag_max : num;
  cfg_medium_diag_min : num; cfg_medium_diag_max : num;
  cfg_light_diag_min : num; cfg_light_diag_max : num;
  cfg_mu_heavy : num; cfg_mu_medium : num; cfg_mu_light : num
}.

Record data := {
  data_A : matrix;
  data_va_per_unit : vec;
  data_total_output : vec;
  data_C_household : vec;
  data_I_investment : vec;
  data_G_government : vec
}.

(** *** The state arrays: a dict of [T x n] arrays *)

Definition state_keys : list string :=
  ["X"; "X_max"; "U"; "K"; "K_e"; "I"; "C_p"; "C_0"; "C"; "F"; "ED";
   "K_u"; "AD"; "G"; "F_c"]%string.

Definition initialize_state_arrays (T n : nat) : gmap string matrix :=
  foldr (fun key m => <[key := zeros2 T n]> m) ∅ state_keys.

(** Number of rows of [states[key]]. *)
Definition rows (st : gmap string matrix) (key : string) : nat :=
  length (default [] (st !! key)).

(** [states[key][t]] and [states[key][t] = v], for a row [t] the array has.
    numpy raises [IndexError] for a row beyond the last one:
    [initialize_simulation] and [step] test that the rows they use exist
    before they read or assign them, so that neither function is applied
    beyond the arrays. *)
Definition get_row (st : gmap string matrix) (key : string) (t : nat) : vec :=
  default [] (default [] (st !! key) !! t).

Definition set_row (st : gmap string matrix) (key : string) (t : nat) (v : vec)
  : gmap string matrix :=
  <[key := <[t := v]> (default [] (st !! key))]> st.

(** Row [t] exists in each of the arrays [keys]. *)
Definition has_rows (st : gmap string matrix) (keys : list string) (t : nat) : bool :=
  forallb (fun key => t <? rows st key) keys.

Arguments get_row st key%_string t.
Arguments set_row st key%_string t v.

(** *** Structural matrices *)

Definition twelve : num := sofnat 12.

Definition create_delta_matrix (cfg : config) (g : rng num) : matrix * rng num :=
  let '(dh, g) := np_random_uniform g (cfg_delta_heavy_min cfg) (cfg_delta_heavy_max cfg)
                    (cfg_n_heavy cfg) in
  let delta_heavy := vdivs dh twelve in
  let '(dm, g) := np_random_uniform g (cfg_delta_medium_min cfg) (cfg_delta_medium_max cfg)
                    (cfg_n_medium cfg) in
  let delta_medium := vdivs dm twelve in
  let '(dl, g) := np_random_uniform g (cfg_delta_light_min cfg) (cfg_delta_light_max cfg)
                    (cfg_n_light cfg) in
  let delta_light := vdivs dl twelve in
  let delta_vec := delta_heavy ++ delta_medium ++ delta_light in
  (diag delta_vec, g).

(** [np.linalg.inv] of a diagonal matrix: numpy raises
    [LinAlgError("Singular matrix")] when a diagonal entry is zero, and
    returns the diagonal matrix of the reciprocals otherwise. *)
Definition create_capital_intensity_matrix (cfg : config) (g : rng num)
  : res (matrix * matrix * rng num) :=
  let '(heavy_diag, g) := np_random_uniform g (cfg_heavy_diag_min cfg)
                            (cfg_heavy_diag_max cfg) (cfg_n_heavy cfg) in
  let '(medium_diag, g) := np_random_uniform g (cfg_medium_diag_min cfg)
                             (cfg_medium_diag_max cfg) (cfg_n_medium cfg) in
  let '(light_diag, g) := np_random_uniform g (cfg_light_diag_min cfg)
                            (cfg_light_diag_max cfg) (cfg_n_light cfg) in
  let all_diag := heavy_diag ++ medium_diag ++ light_diag in
  if existsb szerob all_diag then Err LinAlgError_singular
  else Ok (diag all_diag, diag (map (fun x => s1 /! x) all_diag), g).

Definition create_mu_vector (cfg : config) : vec :=
  map (fun i => if i <? cfg_n_heavy cfg then cfg_mu_heavy cfg
                else if i <? cfg_n_heavy cfg + cfg_n_medium cfg then cfg_mu_medium cfg
                else cfg_mu_light cfg)
      (seq 0 (cfg_n cfg)).

(** *** The dict [sim] *)

Record sim := {
  sim_states : gmap string matrix;
  sim_Delta : matrix; sim_B : matrix; sim_B_inv : matrix; sim_A : matrix;
  sim_P0 : vec; sim_P0_real : vec; sim_wL : vec;
  sim_alpha : vec; sim_alpha_shock : vec;
  sim_epsilon : vec; sim_epsilon_measured : vec;
  sim_mu : vec; sim_g : num;
  sim_T : nat; sim_W : nat; sim_n : nat; sim_k : nat;
  sim_Delta_C_p_hist : list vec;
  sim_Delta2_C_p_hist : list vec;
  sim_Delta_P_last : npval num;
  sim_Delta_K_e_last : vec;
  sim_Debt : num;
  sim_Y_income_prev : num;
  sim_Delta_C_p_forecaster : AR1Forecaster.t (num := num);
  sim_Delta2_C_p_forecaster : AR1Forecaster.t (num := num)
}.

(** [initialize_simulation].  [entropy] is what the operating system
    supplies to [np.random.seed(None)]; [g] is the state the caller left
    the global generator in.  The arrays have [T] rows: with [T < 2] the
    assignment to row 0 or to row 1 raises. *)
Definition initialize_simulation (cfg : config) (d : data) (entropy g : rng num)
  : res (sim * rng num) :=
  let* n := cfg_n cfg in
  let* k := cfg_k cfg in
  let* T_plan := cfg_T_plan cfg in
  let* W := cfg_W cfg in
  let* T := T_plan + W in
  let* g := np_random_seed_None entropy g in
  let '(Delta, g) := create_delta_matrix cfg g in
  '(B, B_inv, g) ← create_capital_intensity_matrix cfg g;
  let* mu := create_mu_vector cfg in
  let* states := initialize_state_arrays T n in
  let* A := data_A d in
  let* wL := data_va_per_unit d in
  let* P0_real := neumann (transpose A) wL k in
  let* P0 := P0_real in
  let* alpha := vdivs (data_C_household d) (vsum (data_C_household d)) in
  let* epsilon := vneg (ones n) in
  let* epsilon_measured := epsilon in
  let* alpha_shock := zeros n in
  let* g_a := cfg_g_a cfg in
  let* g_m := spow (s1 +! g_a) (s1 /! twelve) -! s1 in
  if T <? 2 then Err IndexError else
  let* buffer := cfg_initial_capacity_buffer cfg in
  let* states := set_row states "C_0" 0 (vdiv (data_C_household d) P0) in
  let* states := set_row states "C" 0 (get_row states "C_0" 0) in
  let* states := set_row states "C_p" 0 (get_row states "C" 0) in
  let* states := set_row states "G" 0 (vdiv (data_G_government d) P0) in
  let* states := set_row states "K" 0
                  (vscale buffer (matvec B (vdiv (data_total_output d) P0))) in
  let* states := set_row states "I" 0 (matvec Delta (get_row states "K" 0)) in
  let* states := set_row states "X" 0
                  (neumann A (vadd (vadd (get_row states "C" 0) (get_row states "I" 0))
                                   (get_row states "G" 0)) k) in
  let* states := set_row states "K_e" 0 (matvec B (get_row states "X" 0)) in
  let* states := set_row states "X_max" 0 (vscale buffer (get_row states "X" 0)) in
  let* states := set_row states "AD" 0
                  (vadd (vadd (get_row states "C" 0) (get_row states "I" 0))
                        (get_row states "G" 0)) in
  let* states := set_row states "F" 0 (get_row states "AD" 0) in
  let* states := set_row states "F_c" 0
                  (matvec (msub (eye n) A) (get_row states "X_max" 0)) in
  let* states := set_row states "K" 0 (matvec B (get_row states "X_max" 0)) in
  let* states := set_row states "U" 0
                  (vsub (get_row states "X_max" 0) (get_row states "X" 0)) in
  let* states := set_row states "K_u" 0 (matvec B (get_row states "U" 0)) in
  let* states := set_row states "K" 1
                  (vadd (matvec (msub (eye n) Delta) (get_row states "K" 0))
                        (get_row states "I" 0)) in
  Ok ({| sim_states := states;
         sim_Delta := Delta; sim_B := B; sim_B_inv := B_inv; sim_A := A;
         sim_P0 := P0; sim_P0_real := P0_real; sim_wL := wL;
         sim_alpha := alpha; sim_alpha_shock := alpha_shock;
         sim_epsilon := epsilon; sim_epsilon_measured := epsilon_measured;
         sim_mu := mu; sim_g := g_m;
         sim_T := T; sim_W := W; sim_n := n; sim_k := k;
         sim_Delta_C_p_hist := [];
         sim_Delta2_C_p_hist := [];
         sim_Delta_P_last := Num s0;
         sim_Delta_K_e_last := zeros n;
         sim_Debt := s0;
         sim_Y_income_prev := vsum (data_C_household d);
         sim_Delta_C_p_forecaster := AR1Forecaster.init W;
         sim_Delta2_C_p_forecaster := AR1Forecaster.init W |}, g).

(** *** The loop body of [run_simulation] *)

Record locals := {
  l_K_e_hat : vec;
  l_Delta_C_p_last : vec;
  l_Delta_C_p_hat : vec;
  l_Delta2_C_p_hat : vec;
  l_Delta_K_e : vec;
  l_Delta_K_u : vec;
  l_Taxes : num;
  l_Y_income : num;
  l_Delta_P : vec;
  l_P : vec
}.

(** Lines 203-216: naive persistence while fewer than [W] differences
    have been recorded, fit and predict afterwards. *)
Definition forecast (W n : nat) (Delta_C_p_last : vec) (hist1 hist2 : list vec)
    (f1 f2 : AR1Forecaster.t)
  : res (vec * vec * AR1Forecaster.t * AR1Forecaster.t) :=
  if length hist1 <? W then
    Ok (Delta_C_p_last, zeros n, f1, f2)
  else
    let f1 := AR1Forecaster.fit f1 in
    let f2 := AR1Forecaster.fit f2 in
    Delta_C_p_hat ← AR1Forecaster.predict1 f1 Delta_C_p_last;
    Delta2_C_p_hat ← (if 2 <=? length hist2 then
                         let last_delta2 := List.last hist2 [] in
                         AR1Forecaster.predict1 f2 last_delta2
                       else Ok (zeros n));
    Ok (Delta_C_p_hat, Delta2_C_p_hat, f1, f2).

(** The body for a period [t >= 1].  Lines 176-188 read row [t - 1] of
    [X], [K], [I], [C_p], [G] and assign row [t] of [K], [K_u], [C_p], [G];
    lines 222-246 assign row [t] of the other arrays. *)
Definition step (cfg : config) (t : nat) (s : sim) (g : rng num)
  : res (sim * rng num * locals) :=
  let* states := sim_states s in
  _ ← require (has_rows states ["X"; "I"] (t - 1) &&
               has_rows states ["K"; "K_u"; "C_p"; "G"] t) IndexError;
  let* W := sim_W s in
  let* n := sim_n s in
  let* k := sim_k s in
  let* A := sim_A s in
  let* B := sim_B s in
  let* Delta := sim_Delta s in
  let* P0 := sim_P0 s in
  let* g_m := sim_g s in
  let* tau := cfg_tau cfg in
  let* b := cfg_b cfg in
  let* shock_sigma := cfg_shock_sigma cfg in
  let* shock_persist := cfg_shock_persist cfg in
  let* K_e_last := matvec B (get_row states "X" (t - 1)) in
  let* K_e_hat := vadd K_e_last (sim_Delta_K_e_last s) in
  let* states := set_row states "K" t
                  (vadd (matvec (msub (eye n) Delta) (get_row states "K" (t - 1)))
                        (get_row states "I" (t - 1))) in
  let* states := set_row states "K_u" t
                  (vsub (vscale (s1 -! b) (get_row states "K" t)) K_e_hat) in
  let* Delta_C_p_last :=
    vmul (vneg (get_row states "C_p" (t - 1)))
         (vdiv (bmul (sim_epsilon_measured s) (sim_Delta_P_last s)) P0) in
  let* states := set_row states "C_p" t
                  (vadd (get_row states "C_p" (t - 1)) Delta_C_p_last) in
  let* states := set_row states "G" t
                  (vscale (s1 +! g_m) (get_row states "G" (t - 1))) in
  '(alpha, alpha_shock, g) ←
    update_alpha g (sim_alpha s) (sim_alpha_shock s) shock_sigma shock_persist
                 (sim_mu s);
  let* hist1 := sim_Delta_C_p_hist s ++ [Delta_C_p_last] in
  let* hist2 := if 1 <? length hist1
               then sim_Delta2_C_p_hist s ++
                      [vsub (List.last hist1 []) (nth (length hist1 - 2) hist1 [])]
               else sim_Delta2_C_p_hist s in
  let* f1 := AR1Forecaster.add_observation (sim_Delta_C_p_forecaster s) Delta_C_p_last in
  let* f2 := if 0 <? length hist2
            then AR1Forecaster.add_observation (sim_Delta2_C_p_forecaster s)
                   (List.last hist2 [])
            else sim_Delta2_C_p_forecaster s in
  '(Delta_C_p_hat, Delta2_C_p_hat, f1, f2) ←
    forecast W n Delta_C_p_last hist1 hist2 f1 f2;
  _ ← require (has_rows (sim_states s)
                 ["I"; "F"; "X"; "C_0"; "ED"; "C"; "AD"; "X_max"; "F_c"] t)
        IndexError;
  let* Delta_K_e :=
    matvec B (neumann A
      (vadd (vadd Delta_C_p_hat (vscale g_m (get_row states "G" t)))
            (matvec B (neumann A
               (vadd Delta2_C_p_hat (vscale (g_m *! g_m) (get_row states "G" t))) k)))
      k) in
  let* Delta_K_u := vneg (vmin Delta_K_e (get_row states "K_u" t)) in
  let* states := set_row states "I" t
                  (vadd (matvec Delta (get_row states "K" t))
                        (vadd Delta_K_e Delta_K_u)) in
  let* states := set_row states "F" t
                  (vadd (vadd (get_row states "C_p" t) (get_row states "I" t))
                        (get_row states "G" t)) in
  let* states := set_row states "X" t (neumann A (get_row states "F" t) k) in
  let* Taxes := dot (vscale (s1 -! tau) P0)
                   (vadd (get_row states "I" t) (get_row states "G" t)) in
  let* Y_income := dot (sim_wL s) (get_row states "X" t) -! Taxes in
  let* states := set_row states "C_0" t (vdiv (vscale_r alpha Y_income) P0) in
  let* states := set_row states "ED" t
                  (vsub (get_row states "C_0" t) (get_row states "C_p" t)) in
  let* Delta_P :=
    vmul P0 (vdiv (vneg (get_row states "ED" t))
                  (vmul (sim_epsilon s) (get_row states "C_0" t))) in
  let* P := vadd P0 Delta_P in
  let* states := set_row states "C" t (vdiv (vscale_r alpha Y_income) P) in
  let* states := set_row states "AD" t
                  (vadd (vadd (get_row states "C" t) (get_row states "I" t))
                        (get_row states "G" t)) in
  let* states := set_row states "X_max" t (matvec (sim_B_inv s) (get_row states "K" t)) in
  let* states := set_row states "F_c" t
                  (matvec (msub (eye n) A) (get_row states "X_max" t)) in
  let* Debt := sim_Debt s +!
                (dot P0 (vadd (get_row states "G" t) (get_row states "I" t)) -! Taxes) in
  Ok ({| sim_states := states;
         sim_Delta := sim_Delta s; sim_B := sim_B s; sim_B_inv := sim_B_inv s;
         sim_A := sim_A s;
         sim_P0 := sim_P0 s; sim_P0_real := sim_P0_real s; sim_wL := sim_wL s;
         sim_alpha := alpha; sim_alpha_shock := alpha_shock;
         sim_epsilon := sim_epsilon s;
         sim_epsilon_measured := sim_epsilon_measured s;
         sim_mu := sim_mu s; sim_g := sim_g s;
         sim_T := sim_T s; sim_W := sim_W s; sim_n := sim_n s; sim_k := sim_k s;
         sim_Delta_C_p_hist := hist1;
         sim_Delta2_C_p_hist := hist2;
         sim_Delta_P_last := Arr Delta_P;
         sim_Delta_K_e_last := Delta_K_e;
         sim_Debt := Debt;
         sim_Y_income_prev := sim_Y_income_prev s;
         sim_Delta_C_p_forecaster := f1;
         sim_Delta2_C_p_forecaster := f2 |},
      g,
      {| l_K_e_hat := K_e_hat;
         l_Delta_C_p_last := Delta_C_p_last;
         l_Delta_C_p_hat := Delta_C_p_hat;
         l_Delta2_C_p_hat := Delta2_C_p_hat;
         l_Delta_K_e := Delta_K_e;
         l_Delta_K_u := Delta_K_u;
         l_Taxes := Taxes;
         l_Y_income := Y_income;
         l_Delta_P := Delta_P;
         l_P := P |}).

(** [for t in range(1, T)] *)
Fixpoint run_loop (cfg : config) (ts : list nat) (s : sim) (g : rng num)
  : res (sim * rng num) :=
  match ts with
  | [] => Ok (s, g)
  | t :: ts' => '(s', g', _) ← step cfg t s g; run_loop cfg ts' s' g'
  end.

Definition run_simulation (cfg : config) (s : sim) (g : rng num)
  : res (sim * rng num) :=
  run_loop cfg (seq 1 (sim_T s - 1)) s g.

(** [main]: initialisation followed by the loop. *)
Definition simulate (cfg : config) (d : data) (entropy g : rng num)
  : res (sim * rng num) :=
  '(s, g) ← initialize_simulation cfg d entropy g;
  run_simulation cfg s g.

End Simulation.

Arguments get_row {num} st key%_string t.
Arguments set_row {num} st key%_string t v.
Arguments config : clear implicits.
Arguments data : clear implicits.
Arguments sim : clear implicits.
Arguments locals : clear implicits.

(** ** [test_neumann_convergence] (model.py)

    The comparison [<] of two floats is a parameter [slt]; the function is
    otherwise written with the operations of [Scalar]. *)

Section Convergence.
Context {num : Type} `{Scalar num}.
Variable slt : num -> num -> bool.

Definition hundred : num := sofnat 100.

(** [np.linalg.norm] of a 1-D array. *)
Definition norm (v : list num) : num := ssqrt (dot v v).

(** [errors[-1]] *)
Definition last_entry (errors : list num) : res num :=
  match last errors with Some e => Ok e | None => Err IndexError end.

(** The local variables the loop updates. *)
Record conv_locals := {
  cl_x : list num;
  cl_term : list num;
  cl_errors : list num;
  cl_converged : bool;
  cl_converged_k : option nat
}.

(** The returned dict: the entry ['x'] is the field [conv_x]. *)
Record convergence := {
  conv_converged : bool;
  conv_converged_k : option nat;
  conv_errors : list num;
  conv_final_error : num;
  conv_tolerance : num
}.

(** One pass of [for k in range(1, k_max + 1)]. *)
Definition convergence_body (A : list (list num)) (d_norm tolerance : num)
    (l : conv_locals) (k : nat) : conv_locals :=
  let term := matvec A (cl_term l) in
  let x := vadd (cl_x l) term in
  let error := (norm term /! d_norm) *! hundred in
  let errors := cl_errors l ++ [error] in
  if slt error (tolerance *! hundred) && negb (cl_converged l)
  then {| cl_x := x; cl_term := term; cl_errors := errors;
          cl_converged := true; cl_converged_k := Some k |}
  else {| cl_x := x; cl_term := term; cl_errors := errors;
          cl_converged := cl_converged l; cl_converged_k := cl_converged_k l |}.

Definition test_neumann_convergence (A : list (list num)) (test_vector : list num)
    (k_max : nat) (tolerance : num) : res convergence :=
  let d_norm := norm test_vector in
  let l := foldl (convergence_body A d_norm tolerance)
             {| cl_x := test_vector; cl_term := test_vector; cl_errors := [];
                cl_converged := false; cl_converged_k := None |}
             (seq 1 k_max) in
  (* the warning formats [errors[-1]] *)
  _ ← (if negb (cl_converged l) then last_entry (cl_errors l) else Ok s0);
  final_error ← last_entry (cl_errors l);
  Ok {| conv_converged := cl_converged l;
        conv_converged_k := cl_converged_k l;
        conv_errors := cl_errors l;
        conv_final_error := final_error;
        conv_tolerance := tolerance *! hundred |}.

End Convergence.

(** ** Exact real arithmetic

    Every value is a real number: nothing is rounded and nothing overflows.
    The quotient [x / 0] is a real number too, where float64 gives an
    infinity or NaN: a statement over the reals that depends on a divisor
    names it nonzero among its hypotheses, and what the code does at a zero
    divisor is stated for the floats of [Float64] below. *)

(** [x ** y] on floats, used for [(1 + g_a) ** (1/12)]: a positive base is
    raised by [Rpower]; a zero base with the positive exponent gives 0 (a
    negative base leaves the reals in Python). *)
Definition Rpow (x y : R) : R := if Rlt_dec 0 x then Rpower x y else 0%R.

#[global] Instance R_scalar : Scalar R := {|
  s0 := 0%R;
  s1 := 1%R;
  sadd := Rplus;
  ssub := Rminus;
  smul := Rmult;
  sdiv := Rdiv;
  sopp := Ropp;
  sexp := exp;
  smin := Rmin;
  ssqrt := sqrt;
  spow := Rpow;
  szerob := fun x => if Req_EM_T x 0 then true else false;
  snegb := fun x => if Rlt_dec x 0 then true else false
|}.

(** ** IEEE-754 binary64 arithmetic

    The kernel's primitive floats are numpy's float64 for the operations of
    IEEE-754: sums, products, quotients and square roots are rounded as
    numpy rounds them, and a division by zero gives an infinity or NaN
    without an error.  [np.exp] and the operator [**] are library functions
    outside these operations: they are parameters [fexp] and [fpow] of the
    instance, and a statement about floats holds for every choice of them
    that meets the hypotheses it names.  The statements about floats stay
    within the warm-up of the forecasters: [np.linalg.lstsq] rounds in its
    own way and raises [LinAlgError] on a non-finite entry, which [fit]
    does not model. *)

Module Float64.
Import Floats.PrimFloat.
Import Floats.FloatClass.

(** [np.signbit] of a float that is not NaN: numpy raises "scale < 0"
    when the sign bit of [scale] is set and [scale] is not NaN. *)
Definition signbit (x : float) : bool :=
  match classify x with
  | NNormal | NSubn | NZero | NInf => true
  | _ => false
  end.

(** [np.minimum]: the first argument when it is smaller or NaN, else the
    second. *)
Definition fmin (x y : float) : float :=
  if (ltb x y || is_nan x)%bool then x else y.

Definition float_scalar (fexp : float -> float) (fpow : float -> float -> float)
  : Scalar float := {|
  s0 := 0%float;
  s1 := 1%float;
  sadd := add;
  ssub := sub;
  smul := mul;
  sdiv := div;
  sopp := opp;
  sexp := fexp;
  smin := fmin;
  ssqrt := sqrt;
  spow := fpow;
  szerob := fun x => eqb x 0%float;
  snegb := signbit
|}.

(** A generator that delivers the variate 0 forever. *)
Definition zero_stream : rng float := fun _ => 0%float.

(** Two sectors, the first without household consumption; no volatility,
    no drift, no growth; a window of 3, so that periods 1 and 2 are
    warm-up. *)
Definition two_sector_config : config float := {|
  cfg_n := 2; cfg_k := 2; cfg_T_plan := 1; cfg_W := 3;
  cfg_random_seed := 42;
  cfg_tau := 0.5%float; cfg_b := 0.125%float;
  cfg_shock_sigma := 0%float; cfg_shock_persist := 0.5%float;
  cfg_g_a := 0%float; cfg_initial_capacity_buffer := 1.125%float;
  cfg_n_heavy := 1; cfg_n_medium := 1; cfg_n_light := 0;
  cfg_delta_heavy_min := 0.75%float; cfg_delta_heavy_max := 0.75%float;
  cfg_delta_medium_min := 0.75%float; cfg_delta_medium_max := 0.75%float;
  cfg_delta_light_min := 0%float; cfg_delta_light_max := 0%float;
  cfg_heavy_diag_min := 1%float; cfg_heavy_diag_max := 1%float;
  cfg_medium_diag_min := 1%float; cfg_medium_diag_max := 1%float;
  cfg_light_diag_min := 1%float; cfg_light_diag_max := 1%float;
  cfg_mu_heavy := 0%float; cfg_mu_medium := 0%float; cfg_mu_light := 0%float
|}.

Definition two_sector_data : data float := {|
  data_A := [[0.125; 0.25]; [0.25; 0.125]]%float;
  data_va_per_unit := [0.5; 0.5]%float;
  data_total_output := [1; 1]%float;
  data_C_household := [0; 1]%float;
  data_I_investment := [0; 0]%float;
  data_G_government := [0.5; 0.5]%float
|}.

(** One sector whose value added per unit is 0, as [nan_to_num] leaves it
    for a sector without output: its base price is 0. *)
Definition zero_price_config : config float := {|
  cfg_n := 1; cfg_k := 2; cfg_T_plan := 1; cfg_W := 2;
  cfg_random_seed := 42;
  cfg_tau := 0.5%float; cfg_b := 0.125%float;
  cfg_shock_sigma := 0%float; cfg_shock_persist := 0.5%float;
  cfg_g_a := 0%float; cfg_initial_capacity_buffer := 1.125%float;
  cfg_n_heavy := 1; cfg_n_medium := 0; cfg_n_light := 0;
  cfg_delta_heavy_min := 0.75%float; cfg_delta_heavy_max := 0.75%float;
  cfg_delta_medium_min := 0%float; cfg_delta_medium_max := 0%float;
  cfg_delta_light_min := 0%float; cfg_delta_light_max := 0%float;
  cfg_heavy_diag_min := 1%float; cfg_heavy_diag_max := 1%float;
  cfg_medium_diag_min := 1%float; cfg_medium_diag_max := 1%float;
  cfg_light_diag_min := 1%float; cfg_light_diag_max := 1%float;
  cfg_mu_heavy := 0%float; cfg_mu_medium := 0%float; cfg_mu_light := 0%float
|}.

Definition zero_price_data : data float := {|
  data_A := [[0.5]]%float;
  data_va_per_unit := [0]%float;
  data_total_output := [1]%float;
  data_C_household := [1]%float;
  data_I_investment := [0]%float;
  data_G_government := [1]%float
|}.

End Float64.

(** ** Notions the statements use *)

(** A probability vector: nonnegative entries that sum to 1. *)
Definition prob_vector (a : list R) : Prop :=
  Forall (fun x => (0 <= x)%R) a /\ vsum a = 1%R.

(** [m] successive calls of [update_alpha], each on the shares, the shock
    and the generator the previous call left, as the loop of
    [run_simulation] makes them. *)
Fixpoint update_alpha_iter {num : Type} `{Scalar num} (m : nat) (g : rng num)
    (alpha shock : list num) (sigma persist : num) (mu : list num)
  : res (list num * list num * rng num) :=
  match m with
  | 0 => Ok (alpha, shock, g)
  | S m' => '(alpha', shock', g') ← update_alpha g alpha shock sigma persist mu;
            update_alpha_iter m' g' alpha' shock' sigma persist mu
  end.

(** The forecasters of an [n]-dimensional series that a program can
    build: made by the constructor and changed by the methods only
    ([predict] changes nothing), every observation an array of length [n]. *)
Inductive forecaster_reachable {num : Type} `{Scalar num} (n : nat)
  : AR1Forecaster.t (num := num) -> Prop :=
| reach_init (W : nat) : forecaster_reachable n (AR1Forecaster.init W)
| reach_add_observation f v :
    length v = n ->
    forecaster_reachable n f ->
    forecaster_reachable n (AR1Forecaster.add_observation f v)
| reach_fit f :
    forecaster_reachable n f -> forecaster_reachable n (AR1Forecaster.fit f).

(** A forecaster whose fitted flag is set has its parameters set. *)
Definition params_set {num : Type} `{Scalar num} (f : AR1Forecaster.t (num := num)) : Prop :=
  AR1Forecaster.is_fitted f = true ->
  is_Some (AR1Forecaster.phi f) /\ is_Some (AR1Forecaster.c f).

(** The relation the loop keeps between the two lists of differences and
    the two forecasters: the second list is one shorter than the first,
    and each forecaster holds the last [W] entries of its list. *)
Definition forecasters_ready {num : Type} `{Scalar num} (s : sim num) : Prop :=
  let h1 := length (sim_Delta_C_p_hist s) in
  let h2 := length (sim_Delta2_C_p_hist s) in
  let f1 := sim_Delta_C_p_forecaster s in
  let f2 := sim_Delta2_C_p_forecaster s in
  h2 = h1 - 1 /\
  AR1Forecaster.window_size f1 = sim_W s /\
  AR1Forecaster.window_size f2 = sim_W s /\
  length (AR1Forecaster.history f1) = Nat.min h1 (sim_W s) /\
  length (AR1Forecaster.history f2) = Nat.min h2 (sim_W s) /\
  params_set f1 /\ params_set f2.

(** ** A small economy, used to instantiate the statements: one sector,
    three periods. *)

Definition example_config : config R := {|
  cfg_n := 1; cfg_k := 2; cfg_T_plan := 1; cfg_W := 2;
  cfg_random_seed := 42;
  cfg_tau := (1/2)%R; cfg_b := (1/10)%R;
  cfg_shock_sigma := (1/100)%R; cfg_shock_persist := (1/2)%R;
  cfg_g_a := (3/100)%R; cfg_initial_capacity_buffer := (11/10)%R;
  cfg_n_heavy := 1; cfg_n_medium := 0; cfg_n_light := 0;
  cfg_delta_heavy_min := 0%R; cfg_delta_heavy_max := 12%R;
  cfg_delta_medium_min := 0%R; cfg_delta_medium_max := 0%R;
  cfg_delta_light_min := 0%R; cfg_delta_light_max := 0%R;
  cfg_heavy_diag_min := 1%R; cfg_heavy_diag_max := 1%R;
  cfg_medium_diag_min := 1%R; cfg_medium_diag_max := 1%R;
  cfg_light_diag_min := 1%R; cfg_light_diag_max := 1%R;
  cfg_mu_heavy := 0%R; cfg_mu_medium := 0%R; cfg_mu_light := 0%R
|}.

Definition example_data : data R := {|
  data_A := [[(1/2)%R]];
  data_va_per_unit := [1%R];
  data_total_output := [1%R];
  data_C_household := [1%R];
  data_I_investment := [0%R];
  data_G_government := [1%R]
|}.

(** Two states of the generator: every variate 0, every variate 1. *)
Definition all_zero : rng R := fun _ => 0%R.
Definition all_one : rng R := fun _ => 1%R.

(** The equations of period [t] between the rows of the state arrays [st],
    for the structural data of [s]: what the loop body assigns, read back
    from the arrays. *)
Definition period_identities {num : Type} `{Scalar num}
    (s : sim num) (st : gmap string (list (list num))) (t : nat) : Prop :=
  get_row st "K" t =
    vadd (matvec (msub (eye (sim_n s)) (sim_Delta s)) (get_row st "K" (t - 1)))
         (get_row st "I" (t - 1)) /\
  get_row st "G" t = vscale (s1 +! sim_g s)%num (get_row st "G" (t - 1)) /\
  get_row st "F" t =
    vadd (vadd (get_row st "C_p" t) (get_row st "I" t)) (get_row st "G" t) /\
  get_row st "X" t = neumann (sim_A s) (get_row st "F" t) (sim_k s) /\
  get_row st "ED" t = vsub (get_row st "C_0" t) (get_row st "C_p" t) /\
  get_row st "AD" t =
    vadd (vadd (get_row st "C" t) (get_row st "I" t)) (get_row st "G" t) /\
  get_row st "X_max" t = matvec (sim_B_inv s) (get_row st "K" t) /\
  get_row st "F_c" t =
    matvec (msub (eye (sim_n s)) (sim_A s)) (get_row st "X_max" t).

(** The structural data of two states of the simulation agree. *)
Definition same_structure {num : Type} `{Scalar num} (s s' : sim num) : Prop :=
  sim_Delta s' = sim_Delta s /\ sim_B s' = sim_B s /\ sim_B_inv s' = sim_B_inv s /\
  sim_A s' = sim_A s /\ sim_P0 s' = sim_P0 s /\ sim_P0_real s' = sim_P0_real s /\
  sim_wL s' = sim_wL s /\ sim_epsilon s' = sim_epsilon s /\
  sim_epsilon_measured s' = sim_epsilon_measured s /\ sim_mu s' = sim_mu s /\
  sim_g s' = sim_g s /\ sim_T s' = sim_T s /\ sim_W s' = sim_W s /\
  sim_n s' = sim_n s /\ sim_k s' = sim_k s /\
  sim_Y_income_prev s' = sim_Y_income_prev s.

(** The equations of period 0 between the rows of the state arrays [st],
    as the initialisation assigns them from the loaded data. *)
Definition initial_identities {num : Type} `{Scalar num}
    (cfg : config num) (d : data num) (s : sim num)
    (st : gmap string (list (list num))) : Prop :=
  let buffer := cfg_initial_capacity_buffer cfg in
  get_row st "C_0" 0 = vdiv (data_C_household d) (sim_P0 s) /\
  get_row st "C" 0 = get_row st "C_0" 0 /\
  get_row st "C_p" 0 = get_row st "C" 0 /\
  get_row st "G" 0 = vdiv (data_G_government d) (sim_P0 s) /\
  get_row st "I" 0 =
    matvec (sim_Delta s)
      (vscale buffer (matvec (sim_B s) (vdiv (data_total_output d) (sim_P0 s)))) /\
  get_row st "AD" 0 =
    vadd (vadd (get_row st "C" 0) (get_row st "I" 0)) (get_row st "G" 0) /\
  get_row st "F" 0 = get_row st "AD" 0 /\
  get_row st "X" 0 = neumann (sim_A s) (get_row st "F" 0) (sim_k s) /\
  get_row st "K_e" 0 = matvec (sim_B s) (get_row st "X" 0) /\
  get_row st "X_max" 0 = vscale buffer (get_row st "X" 0) /\
  get_row st "F_c" 0 =
    matvec (msub (eye (sim_n s)) (sim_A s)) (get_row st "X_max" 0) /\
  get_row st "K" 0 = matvec (sim_B s) (get_row st "X_max" 0) /\
  get_row st "U" 0 = vsub (get_row st "X_max" 0) (get_row st "X" 0) /\
  get_row st "K_u" 0 = matvec (sim_B s) (get_row st "U" 0).

(** The relative size, in percent, of the [k]-th term [A^k v] of the
    series, as [test_neumann_convergence] measures it. *)
Definition term_error {num : Type} `{Scalar num} (A : list (list num)) (v : list num)
    (k : nat) : num :=
  (norm (Nat.iter k (matvec A) v) /! norm v) *! hundred.

(** A history in which every observation after the first is obtained
    from the one before it by the recurrence [V(t+1) = phi * V(t) + c],
    variable by variable. *)
Definition follows_recurrence (phis cs : list R) (h : list (list R)) : Prop :=
  forall t u w, h !! t = Some u -> h !! S t = Some w -> w = vadd (vmul phis u) cs.

(** The household budget of period [t], read from the state arrays [st]:
    the consumption demanded at the base prices is worth the income of the
    period, [wL @ X[t]] less [Taxes]. *)
Definition household_budget (cfg : config R) (s : sim R)
    (st : gmap string (list (list R))) (t : nat) : Prop :=
  dot (sim_P0 s) (get_row st "C_0" t) =
  (dot (sim_wL s) (get_row st "X" t)
   - dot (vscale (1 - cfg_tau cfg)%R (sim_P0 s))
         (vadd (get_row st "I" t) (get_row st "G" t)))%R.

(** * Properties *)

(** ** The object store of [neumann] *)

Section NeumannStore.
Context {num : Type} `{Scalar num}.
Local Abbreviation vec := (list num).
Local Abbreviation matrix := (list (list num)).
Local Abbreviation heap := (list (ndarray num)).

Lemma neumann_loop_h_spec (a : matrix) (A x : nat) :
  forall (i : nat) (h : heap) (term : nat) (xv tv : vec),
    A <> x ->
    x <> term ->
    h !! A = Some (Arr2 a) ->
    h !! x = Some (Arr1 xv) ->
    h !! term = Some (Arr1 tv) ->
    exists h',
      neumann_loop_h i h A x term = Some h' /\
      h' !! x = Some (Arr1 (neumann_loop a i xv tv)) /\
      length h <= length h' /\
      (forall l, l <> x -> l < length h -> h' !! l = h !! l).
Proof.
  induction i as [|i IH]; intros h term xv tv HAx Hxt HA Hx Ht.
  - exists h. simpl. auto.
  - simpl. unfold np_matmul. rewrite HA, Ht. simpl.
    assert (Hxlt : x < length h) by (eapply lookup_lt_Some; eauto).
    assert (HAlt : A < length h) by (eapply lookup_lt_Some; eauto).
    unfold np_iadd.
    rewrite (lookup_app_l h _ x) by lia. rewrite Hx.
    rewrite (lookup_app_r h _ (length h)) by lia.
    rewrite Nat.sub_diag. simpl.
    set (h2 := <[x := Arr1 (vadd xv (matvec a tv))]> (h ++ [Arr1 (matvec a tv)])).
    destruct (IH h2 (length h) (vadd xv (matvec a tv)) (matvec a tv))
      as (h' & Hrun & Hres & Hlen & Hframe); try lia.
    + unfold h2. rewrite list_lookup_insert_ne by lia.
      rewrite lookup_app_l by lia. exact HA.
    + unfold h2. apply list_lookup_insert_eq. rewrite length_app. simpl. lia.
    + unfold h2. rewrite list_lookup_insert_ne by lia.
      rewrite lookup_app_r by lia. rewrite Nat.sub_diag. reflexivity.
    + exists h'. split; [exact Hrun|]. split; [exact Hres|].
      assert (Hl2 : length h2 = S (length h)).
      { unfold h2. rewrite length_insert, length_app. simpl. lia. }
      split; [lia|]. intros l Hlx Hl.
      rewrite Hframe by lia. unfold h2.
      rewrite list_lookup_insert_ne by lia. apply lookup_app_l. lia.
Qed.

(** On the store, [neumann] returns a new array that holds the value of
    the pure function and leaves every object that existed before the
    call, its two arguments among them, as it was. *)
Lemma neumann_h_spec (h : heap) (A v : nat) (a : matrix) (v0 : vec) (k : nat) :
  h !! A = Some (Arr2 a) ->
  h !! v = Some (Arr1 v0) ->
  exists h',
    neumann_h h A v k = Some (h', length h) /\
    h' !! length h = Some (Arr1 (neumann a v0 k)) /\
    (forall l, l < length h -> h' !! l = h !! l).
Proof.
  intros HA Hv. unfold neumann_h, np_copy.
  assert (Hvlt : v < length h) by (eapply lookup_lt_Some; eauto).
  assert (HAlt : A < length h) by (eapply lookup_lt_Some; eauto).
  rewrite Hv. simpl.
  rewrite (lookup_app_l h _ v) by lia. rewrite Hv. simpl.
  set (h2 := (h ++ [Arr1 v0]) ++ [Arr1 v0]).
  destruct (neumann_loop_h_spec a A (length h) (k - 1) h2 (length (h ++ [Arr1 v0])) v0 v0)
    as (h' & Hrun & Hres & Hlen & Hframe).
  - lia.
  - rewrite length_app. simpl. lia.
  - unfold h2. rewrite !lookup_app_l by (rewrite ?length_app; simpl; lia). exact HA.
  - unfold h2. rewrite lookup_app_l by (rewrite ?length_app; simpl; lia).
    rewrite lookup_app_r by lia. rewrite Nat.sub_diag. reflexivity.
  - unfold h2. rewrite lookup_app_r by lia. rewrite Nat.sub_diag. reflexivity.
  - exists h'. rewrite Hrun. simpl. split; [reflexivity|]. split; [exact Hres|].
    intros l Hl. rewrite Hframe.
    + unfold h2. rewrite !lookup_app_l by (rewrite ?length_app; simpl; lia). reflexivity.
    + lia.
    + unfold h2. rewrite !length_app. simpl. lia.
Qed.

End NeumannStore.

(** ** Linear algebra over the reals *)

Section RealArrays.
Local Open Scope R_scope.
Implicit Types (u v w : list R) (A B : list (list R)).

Lemma vadd_cons a u b v : vadd (a :: u) (b :: v) = (a + b) :: vadd u v.
Proof. reflexivity. Qed.

Lemma length_vadd u v : length (vadd u v) = Nat.min (length u) (length v).
Proof. apply length_zip_with. Qed.

Lemma vadd_assoc u v w : vadd (vadd u v) w = vadd u (vadd v w).
Proof.
  revert v w. induction u as [|a u IH]; intros [|b v] [|c w]; try reflexivity.
  cbn. f_equal; [ring | apply IH].
Qed.

Lemma vadd_comm u v : vadd u v = vadd v u.
Proof.
  revert v. induction u as [|a u IH]; intros [|b v]; try reflexivity.
  cbn. f_equal; [ring | apply IH].
Qed.

Lemma vadd_zeros_r u m : length u = m -> vadd u (zeros m) = u.
Proof.
  intros <-. induction u as [|a u IH]; [reflexivity|].
  cbn. f_equal; [ring | apply IH].
Qed.

Lemma length_zeros m : length (zeros (num := R) m) = m.
Proof. apply length_replicate. Qed.

Lemma length_matvec A v : length (matvec A v) = length A.
Proof. apply length_map. Qed.

Lemma dot_nil_l v : dot [] v = 0.
Proof. reflexivity. Qed.

Lemma dot_nil_r u : dot u [] = 0.
Proof. destruct u; reflexivity. Qed.

Lemma dot_cons a u b v : dot (a :: u) (b :: v) = a * b + dot u v.
Proof. reflexivity. Qed.

Lemma dot_zeros_l m v : dot (zeros m) v = 0.
Proof.
  revert v. induction m as [|m IH]; intros [|b v]; try reflexivity.
  change (zeros (S m)) with (0 :: zeros m). rewrite dot_cons, IH. ring.
Qed.

Lemma dot_vscale_l c u v : dot (vscale c u) v = c * dot u v.
Proof.
  revert v. induction u as [|a u IH]; intros [|b v]; cbn; try ring.
  change (c * a * b + dot (vscale c u) v = c * (a * b + dot u v)).
  rewrite IH. ring.
Qed.

Lemma dot_vadd_l u w v :
  length u = length w -> dot (vadd u w) v = dot u v + dot w v.
Proof.
  revert w v. induction u as [|a u IH]; intros [|c w] [|b v] Hl;
    try discriminate; cbn; try ring.
  change ((a + c) * b + dot (vadd u w) v = a * b + dot u v + (c * b + dot w v)).
  rewrite IH by (simpl in Hl; lia). ring.
Qed.

Lemma dot_comm u v : dot u v = dot v u.
Proof.
  revert v. induction u as [|a u IH]; intros [|b v]; try reflexivity.
  rewrite !dot_cons, IH. ring.
Qed.

Lemma length_vecmat r B m :
  Forall (fun row => length row = m) B -> length (vecmat r B m) = m.
Proof.
  intros HB. revert r. induction HB as [|row B Hrow HB IH]; intros [|c r];
    try apply length_zeros.
  unfold vecmat. simpl. rewrite length_vadd.
  unfold vscale at 1. rewrite length_map, Hrow.
  fold (vecmat r B m). rewrite IH. lia.
Qed.

Lemma dot_vecmat r B m v :
  Forall (fun row => length row = m) B ->
  dot (vecmat r B m) v = dot r (matvec B v).
Proof.
  intros HB. revert r. induction HB as [|row B Hrow HB IH]; intros [|c r].
  - apply dot_zeros_l.
  - unfold vecmat. simpl. rewrite dot_zeros_l. symmetry. apply dot_nil_r.
  - apply dot_zeros_l.
  - unfold vecmat. simpl. fold (vecmat r B m).
    rewrite dot_vadd_l.
    + rewrite dot_vscale_l, IH. reflexivity.
    + unfold vscale. rewrite length_map, Hrow. symmetry.
      apply length_vecmat, HB.
Qed.

Lemma matvec_matmul A B m v :
  Forall (fun row => length row = m) B ->
  matvec (matmul A B m) v = matvec A (matvec B v).
Proof.
  intros HB. unfold matvec, matmul. rewrite List.map_map.
  apply List.map_ext. intros r. apply dot_vecmat, HB.
Qed.

Lemma dot_indicator (i : nat) (x : R) :
  forall v off,
    dot (map (fun j => if Nat.eqb i j then x else 0) (seq off (length v))) v =
    if decide (off <= i < off + length v)%nat then x * nth (i - off) v 0 else 0.
Proof.
  induction v as [|b v IH]; intros off.
  - simpl. case_decide; [lia | reflexivity].
  - simpl length. simpl seq. simpl map. rewrite dot_cons, IH.
    destruct (Nat.eqb_spec i off) as [->|Hne].
    + rewrite Nat.sub_diag. simpl.
      repeat case_decide; try lia. ring.
    + repeat case_decide; try lia; try ring.
      replace (i - off)%nat with (S (i - S off)) by lia. simpl. ring.
Qed.

Lemma map_nth_seq v : map (fun i => nth i v 0) (seq 0 (length v)) = v.
Proof.
  induction v as [|b v IH]; [reflexivity|].
  simpl. f_equal. rewrite <- List.seq_shift, List.map_map. exact IH.
Qed.

Lemma matvec_eye v : matvec (eye (length v)) v = v.
Proof.
  unfold matvec, eye, unit_row. rewrite List.map_map.
  etransitivity; [|apply (map_nth_seq v)].
  apply List.map_ext_in. intros i Hi. apply List.in_seq in Hi.
  etransitivity; [apply (dot_indicator i 1 v 0%nat)|].
  case_decide; [|lia]. rewrite Nat.sub_0_r. ring.
Qed.

Lemma matpow_is_matrix m A i :
  length A = m -> is_matrix m m (matpow m A i).
Proof.
  intros HA. induction i as [|i IH].
  - split.
    + cbn [matpow]. unfold eye. rewrite length_map. apply length_seq.
    + apply Forall_forall. intros r Hr. apply list_elem_of_In in Hr.
      cbn [matpow] in Hr. unfold eye in Hr. apply List.in_map_iff in Hr as (j & <- & _).
      unfold unit_row. rewrite length_map. apply length_seq.
  - destruct IH as [_ IHr]. split.
    + cbn [matpow]. unfold matmul. rewrite length_map. exact HA.
    + apply Forall_forall. intros r Hr. apply list_elem_of_In in Hr.
      cbn [matpow] in Hr. unfold matmul in Hr. apply List.in_map_iff in Hr as (r' & <- & _).
      apply length_vecmat, IHr.
Qed.

(** [A^i v] is [A] applied [i] times to [v]. *)
Lemma matvec_matpow A v i :
  length A = length v ->
  matvec (matpow (length v) A i) v = Nat.iter i (matvec A) v.
Proof.
  intros HA. induction i as [|i IH].
  - apply matvec_eye.
  - simpl. rewrite matvec_matmul, IH; [reflexivity|].
    apply (matpow_is_matrix (length v) A i HA).
Qed.

Lemma length_iter_matvec A v i :
  length A = length v -> length (Nat.iter i (matvec A) v) = length v.
Proof.
  intros HA. destruct i as [|i]; [reflexivity|].
  simpl. rewrite length_matvec. exact HA.
Qed.

Lemma neumann_loop_sum A :
  forall i x term,
    length x = length A -> length term = length A ->
    neumann_loop A i x term =
    vadd x (foldr vadd (zeros (length A))
              (map (fun j => Nat.iter (S j) (matvec A) term) (seq 0 i))).
Proof.
  induction i as [|i IH]; intros x term Hx Ht.
  - simpl. symmetry. apply vadd_zeros_r, Hx.
  - cbn [neumann_loop]. rewrite IH.
    + rewrite vadd_assoc. f_equal.
      cbn [seq map foldr]. f_equal.
      rewrite <- List.seq_shift, List.map_map. f_equal.
      apply List.map_ext. intros j.
      rewrite <- !Nat.iter_succ_r. reflexivity.
    + rewrite length_vadd, length_matvec. lia.
    + apply length_matvec.
Qed.

(** The loop of [neumann] computes the partial sum of the series. *)
Lemma neumann_partial_sum A v k :
  length A = length v -> (1 <= k)%nat ->
  neumann A v k = neumann_series (length v) A v k.
Proof.
  intros HA Hk. destruct k as [|k]; [lia|].
  unfold neumann, neumann_series. simpl Nat.sub. rewrite Nat.sub_0_r.
  rewrite neumann_loop_sum by congruence.
  cbn [seq map foldr]. rewrite HA.
  cbn [matpow]. rewrite (matvec_eye v). f_equal. f_equal.
  rewrite <- List.seq_shift, List.map_map.
  apply List.map_ext. intros j. symmetry.
  apply (matvec_matpow A v (S j) HA).
Qed.

End RealArrays.

(** ** The Neumann solver *)

(** C1. For an n-by-n matrix [a], a vector [v0] of length n and an order
    [k >= 1], [neumann] returns the partial sum
    [v0 + a v0 + a^2 v0 + ... + a^(k-1) v0]; with [k = 1] it returns [v0]
    itself; and the call, run on the object store, delivers its result in
    a new array and leaves every array that existed before the call, the
    arguments [A] and [v] among them, unchanged. *)
Theorem neumann_partial_sum_and_frame
    (h : list (ndarray R)) (A v : nat) (a : list (list R)) (v0 : list R) (n k : nat) :
  h !! A = Some (Arr2 a) ->
  h !! v = Some (Arr1 v0) ->
  is_matrix n n a ->
  length v0 = n ->
  1 <= k ->
  neumann a v0 k = neumann_series n a v0 k /\
  neumann a v0 1 = v0 /\
  (exists h', neumann_h h A v k = Some (h', length h) /\
              h' !! length h = Some (Arr1 (neumann_series n a v0 k)) /\
              forall l, l < length h -> h' !! l = h !! l) /\
  (exists h', neumann_h h A v 1 = Some (h', length h) /\
              h' !! length h = Some (Arr1 v0) /\
              forall l, l < length h -> h' !! l = h !! l).
Proof.
  intros HA Hv [Hrows _] Hlen Hk.
  assert (Hsum : neumann a v0 k = neumann_series n a v0 k).
  { rewrite <- Hlen. apply neumann_partial_sum; [congruence | exact Hk]. }
  split; [exact Hsum|]. split; [reflexivity|]. split.
  - destruct (neumann_h_spec h A v a v0 k HA Hv) as (h' & Hrun & Hres & Hframe).
    exists h'. rewrite <- Hsum. auto.
  - destruct (neumann_h_spec h A v a v0 1 HA Hv) as (h' & Hrun & Hres & Hframe).
    exists h'. auto.
Qed.

Lemma neumann_partial_sum_and_frame_witness :
  let h := [Arr2 [[(1/2)%R]]; Arr1 [1%R]] in
  neumann [[(1/2)%R]] [1%R] 2 = neumann_series 1 [[(1/2)%R]] [1%R] 2 /\
  neumann [[(1/2)%R]] [1%R] 1 = [1%R] /\
  (exists h', neumann_h h 0 1 2 = Some (h', length h) /\
              h' !! length h = Some (Arr1 (neumann_series 1 [[(1/2)%R]] [1%R] 2)) /\
              forall l, l < length h -> h' !! l = h !! l) /\
  (exists h', neumann_h h 0 1 1 = Some (h', length h) /\
              h' !! length h = Some (Arr1 [1%R]) /\
              forall l, l < length h -> h' !! l = h !! l).
Proof.
  apply (neumann_partial_sum_and_frame
           [Arr2 [[(1/2)%R]]; Arr1 [1%R]] 0 1 [[(1/2)%R]] [1%R] 1 2).
  - reflexivity.
  - reflexivity.
  - split; [reflexivity | repeat constructor].
  - reflexivity.
  - lia.
Defined.

(** ** The preference-shock process *)

Section PreferenceShocks.
Local Open Scope R_scope.
Implicit Types (a e u v : list R).

Lemma vsum_cons x u : vsum (x :: u) = x + vsum u.
Proof. reflexivity. Qed.

Lemma vsum_nonneg u : Forall (fun x => 0 <= x) u -> 0 <= vsum u.
Proof.
  induction 1 as [|x u Hx _ IH]; [cbn; lra|]. rewrite vsum_cons. lra.
Qed.

Lemma vmul_exp_nonneg a v :
  Forall (fun x => 0 <= x) a -> Forall (fun x => 0 <= x) (vmul a (vexp v)).
Proof.
  intros Ha. revert v. induction Ha as [|x a Hx _ IH]; intros [|y v];
    try constructor.
  - cbn. pose proof (exp_pos y). nra.
  - apply IH.
Qed.

Lemma vsum_vmul_exp_pos a v :
  Forall (fun x => 0 <= x) a -> length v = length a ->
  0 < vsum a -> 0 < vsum (vmul a (vexp v)).
Proof.
  intros Ha. revert v. induction Ha as [|x a Hx Ha IH]; intros [|y v] Hl Hs;
    try discriminate.
  - cbn in Hs. lra.
  - rewrite vsum_cons in Hs.
    change (0 < x * exp y + vsum (vmul a (vexp v))).
    pose proof (exp_pos y) as He.
    pose proof (vsum_nonneg _ (vmul_exp_nonneg a v Ha)) as Hn.
    pose proof (vsum_nonneg _ Ha) as Hna.
    destruct (Rle_lt_dec x 0) as [Hx0|Hx0].
    + assert (x = 0) by lra. subst x.
      specialize (IH v ltac:(simpl in Hl; lia) ltac:(lra)). lra.
    + assert (0 < x * exp y) by nra. lra.
Qed.

Lemma vsum_vdivs u s : vsum (vdivs u s) = vsum u / s.
Proof.
  induction u as [|x u IH]; cbn.
  - unfold Rdiv. ring.
  - change (x / s + vsum (vdivs u s) = (x + vsum u) / s).
    rewrite IH. unfold Rdiv. ring.
Qed.

Lemma vdivs_nonneg u s :
  0 < s -> Forall (fun x => 0 <= x) u -> Forall (fun x => 0 <= x) (vdivs u s).
Proof.
  intros Hs. induction 1 as [|x u Hx _ IH]; constructor; [|exact IH].
  cbn. apply Rle_mult_inv_pos; assumption.
Qed.

Lemma snegb_false (x : R) : snegb x = false <-> 0 <= x.
Proof. cbn. destruct (Rlt_dec x 0); split; intros; try discriminate; try reflexivity; lra. Qed.

Lemma snegb_true (x : R) : snegb x = true <-> x < 0.
Proof. cbn. destruct (Rlt_dec x 0); split; intros; try discriminate; try reflexivity; lra. Qed.

(** What a call that returns has computed. *)
Lemma update_alpha_inv (g : rng R) (alpha_prev shock_prev : list R)
    (sigma persist : R) (mu : list R) (alpha' shock' : list R) (g' : rng R) :
  update_alpha g alpha_prev shock_prev sigma persist mu = Ok (alpha', shock', g') ->
  let shock :=
    vadd (vscale persist shock_prev)
         (map (fun z => 0 + sigma * z) (map g (seq 0 (length alpha_prev)))) in
  let alpha_tilde := vmul alpha_prev (vexp (vadd mu shock)) in
  0 <= sigma /\
  alpha' = vdivs alpha_tilde (vsum alpha_tilde) /\
  shock' = shock /\
  g' = (fun i => g (length alpha_prev + i)%nat).
Proof.
  unfold update_alpha, np_random_normal, draw.
  destruct (snegb sigma) eqn:Hs; [discriminate|].
  cbn. intros [= <- <- <-]. apply snegb_false in Hs. repeat split. exact Hs.
Qed.

Lemma update_alpha_returns (g : rng R) (alpha_prev shock_prev : list R)
    (sigma persist : R) (mu : list R) :
  0 <= sigma ->
  exists alpha' shock' g',
    update_alpha g alpha_prev shock_prev sigma persist mu = Ok (alpha', shock', g').
Proof.
  intros Hs. apply snegb_false in Hs.
  unfold update_alpha, np_random_normal, draw. rewrite Hs. cbn. eauto.
Qed.

Lemma update_alpha_raises (g : rng R) (alpha_prev shock_prev : list R)
    (sigma persist : R) (mu : list R) :
  sigma < 0 ->
  update_alpha g alpha_prev shock_prev sigma persist mu = Err ValueError_scale.
Proof.
  intros Hs. apply snegb_true in Hs.
  unfold update_alpha, np_random_normal. rewrite Hs. reflexivity.
Qed.

(** The shares a call returns are a probability vector again. *)
Lemma update_alpha_invariant (g : rng R) (alpha_prev shock_prev : list R)
    (sigma persist : R) (mu : list R) (alpha' shock' : list R) (g' : rng R) :
  prob_vector alpha_prev ->
  length shock_prev = length alpha_prev ->
  length mu = length alpha_prev ->
  update_alpha g alpha_prev shock_prev sigma persist mu = Ok (alpha', shock', g') ->
  prob_vector alpha' /\
  length shock' = length alpha_prev /\
  length alpha' = length alpha_prev.
Proof.
  intros [Hnn Hsum] Hls Hlm Hup.
  destruct (update_alpha_inv _ _ _ _ _ _ _ _ _ Hup) as (_ & -> & -> & _).
  set (shock := vadd (vscale persist shock_prev) _).
  assert (Hshock : length shock = length alpha_prev).
  { unfold shock. rewrite length_vadd. unfold vscale.
    rewrite !length_map, length_seq, Hls. lia. }
  assert (Hlen : length (vadd mu shock) = length alpha_prev).
  { rewrite length_vadd. lia. }
  pose proof (vsum_vmul_exp_pos alpha_prev (vadd mu shock) Hnn Hlen
                ltac:(rewrite Hsum; lra)) as Hpos.
  split; [split|split].
  - apply vdivs_nonneg; [exact Hpos | apply vmul_exp_nonneg, Hnn].
  - rewrite vsum_vdivs. apply Rdiv_diag. lra.
  - exact Hshock.
  - unfold vdivs, vmul, vexp. rewrite length_map, length_zip_with, length_map.
    lia.
Qed.

Lemma update_alpha_iter_invariant (sigma persist : R) (mu : list R) (m : nat) :
  0 <= sigma ->
  forall (g : rng R) (alpha_prev shock_prev : list R),
    prob_vector alpha_prev ->
    length shock_prev = length alpha_prev ->
    length mu = length alpha_prev ->
    exists alpha' shock' g',
      update_alpha_iter m g alpha_prev shock_prev sigma persist mu
        = Ok (alpha', shock', g') /\
      prob_vector alpha'.
Proof.
  intros Hs. induction m as [|m IH]; intros g alpha_prev shock_prev Hp Hls Hlm.
  - exists alpha_prev, shock_prev, g. split; [reflexivity | exact Hp].
  - destruct (update_alpha_returns g alpha_prev shock_prev sigma persist mu Hs)
      as (a1 & s1 & g1 & Hup).
    destruct (update_alpha_invariant _ _ _ _ _ _ _ _ _ Hp Hls Hlm Hup)
      as (Hp1 & Hs1 & Ha1).
    cbn [update_alpha_iter]. rewrite Hup. cbn [mbind res_bind].
    apply IH; [exact Hp1 | congruence | congruence].
Qed.

End PreferenceShocks.

(** C3. When [alpha_prev] is a probability vector (and the shock state and
    the drift have its length), [update_alpha] with a volatility
    [sigma >= 0] returns, and returns a probability vector again, whatever
    the generator draws and whatever the persistence and the drift are; and
    so does any number of successive calls.  With [sigma < 0] the call
    raises the [ValueError] of [np.random.normal] and returns nothing. *)
Theorem update_alpha_keeps_prob_vector
    (g : rng R) (alpha_prev shock_prev : list R) (sigma persist : R) (mu : list R) :
  prob_vector alpha_prev ->
  length shock_prev = length alpha_prev ->
  length mu = length alpha_prev ->
  ((0 <= sigma)%R ->
   (exists alpha_next shock_next g',
       update_alpha g alpha_prev shock_prev sigma persist mu
         = Ok (alpha_next, shock_next, g') /\
       prob_vector alpha_next) /\
   (forall m, exists alpha_m shock_m g_m,
       update_alpha_iter m g alpha_prev shock_prev sigma persist mu
         = Ok (alpha_m, shock_m, g_m) /\
       prob_vector alpha_m)) /\
  ((sigma < 0)%R ->
   update_alpha g alpha_prev shock_prev sigma persist mu = Err ValueError_scale).
Proof.
  intros Hp Hls Hlm. split.
  - intros Hs. split.
    + destruct (update_alpha_returns g alpha_prev shock_prev sigma persist mu Hs)
        as (a1 & s1 & g1 & Hup).
      exists a1, s1, g1. split; [exact Hup|].
      apply (update_alpha_invariant _ _ _ _ _ _ _ _ _ Hp Hls Hlm Hup).
    + intros m. apply update_alpha_iter_invariant; assumption.
  - apply update_alpha_raises.
Qed.

Lemma update_alpha_keeps_prob_vector_witness :
  ((0 <= 1/10)%R ->
   (exists alpha_next shock_next g',
       update_alpha (fun _ => 0%R) [(1/4)%R; (3/4)%R] [0%R; 0%R]
                    (1/10)%R (1/2)%R [0%R; 0%R]
         = Ok (alpha_next, shock_next, g') /\
       prob_vector alpha_next) /\
   (forall m, exists alpha_m shock_m g_m,
       update_alpha_iter m (fun _ => 0%R) [(1/4)%R; (3/4)%R] [0%R; 0%R]
                         (1/10)%R (1/2)%R [0%R; 0%R]
         = Ok (alpha_m, shock_m, g_m) /\
       prob_vector alpha_m)) /\
  ((1/10 < 0)%R ->
   update_alpha (fun _ => 0%R) [(1/4)%R; (3/4)%R] [0%R; 0%R]
                (1/10)%R (1/2)%R [0%R; 0%R] = Err ValueError_scale).
Proof.
  apply (update_alpha_keeps_prob_vector
           (fun _ => 0%R) [(1/4)%R; (3/4)%R] [0%R; 0%R] (1/10)%R (1/2)%R [0%R; 0%R]).
  - split; [repeat constructor; lra | cbn; lra].
  - reflexivity.
  - reflexivity.
Defined.

(** A volatility below zero: the shares [alpha_prev = [1]] are a probability
    vector and the update raises instead of returning shares. *)
Lemma update_alpha_negative_sigma_raises :
  prob_vector [1%R] /\
  update_alpha (fun _ => 0%R) [1%R] [0%R] (-1)%R 0%R [0%R] = Err ValueError_scale.
Proof.
  split.
  - split; [repeat constructor; lra | cbn; lra].
  - apply update_alpha_raises. lra.
Qed.

(** ** The forecaster *)

Section ForecasterProps.
Context {num : Type} `{Scalar num}.
Import AR1Forecaster.
Implicit Types (f : AR1Forecaster.t (num := num)) (v : list num).

Lemma history_fit f : history (fit f) = history f.
Proof.
  unfold fit. destruct (length (history f) <? 2); [reflexivity|].
  destruct (length (hd [] (history f)) =? 1); [|reflexivity].
  destruct (fit_ar1_gaussian _) as [[ph cc] sg]. reflexivity.
Qed.

Lemma window_size_fit f : window_size (fit f) = window_size f.
Proof.
  unfold fit. destruct (length (history f) <? 2); [reflexivity|].
  destruct (length (hd [] (history f)) =? 1); [|reflexivity].
  destruct (fit_ar1_gaussian _) as [[ph cc] sg]. reflexivity.
Qed.

Lemma is_fitted_fit f : is_fitted (fit f) = negb (length (history f) <? 2).
Proof.
  unfold fit. destruct (length (history f) <? 2); [reflexivity|].
  destruct (length (hd [] (history f)) =? 1); [|reflexivity].
  destruct (fit_ar1_gaussian _) as [[ph cc] sg]. reflexivity.
Qed.

Lemma params_set_fit f : params_set f -> params_set (fit f).
Proof.
  intros Hf. unfold params_set, fit.
  destruct (length (history f) <? 2); [discriminate|].
  destruct (length (hd [] (history f)) =? 1).
  - destruct (fit_ar1_gaussian _) as [[ph cc] sg]. cbn. eauto.
  - cbn. eauto.
Qed.

Lemma params_set_reachable n f : forecaster_reachable n f -> params_set f.
Proof.
  induction 1 as [W|f v _ _ IH|f _ IH].
  - intros Hfit. discriminate.
  - exact IH.
  - apply params_set_fit, IH.
Qed.

Lemma predict_fitted f v n_steps :
  params_set f -> is_fitted f = true ->
  exists r, predict f v n_steps = Ok r.
Proof.
  intros Hp Hfit. destruct (Hp Hfit) as [[ph Hph] [cc Hcc]].
  unfold predict. rewrite Hfit, Hph, Hcc. cbn.
  destruct n_steps; eauto.
Qed.

Lemma predict1_fitted f v :
  params_set f -> is_fitted f = true ->
  exists r, predict1 f v = Ok r.
Proof.
  intros Hp Hfit. destruct (Hp Hfit) as [[ph Hph] [cc Hcc]].
  unfold predict1, predict. rewrite Hfit, Hph, Hcc. cbn. eauto.
Qed.

Lemma history_add_observation f v :
  history (add_observation f v) =
  if window_size f <? length (history f ++ [v])
  then drop 1 (history f ++ [v]) else history f ++ [v].
Proof. reflexivity. Qed.

Lemma history_foldl_add_observation (W : nat) (obs : list (list num)) :
  let f := foldl add_observation (init W) obs in
  window_size f = W /\ history f = drop (length obs - W) obs.
Proof.
  induction obs as [|v obs IH] using rev_ind; [split; reflexivity|].
  rewrite foldl_app. cbn [foldl]. cbn zeta in *.
  destruct IH as [HW Hh]. split; [exact HW|].
  rewrite history_add_observation, HW, Hh.
  rewrite !length_app, length_drop. cbn [length].
  destruct (decide (length obs < W)) as [Hlt|Hge].
  - replace (length obs - W) with 0 by lia.
    replace (length obs + 1 - W) with 0 by lia.
    destruct (Nat.ltb_spec W (length obs - 0 + 1)); [lia | reflexivity].
  - destruct (Nat.ltb_spec W (length obs - (length obs - W) + 1)); [|lia].
    replace (length obs + 1 - W) with ((length obs - W) + 1) by lia.
    rewrite <- drop_drop. f_equal.
    symmetry. apply drop_app_le. lia.
Qed.

End ForecasterProps.

(** C7. Whatever the window [W] and the observations added to a new
    forecaster, its history is the last [min(count, W)] of them in the
    order of arrival (the oldest are the ones dropped), so its length is
    [min(count, W)] and never exceeds [W]. *)
Theorem history_is_sliding_window {num : Type} `{Scalar num}
    (W : nat) (obs : list (list num)) :
  let f := foldl AR1Forecaster.add_observation (AR1Forecaster.init W) obs in
  AR1Forecaster.history f = drop (length obs - Nat.min (length obs) W) obs /\
  length (AR1Forecaster.history f) = Nat.min (length obs) W /\
  length (AR1Forecaster.history f) <= W.
Proof.
  cbn zeta. destruct (history_foldl_add_observation W obs) as [_ Hh].
  cbn zeta in Hh. rewrite Hh.
  replace (length obs - Nat.min (length obs) W) with (length obs - W) by lia.
  rewrite length_drop. repeat split; lia.
Qed.

(** C8. [fit] on a history of fewer than 2 entries returns without an
    error, with the fitted flag cleared and the stored parameters, the
    history and the window as they were: whatever the forecaster held
    before, a flag that was set and parameters of an earlier fit included.
    [predict] with the flag cleared fails with the "not fitted" error; and
    on a forecaster whose parameters, when the flag is set, are stored with
    the length of [last_value], [predict] fails exactly when the flag is
    cleared. *)
Theorem fit_short_history_and_predict_error {num : Type} `{Scalar num}
    (f : AR1Forecaster.t (num := num)) (last_value : list num) (n_steps : nat) :
  (length (AR1Forecaster.history f) < 2 ->
   AR1Forecaster.fit f =
   AR1Forecaster.mk (AR1Forecaster.window_size f) (AR1Forecaster.history f)
     (AR1Forecaster.phi f) (AR1Forecaster.c f) (AR1Forecaster.sigma f) false) /\
  (AR1Forecaster.is_fitted f = false ->
   AR1Forecaster.predict f last_value n_steps = Err ValueError_not_fitted) /\
  ((AR1Forecaster.is_fitted f = true ->
    exists ph cc, AR1Forecaster.phi f = Some ph /\ AR1Forecaster.c f = Some cc /\
                  length ph = length last_value /\ length cc = length last_value) ->
   ((exists e, AR1Forecaster.predict f last_value n_steps = Err e) <->
    AR1Forecaster.is_fitted f = false)).
Proof.
  split; [|split].
  - intros Hlen. unfold AR1Forecaster.fit.
    destruct (Nat.ltb_spec (length (AR1Forecaster.history f)) 2); [reflexivity | lia].
  - intros Hfit. unfold AR1Forecaster.predict. rewrite Hfit. reflexivity.
  - intros Hpar. split.
    + intros [e He]. destruct (AR1Forecaster.is_fitted f) eqn:Hfit; [|reflexivity].
      destruct (Hpar eq_refl) as (ph & cc & Hph & Hcc & _).
      unfold AR1Forecaster.predict in He. rewrite Hfit, Hph, Hcc in He.
      destruct n_steps; discriminate He.
    + intros Hfit. exists ValueError_not_fitted.
      unfold AR1Forecaster.predict. rewrite Hfit. reflexivity.
Qed.

(** A forecaster that was fitted, and whose history has since been cut to
    one entry: [fit] clears the flag and keeps the parameters, after which
    [predict] fails; before, with the flag set, [predict] returned. *)
Lemma fit_short_history_and_predict_error_witness :
  let f := AR1Forecaster.mk 3 [[1%R; 2%R]] (Some [2%R; 2%R]) (Some [1%R; 1%R])
             (Some (Arr [0%R; 0%R])) true in
  AR1Forecaster.fit f =
    AR1Forecaster.mk 3 [[1%R; 2%R]] (Some [2%R; 2%R]) (Some [1%R; 1%R])
      (Some (Arr [0%R; 0%R])) false /\
  AR1Forecaster.predict (AR1Forecaster.fit f) [5%R; 6%R] 1 = Err ValueError_not_fitted /\
  ((exists e, AR1Forecaster.predict f [5%R; 6%R] 1 = Err e) <->
   AR1Forecaster.is_fitted f = false).
Proof.
  intros f.
  destruct (fit_short_history_and_predict_error f [5%R; 6%R] 1) as (Hfit & _ & Hiff).
  destruct (fit_short_history_and_predict_error (AR1Forecaster.fit f) [5%R; 6%R] 1)
    as (_ & Herr & _).
  split; [apply Hfit; simpl; lia|].
  split; [apply Herr; reflexivity|].
  apply Hiff. intros _. exists [2%R; 2%R], [1%R; 1%R]. repeat split.
Defined.

(** ** The state arrays *)

Section StateArrays.
Context {num : Type} `{Scalar num}.
Implicit Types (st : gmap string (list (list num))) (v : list num).

Lemma get_set_row_ne st key key' t t' v :
  key <> key' -> get_row (set_row st key t v) key' t' = get_row st key' t'.
Proof.
  intros Hne. unfold get_row, set_row. rewrite lookup_insert_ne by exact Hne.
  reflexivity.
Qed.

Lemma get_set_row_other st key t t' v :
  t <> t' -> get_row (set_row st key t v) key t' = get_row st key t'.
Proof.
  intros Hne. unfold get_row, set_row. rewrite lookup_insert_eq. cbn.
  rewrite list_lookup_insert_ne by exact Hne. reflexivity.
Qed.

Lemma get_set_row_eq st key t v :
  t < rows st key -> get_row (set_row st key t v) key t = v.
Proof.
  intros Hlt. unfold get_row, set_row. rewrite lookup_insert_eq. cbn.
  rewrite list_lookup_insert_eq by exact Hlt. reflexivity.
Qed.

Lemma get_set_row_frame st key key' t t' (v : list num) :
  t <> t' -> get_row (set_row st key t v) key' t' = get_row st key' t'.
Proof.
  intros Hne. destruct (decide (key = key')) as [<-|Hk].
  - apply get_set_row_other, Hne.
  - apply get_set_row_ne, Hk.
Qed.

Lemma read_written st key t (v : list num) x :
  x = set_row st key t v -> t < rows st key -> get_row x key t = v.
Proof. intros -> Hlt. apply get_set_row_eq, Hlt. Qed.

Lemma get_row_skip st key t (v : list num) x key' t' :
  x = set_row st key t v -> key <> key' -> get_row x key' t' = get_row st key' t'.
Proof. intros -> Hne. apply get_set_row_ne, Hne. Qed.

Lemma get_row_skip_frame st key t (v : list num) x key' t' :
  x = set_row st key t v -> t <> t' -> get_row x key' t' = get_row st key' t'.
Proof. intros -> Hne. apply get_set_row_frame, Hne. Qed.

Lemma rows_set_row st key key' t v :
  rows (set_row st key t v) key' = rows st key'.
Proof.
  unfold rows, set_row. destruct (decide (key = key')) as [<-|Hne].
  - rewrite lookup_insert_eq. cbn. apply length_insert.
  - rewrite lookup_insert_ne by exact Hne. reflexivity.
Qed.

Lemma rows_initialize_state_arrays T n key :
  key ∈ state_keys -> rows (initialize_state_arrays (num := num) T n) key = T.
Proof.
  intros Hin. unfold rows, initialize_state_arrays.
  induction state_keys as [|k ks IH]; [inversion Hin|].
  cbn [foldr]. destruct (decide (k = key)) as [->|Hne].
  - rewrite lookup_insert_eq. cbn. unfold zeros2. apply length_replicate.
  - rewrite lookup_insert_ne by exact Hne. apply IH.
    apply elem_of_cons in Hin as [->|Hin]; [congruence | exact Hin].
Qed.

End StateArrays.

(** ** The loop body, executed symbolically *)

(** The body of [step] is a chain of [let*]; the tactics below introduce
    each bound value as a variable with its defining equation, in turn, so
    that the shared values stay shared. *)
Lemma let_in_ex {A B : Type} (v : A) (k : A -> B) (r : B) :
  let_in v k = r -> exists y, y = v /\ k y = r.
Proof. intros Hk. exists v. split; [reflexivity | exact Hk]. Qed.

Ltac name_let H :=
  lazymatch type of H with
  | let_in ?v (fun x => _) = _ =>
      let y := fresh x in
      let Hy := fresh "Def_" x in
      apply let_in_ex in H; destruct H as (y & Hy & H); cbv beta in H
  end.

Ltac split_let H :=
  lazymatch type of H with
  | (let '(_, _) := ?e in _) = _ =>
      let E := fresh "E" in
      destruct e as [? ?] eqn:E
  end.

Ltac split_tuple r :=
  lazymatch type of r with
  | prod _ _ => let a := fresh in let b := fresh in destruct r as [a b]; split_tuple a
  | _ => idtac
  end.

Ltac bind_ok H :=
  lazymatch type of H with
  | mbind _ ?m = _ =>
      let E := fresh "E" in
      let r := fresh "r" in
      cbv beta delta [mbind res_bind] in H;
      destruct m as [r|?] eqn:E; [split_tuple r|discriminate H]
  | match ?m with Ok _ => _ | Err _ => _ end = _ =>
      let E := fresh "E" in
      let r := fresh "r" in
      destruct m as [r|?] eqn:E; [split_tuple r|discriminate H]
  end.

(** A test that raises: the run continues on the other branch. *)
Ltac guard_ok H :=
  lazymatch type of H with
  | (if ?c then Err _ else _) = _ =>
      let E := fresh "E" in destruct c eqn:E; [discriminate H|]
  end.

Ltac run_step H :=
  cbv beta delta [step] in H;
  repeat (first [name_let H | split_let H | bind_ok H | guard_ok H]).

Ltac run_init H :=
  cbv beta delta [initialize_simulation] in H;
  repeat (first [name_let H | split_let H | bind_ok H | guard_ok H]).

Ltac strip_rows :=
  repeat match goal with
    | Hx : ?x = set_row _ _ _ _ |- context [get_row ?x _ _] =>
        rewrite Hx; rewrite !get_set_row_ne by discriminate
    end.

(** Reading a row back through the later assignments to other arrays, or
    to other rows. *)
Ltac strip_to_written :=
  repeat match goal with
    | Hx : ?x = set_row _ _ _ _ |- context [get_row ?x ?key' ?t'] =>
        rewrite (get_row_skip _ _ _ _ _ key' t' Hx) by discriminate
    end.

Ltac strip_frame Hne :=
  repeat match goal with
    | Hx : ?x = set_row _ _ _ _ |- context [get_row ?x ?key' ?t'] =>
        rewrite (get_row_skip_frame _ _ _ _ _ key' t' Hx) by exact Hne
    end.

Ltac rows_back :=
  repeat match goal with
    | Hx : ?x = set_row _ _ _ _ |- context [rows ?x _] =>
        rewrite Hx; rewrite rows_set_row
    end.

(** ** The forecasters inside the loop *)

Section LoopForecasts.
Context {num : Type} `{Scalar num}.
Import AR1Forecaster.
Implicit Types (f : AR1Forecaster.t (num := num)) (v : list num).

Lemma window_size_add_observation f v :
  window_size (add_observation f v) = window_size f.
Proof. reflexivity. Qed.

Lemma params_set_add_observation f v :
  params_set f -> params_set (add_observation f v).
Proof. intros Hf. exact Hf. Qed.

Lemma length_history_add_observation f v :
  length (history f) <= window_size f ->
  length (history (add_observation f v)) =
  Nat.min (length (history f) + 1) (window_size f).
Proof.
  intros Hle. rewrite history_add_observation, length_app. cbn [length].
  destruct (Nat.ltb_spec (window_size f) (length (history f) + 1)).
  - rewrite length_drop, length_app. cbn [length]. lia.
  - rewrite length_app. cbn [length]. lia.
Qed.

(** With a window of at least 2, [forecast] never meets an unfitted
    forecaster: it returns. *)
Lemma forecast_ok (W n : nat) v (hist1 hist2 : list (list num)) f1 f2 :
  2 <= W ->
  length (history f1) = Nat.min (length hist1) W ->
  length (history f2) = Nat.min (length hist2) W ->
  params_set f1 -> params_set f2 ->
  exists r, forecast W n v hist1 hist2 f1 f2 = Ok r.
Proof.
  intros HW Hh1 Hh2 Hp1 Hp2. unfold forecast.
  destruct (Nat.ltb_spec (length hist1) W) as [Hlt|Hge]; [eauto|].
  destruct (predict1_fitted (fit f1) v) as [hat1 Hhat1].
  { apply params_set_fit, Hp1. }
  { rewrite is_fitted_fit.
    destruct (Nat.ltb_spec (length (history f1)) 2); [lia | reflexivity]. }
  rewrite Hhat1. cbn [mbind res_bind].
  destruct (Nat.leb_spec 2 (length hist2)) as [H2|H2].
  - destruct (predict1_fitted (fit f2) (List.last hist2 [])) as [hat2 Hhat2].
    { apply params_set_fit, Hp2. }
    { rewrite is_fitted_fit.
      destruct (Nat.ltb_spec (length (history f2)) 2); [lia | reflexivity]. }
    rewrite Hhat2. cbn. eauto.
  - cbn. eauto.
Qed.

Lemma forecast_inv (W n : nat) v (hist1 hist2 : list (list num)) f1 f2
    hat1 hat2 f1' f2' :
  forecast W n v hist1 hist2 f1 f2 = Ok (hat1, hat2, f1', f2') ->
  history f1' = history f1 /\ window_size f1' = window_size f1 /\
  history f2' = history f2 /\ window_size f2' = window_size f2 /\
  (params_set f1 -> params_set f1') /\
  (params_set f2 -> params_set f2') /\
  (length hist1 < W -> hat1 = v /\ hat2 = zeros n /\ f1' = f1 /\ f2' = f2).
Proof.
  unfold forecast.
  destruct (Nat.ltb_spec (length hist1) W) as [Hlt|Hge].
  - intros [= <- <- <- <-]. do 6 (split; [tauto|]). tauto.
  - destruct (predict1 (fit f1) v) as [h1|e]; [|discriminate].
    cbn [mbind res_bind].
    destruct (if 2 <=? length hist2 then _ else _) as [h2|e]; [|discriminate].
    intros [= <- <- <- <-].
    rewrite !history_fit, !window_size_fit.
    do 6 (split; [auto using params_set_fit|]). intros Hlt. lia.
Qed.

End LoopForecasts.

Section LoopInvariant.
Context {num : Type} `{Scalar num}.
Import AR1Forecaster.

(** Recording a difference (and, from the second period on, a second
    difference) keeps the lists and the forecasters in step. *)
Lemma ready_after_recording (W : nat) (h1 h2 : list (list num))
    (f1 f2 : AR1Forecaster.t (num := num)) (v x y : list num) :
  length h2 = length h1 - 1 ->
  window_size f1 = W -> window_size f2 = W ->
  length (history f1) = Nat.min (length h1) W ->
  length (history f2) = Nat.min (length h2) W ->
  params_set f1 -> params_set f2 ->
  let hist1 := h1 ++ [v] in
  let hist2 := if 1 <? length hist1 then h2 ++ [x] else h2 in
  let f1' := add_observation f1 v in
  let f2' := if 0 <? length hist2 then add_observation f2 y else f2 in
  length hist2 = length hist1 - 1 /\
  window_size f1' = W /\ window_size f2' = W /\
  length (history f1') = Nat.min (length hist1) W /\
  length (history f2') = Nat.min (length hist2) W /\
  params_set f1' /\ params_set f2'.
Proof.
  intros Hh HW1 HW2 Hl1 Hl2 Hp1 Hp2. cbn zeta.
  rewrite !length_app. cbn [length].
  assert (Hf1 : length (history (add_observation f1 v)) = Nat.min (length h1 + 1) W).
  { rewrite length_history_add_observation by lia. lia. }
  destruct (Nat.ltb_spec 1 (length h1 + 1)) as [Hlt|Hge].
  - rewrite length_app. cbn [length].
    destruct (Nat.ltb_spec 0 (length h2 + 1)); [|lia].
    rewrite (length_history_add_observation f2 y) by lia.
    rewrite !window_size_add_observation.
    split; [lia|]. split; [exact HW1|]. split; [exact HW2|].
    split; [lia|]. split; [lia|]. split; [exact Hp1 | exact Hp2].
  - destruct (Nat.ltb_spec 0 (length h2)); [lia|].
    rewrite !window_size_add_observation.
    split; [lia|]. split; [exact HW1|]. split; [exact HW2|].
    split; [lia|]. split; [lia|]. split; [exact Hp1 | exact Hp2].
Qed.

Lemma forecasters_ready_init (cfg : config num) (d : data num)
    (entropy g : rng num) (s0 : sim num) (g0 : rng num) :
  initialize_simulation cfg d entropy g = Ok (s0, g0) ->
  forecasters_ready s0 /\ sim_W s0 = cfg_W cfg /\
  sim_T s0 = cfg_T_plan cfg + cfg_W cfg /\ 2 <= sim_T s0.
Proof.
  intros Hinit. run_init Hinit. injection Hinit as <- _.
  unfold forecasters_ready.
  cbn [sim_Delta_C_p_hist sim_Delta2_C_p_hist sim_Delta_C_p_forecaster
       sim_Delta2_C_p_forecaster sim_W sim_T length
       init window_size history is_fitted].
  match goal with E : (_ <? 2) = false |- _ => apply Nat.ltb_ge in E; rename E into HT end.
  subst T T_plan W.
  assert (Hp : params_set (init (num := num) (cfg_W cfg))) by (intros Hf; discriminate Hf).
  split; [|split; [reflexivity | split; [reflexivity | exact HT]]].
  do 5 (split; [reflexivity|]). split; exact Hp.
Qed.

Lemma require_inv (c : bool) (e : error) (r : unit) : require c e = Ok r -> c = true.
Proof. destruct c; [reflexivity | discriminate]. Qed.

Lemma require_err (c : bool) (e e' : error) :
  require c e = Err e' -> e' = e /\ c = false.
Proof. destruct c; [discriminate|]. intros [= <-]. split; reflexivity. Qed.

Lemma has_rows_ok (st : gmap string (list (list num))) keys t :
  (forall key, In key keys -> t < rows st key) -> has_rows st keys t = true.
Proof.
  intros Hk. apply forallb_forall. intros key Hin. apply Nat.ltb_lt, Hk, Hin.
Qed.

Lemma has_rows_inv (st : gmap string (list (list num))) keys t :
  has_rows st keys t = true -> forall key, In key keys -> t < rows st key.
Proof.
  intros Hk key Hin. apply Nat.ltb_lt.
  exact (proj1 (forallb_forall _ _) Hk key Hin).
Qed.

Lemma update_alpha_err (g : rng num) (alpha_prev shock_prev : list num)
    (sigma persist : num) (mu : list num) (e : error) :
  update_alpha g alpha_prev shock_prev sigma persist mu = Err e ->
  e = ValueError_scale /\ snegb sigma = true.
Proof.
  unfold update_alpha, np_random_normal, draw.
  destruct (snegb sigma); [|discriminate].
  intros [= <-]. split; reflexivity.
Qed.

Lemma update_alpha_total (g : rng num) (alpha_prev shock_prev : list num)
    (sigma persist : num) (mu : list num) :
  snegb sigma = false ->
  exists r, update_alpha g alpha_prev shock_prev sigma persist mu = Ok r.
Proof.
  intros Hs. unfold update_alpha, np_random_normal, draw. rewrite Hs. cbn. eauto.
Qed.

(** A period that returns keeps the lists and the forecasters in step. *)
Lemma step_keeps_ready (cfg : config num) (t : nat) (s : sim num) (g : rng num)
    (s' : sim num) (g' : rng num) (l : locals num) :
  step cfg t s g = Ok (s', g', l) ->
  forecasters_ready s ->
  forecasters_ready s' /\ sim_W s' = sim_W s /\ sim_T s' = sim_T s.
Proof.
  intros Hstep (Hh & HW1 & HW2 & Hl1 & Hl2 & Hp1 & Hp2).
  run_step Hstep. injection Hstep as <- <- <-.
  unfold forecasters_ready. cbn [sim_Delta_C_p_hist sim_Delta2_C_p_hist
    sim_Delta_C_p_forecaster sim_Delta2_C_p_forecaster sim_W sim_T].
  destruct (ready_after_recording (sim_W s) (sim_Delta_C_p_hist s)
              (sim_Delta2_C_p_hist s) (sim_Delta_C_p_forecaster s)
              (sim_Delta2_C_p_forecaster s) Delta_C_p_last
              (vsub (List.last hist1 []) (nth (length hist1 - 2) hist1 []))
              (List.last hist2 []) Hh HW1 HW2 Hl1 Hl2 Hp1 Hp2)
    as (Rh & RW1 & RW2 & Rl1 & Rl2 & Rp1 & Rp2).
  cbn zeta in *. rewrite <- Def_hist1, <- Def_hist2, <- Def_f1, <- Def_f2 in *.
  match goal with
  | E : forecast _ _ _ _ _ _ _ = Ok _ |- _ =>
      apply forecast_inv in E as (I1 & I2 & I3 & I4 & I5 & I6 & _)
  end.
  rewrite I1, I2, I3, I4.
  split; [|split; reflexivity].
  split; [exact Rh|]. split; [exact RW1|]. split; [exact RW2|].
  split; [exact Rl1|]. split; [exact Rl2|]. split; auto.
Qed.

(** The errors a period can raise when the window is at least 2: an array
    without the row, or the volatility that [np.random.normal] rejects. *)
Lemma step_err_cases (cfg : config num) (t : nat) (s : sim num) (g : rng num)
    (e : error) :
  step cfg t s g = Err e ->
  forecasters_ready s -> 2 <= sim_W s ->
  (e = IndexError /\
   (has_rows (sim_states s) ["X"; "I"]%string (t - 1) &&
    has_rows (sim_states s) ["K"; "K_u"; "C_p"; "G"]%string t &&
    has_rows (sim_states s)
      ["I"; "F"; "X"; "C_0"; "ED"; "C"; "AD"; "X_max"; "F_c"]%string t) = false) \/
  (e = ValueError_scale /\ snegb (cfg_shock_sigma cfg) = true).
Proof.
  intros Hstep (Hh & HW1 & HW2 & Hl1 & Hl2 & Hp1 & Hp2) HW.
  cbv beta delta [step] in Hstep. name_let Hstep.
  cbv beta delta [mbind res_bind] in Hstep.
  destruct (require _ _) as [r1|e1] eqn:E1 in Hstep.
  2:{ injection Hstep as <-. apply require_err in E1 as [-> Hc].
      left. split; [reflexivity|]. rewrite Def_states in Hc. rewrite Hc. reflexivity. }
  apply require_inv in E1.
  repeat name_let Hstep.
  destruct (update_alpha _ _ _ _ _ _) as [[[alpha alpha_shock] g1]|e2] eqn:E2 in Hstep.
  2:{ injection Hstep as <-. apply update_alpha_err in E2 as [-> Hs].
      right. split; [reflexivity|]. rewrite Def_shock_sigma in Hs. exact Hs. }
  repeat name_let Hstep.
  destruct (ready_after_recording (sim_W s) (sim_Delta_C_p_hist s)
              (sim_Delta2_C_p_hist s) (sim_Delta_C_p_forecaster s)
              (sim_Delta2_C_p_forecaster s) Delta_C_p_last
              (vsub (List.last hist1 []) (nth (length hist1 - 2) hist1 []))
              (List.last hist2 []) Hh HW1 HW2 Hl1 Hl2 Hp1 Hp2)
    as (Rh & RW1 & RW2 & Rl1 & Rl2 & Rp1 & Rp2).
  cbn zeta in *. rewrite <- Def_hist1, <- Def_hist2, <- Def_f1, <- Def_f2 in *.
  subst W.
  destruct (forecast_ok (sim_W s) n Delta_C_p_last hist1 hist2 f1 f2 HW Rl1 Rl2 Rp1 Rp2)
    as [[[[hat1 hat2] f1'] f2'] Hr].
  rewrite Hr in Hstep.
  destruct (require _ _) as [r3|e3] eqn:E3 in Hstep.
  2:{ injection Hstep as <-. apply require_err in E3 as [-> Hc].
      left. split; [reflexivity|]. rewrite Hc. apply andb_false_r. }
  repeat name_let Hstep. discriminate Hstep.
Qed.

(** With a window of at least 2 no period meets the "not fitted" error. *)
Lemma step_never_unfitted (cfg : config num) (t : nat) (s : sim num) (g : rng num) :
  forecasters_ready s -> 2 <= sim_W s ->
  step cfg t s g <> Err ValueError_not_fitted.
Proof.
  intros Hr HW Hstep.
  destruct (step_err_cases cfg t s g _ Hstep Hr HW) as [[He _]|[He _]]; discriminate He.
Qed.

(** With a window of at least 2, the rows of the period in every state
    array and a volatility that is not negative, the loop body returns. *)
Lemma step_ok (cfg : config num) (t : nat) (s : sim num) (g : rng num) :
  forecasters_ready s -> 2 <= sim_W s ->
  (forall key, In key state_keys -> t < rows (sim_states s) key) ->
  snegb (cfg_shock_sigma cfg) = false ->
  exists s' g' l,
    step cfg t s g = Ok (s', g', l) /\
    forecasters_ready s' /\ sim_W s' = sim_W s /\ sim_T s' = sim_T s.
Proof.
  intros Hr HW Hrows Hs.
  destruct (step cfg t s g) as [[[s' g'] l]|e] eqn:Hstep.
  - exists s', g', l. split; [reflexivity|].
    apply (step_keeps_ready _ _ _ _ _ _ _ Hstep Hr).
  - exfalso.
    destruct (step_err_cases cfg t s g e Hstep Hr HW) as [[_ Hc]|[_ Hc]];
      [|congruence].
    rewrite !has_rows_ok in Hc; [discriminate Hc|..];
      intros key Hin;
      (assert (Hlt : t < rows (sim_states s) key)
         by (apply Hrows; cbn in Hin |- *; tauto)); lia.
Qed.

Lemma run_loop_never_unfitted (cfg : config num) (ts : list nat) :
  forall (s : sim num) (g : rng num),
    forecasters_ready s -> 2 <= sim_W s ->
    run_loop cfg ts s g <> Err ValueError_not_fitted.
Proof.
  induction ts as [|t ts IH]; intros s g Hr HW; [discriminate|].
  cbn [run_loop].
  destruct (step cfg t s g) as [[[s1 g1] l]|e] eqn:Hstep.
  - cbn. destruct (step_keeps_ready _ _ _ _ _ _ _ Hstep Hr) as (Hr1 & HW1 & _).
    apply IH; [exact Hr1 | lia].
  - cbn. intros [= ->]. exact (step_never_unfitted cfg t s g Hr HW Hstep).
Qed.

Lemma run_loop_keeps_ready (cfg : config num) (ts : list nat) :
  forall (s : sim num) (g : rng num) (s' : sim num) (g' : rng num),
    run_loop cfg ts s g = Ok (s', g') ->
    forecasters_ready s ->
    forecasters_ready s' /\ sim_W s' = sim_W s /\ sim_T s' = sim_T s.
Proof.
  induction ts as [|t ts IH]; intros s g s' g' Hrun Hr.
  - injection Hrun as <- _. auto.
  - cbn [run_loop] in Hrun.
    destruct (step cfg t s g) as [[[s1 g1] l]|e] eqn:Hstep; [|discriminate Hrun].
    cbn in Hrun.
    destruct (step_keeps_ready _ _ _ _ _ _ _ Hstep Hr) as (Hr1 & HW1 & HT1).
    destruct (IH s1 g1 s' g' Hrun Hr1) as (Hr' & HW' & HT').
    split; [exact Hr'|]. split; congruence.
Qed.

Lemma initialize_simulation_err (cfg : config num) (d : data num)
    (entropy g : rng num) (e : error) :
  initialize_simulation cfg d entropy g = Err e ->
  e = LinAlgError_singular \/ e = IndexError.
Proof.
  intros Hinit. cbv beta delta [initialize_simulation] in Hinit.
  repeat first [name_let Hinit | split_let Hinit].
  cbv beta delta [mbind res_bind] in Hinit.
  destruct (create_capital_intensity_matrix _ _) as [[[B B_inv] g2]|e1] eqn:E1 in Hinit.
  2:{ injection Hinit as <-. left.
      unfold create_capital_intensity_matrix in E1.
      repeat match type of E1 with
             | (let '(_, _) := ?x in _) = _ => destruct x
             end.
      destruct (existsb _ _); [|discriminate E1]. injection E1 as <-. reflexivity. }
  repeat name_let Hinit.
  destruct (T <? 2); [injection Hinit as <-; right; reflexivity|].
  repeat name_let Hinit. discriminate Hinit.
Qed.

Lemma simulate_never_unfitted (cfg : config num) (d : data num) (entropy g : rng num) :
  2 <= cfg_W cfg ->
  simulate cfg d entropy g <> Err ValueError_not_fitted.
Proof.
  intros HW. unfold simulate.
  destruct (initialize_simulation cfg d entropy g) as [[s0 g0]|e] eqn:Hinit.
  - cbn [mbind res_bind]. unfold run_simulation.
    destruct (forecasters_ready_init cfg d entropy g s0 g0 Hinit) as (Hr & HW0 & _).
    apply run_loop_never_unfitted; [exact Hr | lia].
  - cbn. intros [= ->].
    destruct (initialize_simulation_err _ _ _ _ _ Hinit) as [He|He]; discriminate He.
Qed.

Lemma initialize_simulation_ok (cfg : config num) (d : data num) (entropy g : rng num) :
  2 <= cfg_T_plan cfg + cfg_W cfg ->
  (exists r, create_capital_intensity_matrix cfg (create_delta_matrix cfg entropy).2
             = Ok r) ->
  exists s0 g0, initialize_simulation cfg d entropy g = Ok (s0, g0).
Proof.
  intros HT [r Hr].
  destruct (initialize_simulation cfg d entropy g) as [[s0 g0]|e] eqn:Hinit; [eauto|].
  exfalso. cbv beta delta [initialize_simulation] in Hinit.
  repeat first [name_let Hinit | split_let Hinit].
  subst T T_plan W. subst g0.
  match goal with
  | E : create_delta_matrix _ _ = _ |- _ =>
      unfold np_random_seed_None in E; rewrite E in Hr; cbn [snd] in Hr
  end.
  rewrite Hr in Hinit. cbv beta delta [mbind res_bind] in Hinit.
  destruct r as [[B B_inv] g2].
  repeat name_let Hinit.
  destruct (Nat.ltb_spec (cfg_T_plan cfg + cfg_W cfg) 2); [lia|].
  repeat name_let Hinit. discriminate Hinit.
Qed.

End LoopInvariant.

(** ** What a period writes *)

Section Frame.
Context {num : Type} `{Scalar num}.
Implicit Types (st : gmap string (list (list num))).

Lemma length_neumann_loop (A : list (list num)) (i : nat) :
  forall x term : list num,
    length x = length A -> length (neumann_loop A i x term) = length A.
Proof.
  induction i as [|i IH]; intros x term Hx; [exact Hx|].
  cbn [neumann_loop]. apply IH.
  unfold vadd, matvec. rewrite length_zip_with, length_map. lia.
Qed.

Lemma length_neumann (A : list (list num)) (v : list num) (k : nat) :
  length A = length v -> length (neumann A v k) = length v.
Proof.
  intros HA. unfold neumann. rewrite length_neumann_loop; congruence.
Qed.

Lemma length_transpose (A : list (list num)) (n : nat) :
  is_matrix n n A -> length (transpose A) = n.
Proof.
  intros [Hlen Hrows]. unfold transpose. rewrite length_map, length_seq.
  destruct A as [|r A]; [exact Hlen|].
  cbn. inversion Hrows; assumption.
Qed.

(** A period [t] leaves every row but row [t] of every state array as it
    was, and keeps the number of rows. *)
Lemma step_frame (cfg : config num) (t : nat) (s : sim num) (g : rng num)
    (s' : sim num) (g' : rng num) (l : locals num) :
  step cfg t s g = Ok (s', g', l) ->
  (forall key t', t <> t' ->
      get_row (sim_states s') key t' = get_row (sim_states s) key t') /\
  (forall key, rows (sim_states s') key = rows (sim_states s) key).
Proof.
  intros Hstep. run_step Hstep. injection Hstep as <- <- <-.
  cbn [sim_states]. subst states. split.
  - intros key t' Hne.
    repeat match goal with
      | Hx : ?x = set_row _ _ _ _ |- context [get_row ?x _ _] =>
          rewrite Hx; rewrite get_set_row_frame by exact Hne
      end.
    reflexivity.
  - intros key.
    repeat match goal with
      | Hx : ?x = set_row _ _ _ _ |- context [rows ?x _] =>
          rewrite Hx; rewrite rows_set_row
      end.
    reflexivity.
Qed.

Lemma run_loop_frame (cfg : config num) (ts : list nat) :
  forall (s : sim num) (g : rng num) (s' : sim num) (g' : rng num),
    run_loop cfg ts s g = Ok (s', g') ->
    forall key t', t' ∉ ts ->
      get_row (sim_states s') key t' = get_row (sim_states s) key t'.
Proof.
  induction ts as [|t ts IH]; intros s g s' g' Hrun key t' Hnin.
  - injection Hrun as <- _. reflexivity.
  - cbn [run_loop] in Hrun.
    destruct (step cfg t s g) as [[[s1 g1] l]|e] eqn:Hstep; [|discriminate Hrun].
    cbn in Hrun. apply not_elem_of_cons in Hnin as [Hne Hnin].
    rewrite (IH _ _ _ _ Hrun key t' Hnin).
    apply (step_frame _ _ _ _ _ _ _ Hstep). congruence.
Qed.

End Frame.

(** ** The state after the initialisation *)

Section InitialState.
Context {num : Type} `{Scalar num}.

Ltac strip_set :=
  repeat match goal with
    | Hx : ?x = set_row _ _ _ _ |- context [get_row ?x _ _] =>
        rewrite Hx; rewrite !get_set_row_ne by discriminate
    end.

Ltac strip_len :=
  repeat match goal with
    | Hx : ?x = set_row _ _ _ _ |- context [rows ?x _] =>
        rewrite Hx; rewrite rows_set_row
    end.

Ltac key_in := apply list_elem_of_In; cbn; tauto.

Lemma initialize_simulation_facts (cfg : config num) (d : data num)
    (entropy g : rng num) (si : sim num) (g0 : rng num) :
  initialize_simulation cfg d entropy g = Ok (si, g0) ->
  sim_Delta_P_last si = Num s0 /\
  sim_epsilon_measured si = vneg (ones (cfg_n cfg)) /\
  sim_epsilon si = vneg (ones (cfg_n cfg)) /\
  sim_P0 si = neumann (transpose (data_A d)) (data_va_per_unit d) (cfg_k cfg) /\
  sim_alpha si = vdivs (data_C_household d) (vsum (data_C_household d)) /\
  sim_n si = cfg_n cfg /\
  (forall key, key ∈ state_keys ->
      rows (sim_states si) key = cfg_T_plan cfg + cfg_W cfg) /\
  get_row (sim_states si) "C_0" 0 = vdiv (data_C_household d) (sim_P0 si) /\
  get_row (sim_states si) "C_p" 0 = vdiv (data_C_household d) (sim_P0 si).
Proof.
  intros Hinit. run_init Hinit. injection Hinit as <- _.
  cbn [sim_Delta_P_last sim_epsilon_measured sim_epsilon sim_P0 sim_alpha
       sim_n sim_states].
  match goal with E : (_ <? 2) = false |- _ => apply Nat.ltb_ge in E; rename E into HT end.
  assert (Hrows : forall key, key ∈ state_keys -> rows states key = T).
  { intros key Hkey. rewrite Def_states. apply rows_initialize_state_arrays, Hkey. }
  assert (HC0 : get_row states0 "C_0" 0 = vdiv (data_C_household d) P0).
  { rewrite Def_states0. apply get_set_row_eq. rewrite Hrows; [lia|].
    key_in. }
  assert (HC : get_row states1 "C" 0 = vdiv (data_C_household d) P0).
  { rewrite Def_states1, get_set_row_eq; [exact HC0|].
    rewrite Def_states0, rows_set_row, Hrows; [lia|].
    key_in. }
  assert (HCp : get_row states2 "C_p" 0 = vdiv (data_C_household d) P0).
  { rewrite Def_states2, get_set_row_eq; [exact HC|].
    rewrite Def_states1, rows_set_row, Def_states0, rows_set_row, Hrows; [lia|].
    key_in. }
  split; [reflexivity|].
  split; [subst epsilon_measured epsilon n; reflexivity|].
  split; [subst epsilon n; reflexivity|].
  split; [subst P0 P0_real A wL k; reflexivity|].
  split; [exact Def_alpha|]. split; [exact Def_n|].
  split; [|split].
  - intros key Hkey. strip_len. subst T T_plan W. apply Hrows, Hkey.
  - strip_set. exact HC0.
  - strip_set. exact HCp.
Qed.

End InitialState.

(** ** Runs that return *)

Section RunsReturn.
Context {num : Type} `{Scalar num}.

Lemma initialize_simulation_rows (cfg : config num) (d : data num)
    (entropy g : rng num) (s0 : sim num) (g0 : rng num) :
  initialize_simulation cfg d entropy g = Ok (s0, g0) ->
  forall key, In key state_keys ->
    rows (sim_states s0) key = cfg_T_plan cfg + cfg_W cfg.
Proof.
  intros Hinit key Hk.
  destruct (initialize_simulation_facts _ _ _ _ _ _ Hinit)
    as (_ & _ & _ & _ & _ & _ & Hrows & _).
  apply Hrows, list_elem_of_In, Hk.
Qed.

Lemma run_loop_ok (cfg : config num) (len : nat) :
  forall (a : nat) (s : sim num) (g : rng num),
    forecasters_ready s -> 2 <= sim_W s ->
    snegb (cfg_shock_sigma cfg) = false ->
    (forall key, In key state_keys -> a + len <= rows (sim_states s) key) ->
    exists s' g', run_loop cfg (seq a len) s g = Ok (s', g') /\
                  forecasters_ready s' /\ sim_W s' = sim_W s /\ sim_T s' = sim_T s.
Proof.
  induction len as [|len IH]; intros a s g Hr HW Hs Hrows.
  - exists s, g. auto.
  - destruct (step_ok cfg a s g Hr HW) as (s1 & g1 & l & Hstep & Hr1 & HW1 & HT1).
    { intros key Hk. specialize (Hrows key Hk). lia. }
    { exact Hs. }
    destruct (IH (S a) s1 g1 Hr1 ltac:(lia) Hs) as (s' & g' & Hrun & Hr' & HW' & HT').
    { intros key Hk. destruct (step_frame _ _ _ _ _ _ _ Hstep) as [_ Hrw].
      rewrite Hrw. specialize (Hrows key Hk). lia. }
    exists s', g'. cbn [seq run_loop]. rewrite Hstep. cbn.
    split; [exact Hrun|]. split; [exact Hr'|]. split; congruence.
Qed.

(** With a window of at least 2, a volatility that is not negative and a
    capital-intensity matrix that has an inverse, initialisation and loop
    run to the end. *)
Lemma simulate_ok (cfg : config num) (d : data num) (entropy g : rng num) :
  2 <= cfg_W cfg ->
  snegb (cfg_shock_sigma cfg) = false ->
  (exists r, create_capital_intensity_matrix cfg (create_delta_matrix cfg entropy).2
             = Ok r) ->
  exists s g', simulate cfg d entropy g = Ok (s, g').
Proof.
  intros HW Hs HB.
  destruct (initialize_simulation_ok cfg d entropy g ltac:(lia) HB) as (s0 & g0 & Hinit).
  destruct (forecasters_ready_init cfg d entropy g s0 g0 Hinit) as (Hr & HW0 & HT0 & HT2).
  destruct (run_loop_ok cfg (sim_T s0 - 1) 1 s0 g0 Hr ltac:(lia) Hs)
    as (s & g' & Hrun & _).
  { intros key Hk. rewrite (initialize_simulation_rows _ _ _ _ _ _ Hinit key Hk). lia. }
  exists s, g'. unfold simulate. rewrite Hinit. cbn. exact Hrun.
Qed.

Lemma first_step_ok (cfg : config num) (d : data num) (entropy g : rng num) :
  2 <= cfg_W cfg ->
  snegb (cfg_shock_sigma cfg) = false ->
  (exists r, create_capital_intensity_matrix cfg (create_delta_matrix cfg entropy).2
             = Ok r) ->
  exists s0 g1 s1 g2 l,
    initialize_simulation cfg d entropy g = Ok (s0, g1) /\
    step cfg 1 s0 g1 = Ok (s1, g2, l).
Proof.
  intros HW Hs HB.
  destruct (initialize_simulation_ok cfg d entropy g ltac:(lia) HB) as (s0 & g0 & Hinit).
  destruct (forecasters_ready_init cfg d entropy g s0 g0 Hinit) as (Hr & HW0 & HT0 & HT2).
  destruct (step_ok cfg 1 s0 g0 Hr ltac:(lia)) as (s1 & g1 & l & Hstep & _).
  { intros key Hk. rewrite (initialize_simulation_rows _ _ _ _ _ _ Hinit key Hk). lia. }
  { exact Hs. }
  exists s0, g0, s1, g1, l. split; assumption.
Qed.

End RunsReturn.

(** The small economy runs to its end, whatever the generator delivers. *)
Lemma example_capital_intensity (g : rng R) :
  exists r, create_capital_intensity_matrix example_config g = Ok r.
Proof.
  unfold create_capital_intensity_matrix, np_random_uniform, draw. cbn.
  destruct (Req_EM_T _ 0) as [Hz|_]; [exfalso; lra | eauto].
Qed.

Lemma example_sigma : snegb (cfg_shock_sigma example_config) = false.
Proof. apply snegb_false. simpl. lra. Qed.

Lemma example_simulate_ok (entropy g : rng R) :
  exists s g', simulate example_config example_data entropy g = Ok (s, g').
Proof.
  apply simulate_ok; [simpl; lia | exact example_sigma | apply example_capital_intensity].
Qed.

Lemma example_run_ok (entropy g : rng R) :
  exists s0 g1 s' g',
    initialize_simulation example_config example_data entropy g = Ok (s0, g1) /\
    run_simulation example_config s0 g1 = Ok (s', g').
Proof.
  destruct (example_simulate_ok entropy g) as (s' & g' & Hsim).
  unfold simulate in Hsim.
  destruct (initialize_simulation example_config example_data entropy g)
    as [[s0 g1]|e]; [|discriminate Hsim].
  exists s0, g1, s', g'. split; [reflexivity | exact Hsim].
Qed.

Lemma example_first_step_ok (entropy g : rng R) :
  exists s0 g1 s1 g2 l,
    initialize_simulation example_config example_data entropy g = Ok (s0, g1) /\
    step example_config 1 s0 g1 = Ok (s1, g2, l).
Proof.
  apply first_step_ok; [simpl; lia | exact example_sigma | apply example_capital_intensity].
Qed.

(** ** Public debt *)

(** C2. [Debt] is 0 after the initialisation.  A period [t >= 1] that
    returns has assigned row [t] of [G] and of [I], which the arrays hold:
    [G[t] = (1 + g) G[t-1]] and
    [I[t] = Delta K[t] + (Delta_K_e + Delta_K_u)]; it has computed
    [Taxes = (1 - tau) * P0 . (I[t] + G[t])] and added to [Debt] exactly
    [P0 . (G[t] + I[t]) - Taxes], which is [tau * P0 . (G[t] + I[t])]. *)
Theorem debt_increment
    (cfg : config R) (d : data R) (entropy g0 : rng R) (s0 : sim R) (g1 : rng R)
    (t : nat) (s : sim R) (g : rng R) (s' : sim R) (g' : rng R) (l : locals R) :
  initialize_simulation cfg d entropy g0 = Ok (s0, g1) ->
  1 <= t ->
  step cfg t s g = Ok (s', g', l) ->
  let G_t := get_row (sim_states s') "G" t in
  let I_t := get_row (sim_states s') "I" t in
  sim_Debt s0 = 0%R /\
  (t < rows (sim_states s') "G" /\ t < rows (sim_states s') "I") /\
  G_t = vscale (1 + sim_g s)%R (get_row (sim_states s) "G" (t - 1)) /\
  I_t = vadd (matvec (sim_Delta s) (get_row (sim_states s') "K" t))
             (vadd (l_Delta_K_e l) (l_Delta_K_u l)) /\
  l_Taxes l = ((1 - cfg_tau cfg) * dot (sim_P0 s) (vadd I_t G_t))%R /\
  sim_Debt s' = (sim_Debt s + (dot (sim_P0 s) (vadd G_t I_t) - l_Taxes l))%R /\
  (sim_Debt s' - sim_Debt s = cfg_tau cfg * dot (sim_P0 s) (vadd G_t I_t))%R.
Proof.
  intros Hinit Ht Hstep. cbn zeta.
  assert (H0 : sim_Debt s0 = 0%R).
  { run_init Hinit. injection Hinit as <- _. reflexivity. }
  run_step Hstep. injection Hstep as <- <- <-.
  cbn [sim_Debt l_Taxes sim_states l_Delta_K_e l_Delta_K_u].
  match goal with
  | E : require (_ && _) _ = Ok _ |- _ =>
      apply require_inv, andb_true_iff in E as [_ HG1]
  end.
  match goal with
  | E : require (has_rows _ _ _) _ = Ok _ |- _ =>
      apply require_inv in E; rewrite <- Def_states in E; rename E into HG2
  end.
  assert (HrG : t < rows states "G") by (apply (has_rows_inv _ _ _ HG1); cbn; tauto).
  assert (HrI : t < rows states "I") by (apply (has_rows_inv _ _ _ HG2); cbn; tauto).
  assert (HG : get_row states12 "G" t =
               vscale (1 + sim_g s)%R (get_row (sim_states s) "G" (t - 1))).
  { strip_to_written.
    rewrite (read_written _ _ _ _ _ Def_states3) by (rows_back; exact HrG).
    strip_to_written. rewrite Def_g_m, Def_states. reflexivity. }
  assert (HI : get_row states12 "I" t =
               vadd (matvec (sim_Delta s) (get_row states12 "K" t))
                    (vadd Delta_K_e Delta_K_u)).
  { strip_to_written.
    rewrite (read_written _ _ _ _ _ Def_states4) by (rows_back; exact HrI).
    rewrite Def_Delta. strip_to_written. reflexivity. }
  assert (HT : Taxes =
               ((1 - cfg_tau cfg) *
                dot (sim_P0 s) (vadd (get_row states12 "I" t) (get_row states12 "G" t)))%R).
  { rewrite Def_Taxes, dot_vscale_l, Def_tau, Def_P0. strip_to_written. reflexivity. }
  split; [exact H0|]. split.
  { split; rows_back; assumption. }
  split; [exact HG|]. split; [exact HI|]. split; [exact HT|].
  assert (HD : Debt = (sim_Debt s +
                  (dot (sim_P0 s) (vadd (get_row states12 "G" t) (get_row states12 "I" t))
                   - Taxes))%R).
  { rewrite Def_Debt, Def_P0. reflexivity. }
  split; [exact HD|].
  rewrite HD at 1. rewrite HT.
  rewrite (vadd_comm (get_row states12 "I" t) (get_row states12 "G" t)).
  ring.
Qed.

Lemma debt_increment_witness :
  exists s0 g1 s' g' l,
    initialize_simulation example_config example_data all_zero all_one = Ok (s0, g1) /\
    1 <= 1 /\
    step example_config 1 s0 g1 = Ok (s', g', l) /\
    sim_Debt s0 = 0%R /\
    (1 < rows (sim_states s') "G" /\ 1 < rows (sim_states s') "I") /\
    get_row (sim_states s') "G" 1 =
      vscale (1 + sim_g s0)%R (get_row (sim_states s0) "G" (1 - 1)) /\
    get_row (sim_states s') "I" 1 =
      vadd (matvec (sim_Delta s0) (get_row (sim_states s') "K" 1))
           (vadd (l_Delta_K_e l) (l_Delta_K_u l)) /\
    l_Taxes l = ((1 - cfg_tau example_config) *
                 dot (sim_P0 s0) (vadd (get_row (sim_states s') "I" 1%nat)
                                       (get_row (sim_states s') "G" 1%nat)))%R /\
    sim_Debt s' = (sim_Debt s0 +
                   (dot (sim_P0 s0) (vadd (get_row (sim_states s') "G" 1%nat)
                                          (get_row (sim_states s') "I" 1%nat))
                    - l_Taxes l))%R /\
    (sim_Debt s' - sim_Debt s0 =
     cfg_tau example_config *
     dot (sim_P0 s0) (vadd (get_row (sim_states s') "G" 1%nat)
                           (get_row (sim_states s') "I" 1%nat)))%R.
Proof.
  destruct (example_first_step_ok all_zero all_one)
    as (s0 & g1 & s' & g' & l & Hinit & Hstep).
  exists s0, g1, s', g', l.
  split; [exact Hinit|]. split; [lia|]. split; [exact Hstep|].
  exact (debt_increment example_config example_data all_zero all_one s0 g1
           1 s0 g1 s' g' l Hinit ltac:(lia) Hstep).
Defined.

(** C6. With a window [W >= 2] no run of initialisation and loop ends in
    the "not fitted" error of [predict]: a run returns, or raises some other
    error.  After any number of periods the two lists of differences and
    the two forecasters are in step ([forecasters_ready]), so that a
    forecaster consulted once [W] differences are recorded holds at least 2
    entries.  While fewer than [W] differences are recorded the forecast is
    the naive one, the last difference and a zero second difference, and
    the forecasters are not consulted. *)
Theorem predict_never_meets_unfitted {num : Type} `{Scalar num}
    (cfg : config num) (d : data num) (entropy g : rng num) :
  2 <= cfg_W cfg ->
  simulate cfg d entropy g <> Err ValueError_not_fitted /\
  (forall s0 g0 ts,
      initialize_simulation cfg d entropy g = Ok (s0, g0) ->
      run_loop cfg ts s0 g0 <> Err ValueError_not_fitted /\
      forall s g', run_loop cfg ts s0 g0 = Ok (s, g') -> forecasters_ready s) /\
  (forall n v hist1 hist2 f1 f2,
      length hist1 < cfg_W cfg ->
      forecast (cfg_W cfg) n v hist1 hist2 f1 f2 = Ok (v, zeros n, f1, f2)).
Proof.
  intros HW.
  split; [apply simulate_never_unfitted, HW|]. split.
  - intros s0 g0 ts Hinit.
    destruct (forecasters_ready_init cfg d entropy g s0 g0 Hinit) as (Hr & HW0 & _).
    split.
    + apply run_loop_never_unfitted; [exact Hr | lia].
    + intros s g' Hrun. apply (run_loop_keeps_ready cfg ts s0 g0 s g' Hrun Hr).
  - intros n v hist1 hist2 f1 f2 Hlt. unfold forecast.
    destruct (Nat.ltb_spec (length hist1) (cfg_W cfg)); [reflexivity | lia].
Qed.

Lemma predict_never_meets_unfitted_witness :
  simulate example_config example_data all_zero all_one <> Err ValueError_not_fitted /\
  (forall s0 g0 ts,
      initialize_simulation example_config example_data all_zero all_one = Ok (s0, g0) ->
      run_loop example_config ts s0 g0 <> Err ValueError_not_fitted /\
      forall s g', run_loop example_config ts s0 g0 = Ok (s, g') -> forecasters_ready s) /\
  (forall n v hist1 hist2 f1 f2,
      length hist1 < cfg_W example_config ->
      forecast (cfg_W example_config) n v hist1 hist2 f1 f2 = Ok (v, zeros n, f1, f2)).
Proof.
  apply (predict_never_meets_unfitted example_config example_data all_zero all_one).
  simpl. lia.
Defined.

(** ** Rationing *)

Lemma rationing_clamp (Delta_K_e K_u : list R) :
  vadd K_u (vneg (vmin Delta_K_e K_u)) =
  zip_with (fun ku dke => Rmax (ku - dke) 0) K_u Delta_K_e /\
  Forall (fun x => (0 <= x)%R) (vadd K_u (vneg (vmin Delta_K_e K_u))).
Proof.
  revert Delta_K_e. induction K_u as [|ku K_u IH]; intros [|dke Delta_K_e];
    try (split; [reflexivity | constructor]).
  destruct (IH Delta_K_e) as [IHeq IHnn].
  assert (Hhead : (ku + - Rmin dke ku = Rmax (ku - dke) 0)%R).
  { unfold Rmin, Rmax.
    destruct (Rle_dec dke ku), (Rle_dec (ku - dke) 0); lra. }
  split.
  - cbn. cbn in IHeq. rewrite Hhead. f_equal. exact IHeq.
  - constructor; [|exact IHnn].
    cbn. rewrite Hhead. apply Rmax_r.
Qed.

(** C4. In every period the rationing term is
    [Delta_K_u = -min(Delta_K_e, K_u[t])] elementwise, so that
    [K_u[t] + Delta_K_u = max(K_u[t] - Delta_K_e, 0)], which has no negative
    component; the same holds of any two real vectors put in their place. *)
Theorem rationing_never_negative
    (cfg : config R) (t : nat) (s : sim R) (g : rng R)
    (s' : sim R) (g' : rng R) (l : locals R) :
  step cfg t s g = Ok (s', g', l) ->
  let K_u_t := get_row (sim_states s') "K_u" t in
  l_Delta_K_u l = vneg (vmin (l_Delta_K_e l) K_u_t) /\
  vadd K_u_t (l_Delta_K_u l) =
    zip_with (fun ku dke => Rmax (ku - dke) 0) K_u_t (l_Delta_K_e l) /\
  Forall (fun x => (0 <= x)%R) (vadd K_u_t (l_Delta_K_u l)) /\
  (forall Delta_K_e K_u : list R,
      vadd K_u (vneg (vmin Delta_K_e K_u)) =
        zip_with (fun ku dke => Rmax (ku - dke) 0) K_u Delta_K_e /\
      Forall (fun x => (0 <= x)%R) (vadd K_u (vneg (vmin Delta_K_e K_u)))).
Proof.
  intros Hstep. cbn zeta.
  run_step Hstep. injection Hstep as <- <- <-.
  cbn [l_Delta_K_u l_Delta_K_e sim_states].
  assert (HK : get_row states12 "K_u" t = get_row states3 "K_u" t).
  { strip_rows. reflexivity. }
  rewrite HK, Def_Delta_K_u.
  destruct (rationing_clamp Delta_K_e (get_row states3 "K_u" t)) as [Heq Hnn].
  split; [reflexivity|]. split; [exact Heq|]. split; [exact Hnn|].
  exact rationing_clamp.
Qed.

Lemma rationing_never_negative_witness :
  exists s0 g1 s' g' l,
    initialize_simulation example_config example_data all_zero all_one = Ok (s0, g1) /\
    step example_config 1 s0 g1 = Ok (s', g', l) /\
    l_Delta_K_u l = vneg (vmin (l_Delta_K_e l) (get_row (sim_states s') "K_u" 1)) /\
    vadd (get_row (sim_states s') "K_u" 1) (l_Delta_K_u l) =
      zip_with (fun ku dke => Rmax (ku - dke) 0)
        (get_row (sim_states s') "K_u" 1) (l_Delta_K_e l) /\
    Forall (fun x => (0 <= x)%R) (vadd (get_row (sim_states s') "K_u" 1) (l_Delta_K_u l)) /\
    (forall Delta_K_e K_u : list R,
        vadd K_u (vneg (vmin Delta_K_e K_u)) =
          zip_with (fun ku dke => Rmax (ku - dke) 0) K_u Delta_K_e /\
        Forall (fun x => (0 <= x)%R) (vadd K_u (vneg (vmin Delta_K_e K_u)))).
Proof.
  destruct (example_first_step_ok all_zero all_one)
    as (s0 & g1 & s' & g' & l & Hinit & Hstep).
  exists s0, g1, s', g', l.
  split; [exact Hinit|]. split; [exact Hstep|].
  exact (rationing_never_negative example_config 1 s0 g1 s' g' l Hstep).
Defined.

(** ** The price adjustment at a zero demand *)

Section PriceAdjustment.
Import Floats.PrimFloat.
Import Float64.
Variables (fexp : float -> float) (fpow : float -> float -> float).

(** C5. The price adjustment divides by [epsilon * C_0[t]] without a test.
    In the two-sector economy, whose first sector has no household
    consumption, the state after the initialisation is one in which
    period 1 computes [C_0[1][0] = 0]: the period returns without an error,
    the division is [0 / 0], and [Delta_P], [P], [C[1]] and [AD[1]] hold
    NaN in that sector.  The NaN is carried into the next period, which
    returns as well, with NaN in [C_p[2]] and in every sector of [X[2]] and
    [C[2]].  ([fexp] and [fpow] stand for [np.exp] and [**]: all that is
    used of them is [exp(0) = 1] and [1 ** y = 1].) *)
Theorem zero_demand_propagates_nan :
  (forall x, eqb x 0 = true -> fexp x = 1%float) ->
  (forall x y, eqb x 1 = true -> fpow x y = 1%float) ->
  exists s0 g1 s1 g2 l1 s2 g3 l2,
    initialize_simulation (H := float_scalar fexp fpow)
      two_sector_config two_sector_data zero_stream zero_stream = Ok (s0, g1) /\
    step (H := float_scalar fexp fpow) two_sector_config 1 s0 g1 = Ok (s1, g2, l1) /\
    get_row (sim_states s1) "C_0" 1 !! 0 = Some 0%float /\
    l_Delta_P l1 !! 0 = Some nan /\
    l_P l1 !! 0 = Some nan /\
    get_row (sim_states s1) "C" 1 !! 0 = Some nan /\
    get_row (sim_states s1) "AD" 1 !! 0 = Some nan /\
    sim_Delta_P_last s1 = Arr (l_Delta_P l1) /\
    step (H := float_scalar fexp fpow) two_sector_config 2 s1 g2 = Ok (s2, g3, l2) /\
    get_row (sim_states s2) "C_p" 2 !! 0 = Some nan /\
    get_row (sim_states s2) "X" 2 = [nan; nan] /\
    get_row (sim_states s2) "C" 2 = [nan; nan].
Proof.
  intros fexp_zero fpow_one.
  assert (He : fexp = fun x => if eqb x 0 then 1%float else fexp x).
  { apply functional_extensionality. intros x.
    destruct (eqb x 0) eqn:E; [apply fexp_zero, E | reflexivity]. }
  assert (Hp : fpow = fun x y => if eqb x 1 then 1%float else fpow x y).
  { apply functional_extensionality. intros x.
    apply functional_extensionality. intros y.
    destruct (eqb x 1) eqn:E; [apply fpow_one, E | reflexivity]. }
  rewrite He, Hp. clear He Hp.
  do 8 eexists.
  split; [vm_compute; reflexivity|].
  split; [vm_compute; reflexivity|].
  split; [vm_compute; reflexivity|].
  split; [vm_compute; reflexivity|].
  split; [vm_compute; reflexivity|].
  split; [vm_compute; reflexivity|].
  split; [vm_compute; reflexivity|].
  split; [vm_compute; reflexivity|].
  split; [vm_compute; reflexivity|].
  split; [vm_compute; reflexivity|].
  split; vm_compute; reflexivity.
Qed.

End PriceAdjustment.

Section PriceAdjustmentExample.
Import Floats.PrimFloat.
Import Float64.

Lemma zero_demand_propagates_nan_witness :
  exists s0 g1 s1 g2 l1 s2 g3 l2,
    initialize_simulation
      (H := float_scalar (fun _ => 1%float) (fun _ _ => 1%float))
      two_sector_config two_sector_data
      zero_stream zero_stream = Ok (s0, g1) /\
    step (H := float_scalar (fun _ => 1%float) (fun _ _ => 1%float))
      two_sector_config 1 s0 g1 = Ok (s1, g2, l1) /\
    get_row (sim_states s1) "C_0" 1 !! 0 = Some 0%float /\
    l_Delta_P l1 !! 0 = Some nan /\
    l_P l1 !! 0 = Some nan /\
    get_row (sim_states s1) "C" 1 !! 0 = Some nan /\
    get_row (sim_states s1) "AD" 1 !! 0 = Some nan /\
    sim_Delta_P_last s1 = Arr (l_Delta_P l1) /\
    step (H := float_scalar (fun _ => 1%float) (fun _ _ => 1%float))
      two_sector_config 2 s1 g2 = Ok (s2, g3, l2) /\
    get_row (sim_states s2) "C_p" 2 !! 0 = Some nan /\
    get_row (sim_states s2) "X" 2 = [nan; nan] /\
    get_row (sim_states s2) "C" 2 = [nan; nan].
Proof.
  apply (zero_demand_propagates_nan (fun _ => 1%float) (fun _ _ => 1%float));
    intros; reflexivity.
Defined.

End PriceAdjustmentExample.

(** ** The first period *)

Lemma zero_price_signal (c e p : list R) (n : nat) :
  length c = n -> length e = n -> length p = n ->
  Forall (fun z => z <> 0%R) p ->
  vmul (vneg c) (vdiv (bmul e (Num 0%R)) p) = zeros n.
Proof.
  revert c e p. induction n as [|n IH]; intros [|x c] [|y e] [|z p] Hc He Hp Hnz;
    try discriminate; [reflexivity|].
  change (vmul (vneg (x :: c)) (vdiv (bmul (y :: e) (Num 0%R)) (z :: p)))
    with ((- x * (y * 0 / z))%R :: vmul (vneg c) (vdiv (bmul e (Num 0%R)) p)).
  inversion Hnz as [|? ? Hz Hnz']; subst.
  rewrite (IH c e p) by (simpl in *; first [lia | assumption]).
  change (zeros (S n)) with (0%R :: zeros n).
  f_equal. field. exact Hz.
Qed.

(** C10. [Delta_P_last] is the scalar 0 after the initialisation; in a run
    on loaded data (a square matrix and vectors of the configured number of
    sectors) whose base prices [P0] are all nonzero, the planned-consumption
    adjustment of the first period is therefore the zero vector, and
    [C_p[1] = C_p[0]], after the first period and in the state the run
    returns.  (At a zero base price the adjustment is [0 / 0]: see
    [zero_base_price_changes_planned_consumption].) *)
Theorem first_period_adjustment_is_zero
    (cfg : config R) (d : data R) (entropy g : rng R) (sf : sim R) (gf : rng R) :
  is_matrix (cfg_n cfg) (cfg_n cfg) (data_A d) ->
  length (data_va_per_unit d) = cfg_n cfg ->
  length (data_C_household d) = cfg_n cfg ->
  Forall (fun p => p <> 0%R)
    (neumann (transpose (data_A d)) (data_va_per_unit d) (cfg_k cfg)) ->
  simulate cfg d entropy g = Ok (sf, gf) ->
  exists s0 g1 s1 g2 l,
    initialize_simulation cfg d entropy g = Ok (s0, g1) /\
    sim_P0 s0 = neumann (transpose (data_A d)) (data_va_per_unit d) (cfg_k cfg) /\
    step cfg 1 s0 g1 = Ok (s1, g2, l) /\
    sim_Delta_P_last s0 = Num 0%R /\
    l_Delta_C_p_last l = zeros (cfg_n cfg) /\
    get_row (sim_states s1) "C_p" 1 = get_row (sim_states s1) "C_p" 0 /\
    get_row (sim_states sf) "C_p" 1 = get_row (sim_states sf) "C_p" 0.
Proof.
  intros HA HwL HC HnzP Hsim. unfold simulate in Hsim.
  destruct (initialize_simulation cfg d entropy g) as [[si g1]|e] eqn:Hinit;
    [|discriminate Hsim].
  cbn [mbind res_bind] in Hsim.
  destruct (forecasters_ready_init _ _ _ _ _ _ Hinit) as (_ & _ & HT & HT2).
  destruct (initialize_simulation_facts _ _ _ _ _ _ Hinit)
    as (HDP & Heps & _ & HP0 & _ & Hn & Hrows & _ & HCp0).
  assert (HlenP0 : length (sim_P0 si) = cfg_n cfg).
  { rewrite HP0, length_neumann; [exact HwL|].
    rewrite (length_transpose _ _ HA). symmetry. exact HwL. }
  assert (HlenCp0 : length (get_row (sim_states si) "C_p" 0) = cfg_n cfg).
  { rewrite HCp0. unfold vdiv. rewrite length_zip_with. lia. }
  unfold run_simulation in Hsim.
  destruct (sim_T si) as [|[|T']] eqn:HTs; [lia | lia |].
  replace (S (S T') - 1) with (S T') in Hsim by lia.
  cbn [seq run_loop] in Hsim.
  destruct (step cfg 1 si g1) as [[[s1 g2] l]|e] eqn:Hstep; [|discriminate Hsim].
  cbn [mbind res_bind] in Hsim.
  exists si, g1, s1, g2, l.
  split; [reflexivity|]. split; [exact HP0|]. split; [exact Hstep|]. split; [exact HDP|].
  destruct (step_frame _ _ _ _ _ _ _ Hstep) as [Hframe _].
  assert (Hl : l_Delta_C_p_last l = zeros (cfg_n cfg) /\
               get_row (sim_states s1) "C_p" 1 =
               vadd (get_row (sim_states si) "C_p" 0) (l_Delta_C_p_last l)).
  { clear Hsim Hframe. run_step Hstep. injection Hstep as <- <- <-.
    cbn [l_Delta_C_p_last sim_states].
    change (1 - 1) with 0 in *.
    assert (Hread : get_row states1 "C_p" 0 = get_row (sim_states si) "C_p" 0).
    { rewrite Def_states1, get_set_row_ne by discriminate.
      rewrite Def_states0, get_set_row_ne by discriminate.
      rewrite Def_states. reflexivity. }
    split.
    - rewrite Def_Delta_C_p_last, Hread, HDP, Heps, Def_P0.
      apply zero_price_signal; [exact HlenCp0 | | exact HlenP0 |].
      + unfold vneg, ones. rewrite length_map. apply length_replicate.
      + rewrite HP0. exact HnzP.
    - strip_rows. rewrite Def_states2, get_set_row_eq.
      + rewrite Hread. reflexivity.
      + rewrite Def_states1, rows_set_row, Def_states0, rows_set_row, Def_states.
        rewrite Hrows; [lia | apply list_elem_of_In; cbn; tauto]. }
  destruct Hl as [Hzero Hrow1].
  assert (Hs1 : get_row (sim_states s1) "C_p" 1 = get_row (sim_states s1) "C_p" 0).
  { rewrite Hrow1, Hzero, (Hframe "C_p" 0) by lia.
    apply vadd_zeros_r, HlenCp0. }
  split; [exact Hzero|]. split; [exact Hs1|].
  rewrite !(run_loop_frame _ _ _ _ _ _ Hsim); [exact Hs1 | |].
  - intros Hin. apply list_elem_of_In, List.in_seq in Hin. lia.
  - intros Hin. apply list_elem_of_In, List.in_seq in Hin. lia.
Qed.

Lemma example_P0 :
  neumann (transpose (data_A example_data)) (data_va_per_unit example_data)
    (cfg_k example_config) = [(1 + (1 / 2 * 1 + 0))%R].
Proof. reflexivity. Qed.

Lemma first_period_adjustment_is_zero_witness :
  exists sf gf,
    simulate example_config example_data all_zero all_one = Ok (sf, gf) /\
    exists s0 g1 s1 g2 l,
      initialize_simulation example_config example_data all_zero all_one = Ok (s0, g1) /\
      sim_P0 s0 = neumann (transpose (data_A example_data))
                    (data_va_per_unit example_data) (cfg_k example_config) /\
      step example_config 1 s0 g1 = Ok (s1, g2, l) /\
      sim_Delta_P_last s0 = Num 0%R /\
      l_Delta_C_p_last l = zeros (cfg_n example_config) /\
      get_row (sim_states s1) "C_p" 1 = get_row (sim_states s1) "C_p" 0 /\
      get_row (sim_states sf) "C_p" 1 = get_row (sim_states sf) "C_p" 0.
Proof.
  destruct (example_simulate_ok all_zero all_one)
    as (sf & gf & Hsim).
  exists sf, gf. split; [exact Hsim|].
  apply (first_period_adjustment_is_zero example_config example_data
           all_zero all_one sf gf).
  - split; [reflexivity | repeat constructor].
  - reflexivity.
  - reflexivity.
  - rewrite example_P0. repeat constructor. lra.
  - exact Hsim.
Defined.

Section ZeroBasePrice.
Import Floats.PrimFloat.
Import Float64.

(** A sector whose value added per unit is 0 has the base price 0.  In
    float64 the first period then computes the adjustment
    [-C_p[0] * ((epsilon * 0) / P0)] as [-inf * (-0 / 0)], which is NaN, and
    [C_p[1]] is NaN where [C_p[0]] is infinite: the two rows differ. *)
Lemma zero_base_price_changes_planned_consumption :
  data_va_per_unit zero_price_data = [0%float] /\
  forall (fexp : float -> float) (fpow : float -> float -> float),
  exists s0 g1 s1 g2 l,
    initialize_simulation (H := float_scalar fexp fpow)
      zero_price_config zero_price_data zero_stream zero_stream = Ok (s0, g1) /\
    step (H := float_scalar fexp fpow) zero_price_config 1 s0 g1 = Ok (s1, g2, l) /\
    sim_P0 s0 = [0%float] /\
    sim_Delta_P_last s0 = Num 0%float /\
    l_Delta_C_p_last l = [nan] /\
    get_row (sim_states s1) "C_p" 0 = [infinity] /\
    get_row (sim_states s1) "C_p" 1 = [nan] /\
    get_row (sim_states s1) "C_p" 1 <> get_row (sim_states s1) "C_p" 0.
Proof.
  split; [reflexivity|]. intros fexp fpow.
  do 5 eexists.
  split; [vm_compute; reflexivity|].
  split; [vm_compute; reflexivity|].
  split; [vm_compute; reflexivity|].
  split; [vm_compute; reflexivity|].
  split; [vm_compute; reflexivity|].
  split; [vm_compute; reflexivity|].
  split; [vm_compute; reflexivity|].
  intros Heq.
  apply (f_equal (fun v => match v with [x] => is_nan x | _ => false end)) in Heq.
  vm_compute in Heq. discriminate Heq.
Qed.

End ZeroBasePrice.

(** ** Randomness *)

Section Seeding.
Context {num : Type} `{Scalar num}.

(** The state the caller left the generator in does not reach the run:
    [np.random.seed(None)] replaces it. *)
Lemma simulate_ignores_caller_seed (cfg : config num) (d : data num)
    (entropy g g' : rng num) :
  simulate cfg d entropy g = simulate cfg d entropy g'.
Proof. reflexivity. Qed.

Lemma initial_structure (cfg : config num) (d : data num)
    (entropy g : rng num) (si : sim num) (g0 : rng num) :
  initialize_simulation cfg d entropy g = Ok (si, g0) ->
  sim_Delta si = (create_delta_matrix cfg entropy).1 /\
  (exists B_inv g2,
      create_capital_intensity_matrix cfg (create_delta_matrix cfg entropy).2
        = Ok (sim_B si, B_inv, g2)) /\
  get_row (sim_states si) "I" 0 =
    matvec (sim_Delta si)
      (vscale (cfg_initial_capacity_buffer cfg)
         (matvec (sim_B si) (vdiv (data_total_output d) (sim_P0 si)))).
Proof.
  intros Hinit. run_init Hinit. injection Hinit as <- _.
  cbn [sim_Delta sim_B sim_states sim_P0].
  match goal with E : (_ <? 2) = false |- _ => apply Nat.ltb_ge in E; rename E into HT end.
  assert (Hrows : forall key, In key state_keys -> rows states key = T).
  { intros key Hkey. rewrite Def_states.
    apply rows_initialize_state_arrays, list_elem_of_In, Hkey. }
  unfold np_random_seed_None in Def_g. subst g1.
  match goal with E : create_delta_matrix _ _ = _ |- _ => rewrite E end.
  cbn [fst snd].
  match goal with E : create_capital_intensity_matrix _ _ = _ |- _ => rewrite E end.
  split; [reflexivity|]. split; [eauto|].
  repeat match goal with
    | Hx : ?x = set_row _ _ _ _ |- context [get_row ?x _ _] =>
        rewrite Hx; rewrite !get_set_row_ne by discriminate
    end.
  rewrite Def_states5, get_set_row_eq.
  - rewrite Def_states4, get_set_row_eq; [subst buffer; reflexivity|].
    rewrite Def_states3, rows_set_row, Def_states2, rows_set_row,
      Def_states1, rows_set_row, Def_states0, rows_set_row.
    rewrite Hrows; [lia | cbn; tauto].
  - rewrite Def_states4, rows_set_row, Def_states3, rows_set_row,
      Def_states2, rows_set_row, Def_states1, rows_set_row,
      Def_states0, rows_set_row.
    rewrite Hrows; [lia | cbn; tauto].
Qed.

(** The investment of period 0 in the state a run returns. *)
Lemma final_initial_investment (cfg : config num) (d : data num)
    (entropy g : rng num) (sf : sim num) (gf : rng num) :
  simulate cfg d entropy g = Ok (sf, gf) ->
  exists B B_inv g2,
    create_capital_intensity_matrix cfg (create_delta_matrix cfg entropy).2
      = Ok (B, B_inv, g2) /\
    get_row (sim_states sf) "I" 0 =
      matvec (create_delta_matrix cfg entropy).1
        (vscale (cfg_initial_capacity_buffer cfg)
           (matvec B
              (vdiv (data_total_output d)
                 (neumann (transpose (data_A d)) (data_va_per_unit d) (cfg_k cfg))))).
Proof.
  intros Hsim. unfold simulate in Hsim.
  destruct (initialize_simulation cfg d entropy g) as [[si g1]|e] eqn:Hinit;
    [|discriminate Hsim].
  cbn [mbind res_bind] in Hsim. unfold run_simulation in Hsim.
  rewrite (run_loop_frame _ _ _ _ _ _ Hsim).
  2:{ intros Hin. apply list_elem_of_In, List.in_seq in Hin. lia. }
  destruct (initial_structure _ _ _ _ _ _ Hinit) as (HD & (B_inv & g2 & HB) & HI).
  destruct (initialize_simulation_facts _ _ _ _ _ _ Hinit)
    as (_ & _ & _ & HP0 & _).
  exists (sim_B si), B_inv, g2. split; [exact HB|].
  rewrite HI, HD, HP0. reflexivity.
Qed.

End Seeding.

Lemma twelve_eq : twelve (num := R) = 12%R.
Proof. unfold twelve, sofnat. cbn. lra. Qed.

Lemma example_delta (entropy : rng R) :
  (create_delta_matrix example_config entropy).1 =
  [[((0 + (12 - 0) * entropy 0%nat) / twelve)%R]].
Proof. reflexivity. Qed.

Lemma example_B (entropy : rng R) (B B_inv : list (list R)) (g2 : rng R) :
  create_capital_intensity_matrix example_config
    (create_delta_matrix example_config entropy).2 = Ok (B, B_inv, g2) ->
  B = [[(1 + (1 - 1) * entropy 1%nat)%R]].
Proof.
  unfold create_capital_intensity_matrix, np_random_uniform, draw. cbn.
  destruct (Req_EM_T _ 0); [discriminate|]. intros [= <- _ _]. reflexivity.
Qed.

Lemma matvec_1x1 (a b c p : R) :
  matvec [[a]] (vscale c (matvec [[b]] (vdiv [1%R] [p]))) =
  [(a * (c * (b * (1 / p) + 0)) + 0)%R].
Proof. reflexivity. Qed.

Lemma example_initial_investment (entropy : rng R) (sf : sim R) (gf : rng R) :
  simulate example_config example_data entropy all_one = Ok (sf, gf) ->
  get_row (sim_states sf) "I" 0 = [(entropy 0%nat * (11 / 15))%R].
Proof.
  intros Hsim.
  destruct (final_initial_investment _ _ _ _ _ _ Hsim) as (B & B_inv & g2 & HB & ->).
  rewrite example_delta, (example_B _ _ _ _ HB), example_P0.
  change (data_total_output example_data) with [1%R].
  change (cfg_initial_capacity_buffer example_config) with (11 / 10)%R.
  rewrite matvec_1x1, twelve_eq. f_equal. field.
Qed.

(** C9 (the code departs from it).  Whatever state the caller left the
    generator in, for instance by seeding it, the run does not depend on it:
    the initialisation draws from fresh operating-system entropy.  Two runs
    of the same configuration and data, started from the same generator
    state, therefore differ as soon as the entropy differs: here in the
    investment of period 0. *)
Theorem caller_seed_is_overridden :
  (forall (cfg : config R) (d : data R) (entropy g g' : rng R),
      simulate cfg d entropy g = simulate cfg d entropy g') /\
  exists sf1 gf1 sf2 gf2,
    simulate example_config example_data all_zero all_one = Ok (sf1, gf1) /\
    simulate example_config example_data all_one all_one = Ok (sf2, gf2) /\
    get_row (sim_states sf1) "I" 0 <> get_row (sim_states sf2) "I" 0.
Proof.
  split; [intros; apply simulate_ignores_caller_seed|].
  destruct (example_simulate_ok all_zero all_one)
    as (sf1 & gf1 & Hsim1).
  destruct (example_simulate_ok all_one all_one)
    as (sf2 & gf2 & Hsim2).
  exists sf1, gf1, sf2, gf2. split; [exact Hsim1|]. split; [exact Hsim2|].
  rewrite (example_initial_investment _ _ _ Hsim1),
          (example_initial_investment _ _ _ Hsim2).
  unfold all_zero, all_one. intros [= Heq]. lra.
Qed.

(** * Further properties of the code *)

(** ** A window below 2: the first period *)

Section ShortWindow.
Context {num : Type} `{Scalar num}.
Import AR1Forecaster.

Lemma forecast_short_window (W n : nat) (v : list num)
    (hist1 hist2 : list (list num)) (f1 f2 : AR1Forecaster.t (num := num)) :
  W <= 1 -> 1 <= length hist1 ->
  length (history f1) <= 1 ->
  forecast W n v hist1 hist2 f1 f2 = Err ValueError_not_fitted.
Proof.
  intros HW Hh Hf. unfold forecast.
  destruct (Nat.ltb_spec (length hist1) W); [lia|].
  assert (Hp : predict1 (fit f1) v = Err ValueError_not_fitted).
  { unfold predict1, predict. rewrite is_fitted_fit.
    destruct (Nat.ltb_spec (length (history f1)) 2); [reflexivity | lia]. }
  rewrite Hp. reflexivity.
Qed.

Lemma step_short_window (cfg : config num) (t : nat) (s : sim num) (g : rng num) :
  forecasters_ready s -> sim_W s <= 1 ->
  (forall key, In key state_keys -> t < rows (sim_states s) key) ->
  snegb (cfg_shock_sigma cfg) = false ->
  step cfg t s g = Err ValueError_not_fitted.
Proof.
  intros (Hh & HW1 & HW2 & Hl1 & Hl2 & Hp1 & Hp2) HW Hrows Hs.
  assert (HG : require (has_rows (sim_states s) ["X"; "I"]%string (t - 1) &&
                        has_rows (sim_states s) ["K"; "K_u"; "C_p"; "G"]%string t)
                       IndexError = Ok tt).
  { rewrite !has_rows_ok; [reflexivity|..];
      intros key Hin;
      (assert (Hlt : t < rows (sim_states s) key)
         by (apply Hrows; cbn in Hin |- *; tauto)); lia. }
  destruct (update_alpha_total g (sim_alpha s) (sim_alpha_shock s) (cfg_shock_sigma cfg)
              (cfg_shock_persist cfg) (sim_mu s) Hs) as [[[a1 sh1] g1] Hup].
  destruct (step cfg t s g) as [[[s' g'] l]|e] eqn:Hstep.
  - exfalso. run_step Hstep.
    match goal with
    | E : forecast _ _ _ _ _ _ _ = Ok _ |- _ =>
        rewrite forecast_short_window in E; [discriminate E | | |]
    end.
    + subst W. exact HW.
    + rewrite Def_hist1, length_app. cbn. lia.
    + rewrite Def_f1, length_history_add_observation by lia. lia.
  - cbv beta delta [step] in Hstep. name_let Hstep.
    rewrite Def_states, HG in Hstep.
    cbv beta iota delta [mbind res_bind] in Hstep.
    repeat name_let Hstep.
    rewrite Def_shock_sigma, Def_shock_persist, Hup in Hstep.
    cbv beta iota in Hstep.
    repeat name_let Hstep.
    rewrite forecast_short_window in Hstep.
    + symmetry. exact Hstep.
    + subst W. exact HW.
    + rewrite Def_hist1, length_app. cbn. lia.
    + rewrite Def_f1, length_history_add_observation by lia. lia.
Qed.

Lemma simulate_short_window (cfg : config num) (d : data num) (entropy g : rng num) :
  cfg_W cfg <= 1 ->
  2 <= cfg_T_plan cfg + cfg_W cfg ->
  snegb (cfg_shock_sigma cfg) = false ->
  (exists r, create_capital_intensity_matrix cfg (create_delta_matrix cfg entropy).2
             = Ok r) ->
  simulate cfg d entropy g = Err ValueError_not_fitted.
Proof.
  intros HW HT Hs HB.
  destruct (initialize_simulation_ok cfg d entropy g HT HB) as (si & g1 & Hinit).
  destruct (forecasters_ready_init _ _ _ _ _ _ Hinit) as (Hr & HWs & HTs & HT2).
  unfold simulate. rewrite Hinit. cbn [mbind res_bind]. unfold run_simulation.
  destruct (sim_T si) as [|[|T']] eqn:HTsi; [lia | lia |].
  replace (S (S T') - 1) with (S T') by lia. cbn [seq run_loop].
  rewrite step_short_window; [reflexivity | exact Hr | lia | | exact Hs].
  intros key Hk. rewrite (initialize_simulation_rows _ _ _ _ _ _ Hinit key Hk). lia.
Qed.

End ShortWindow.



(** ** The equations of a period, read back from the state arrays *)

Section PeriodEquations.
Context {num : Type} `{Scalar num}.
Implicit Types (st : gmap string (list (list num))).

Lemma same_structure_refl (s : sim num) : same_structure s s.
Proof. repeat split. Qed.

Lemma same_structure_trans (s1 s2 s3 : sim num) :
  same_structure s1 s2 -> same_structure s2 s3 -> same_structure s1 s3.
Proof.
  unfold same_structure. intros H12 H23.
  repeat match goal with Hc : _ /\ _ |- _ => destruct Hc end.
  repeat split; congruence.
Qed.

(** A period changes none of the structural data. *)
Lemma step_same_structure (cfg : config num) (t : nat) (s : sim num) (g : rng num)
    (s' : sim num) (g' : rng num) (l : locals num) :
  step cfg t s g = Ok (s', g', l) -> same_structure s s'.
Proof.
  intros Hstep. run_step Hstep. injection Hstep as <- <- <-.
  repeat split.
Qed.

(** The rows a period has written satisfy the equations of that period. *)
Lemma step_period_identities (cfg : config num) (t : nat) (s : sim num) (g : rng num)
    (s' : sim num) (g' : rng num) (l : locals num) :
  step cfg t s g = Ok (s', g', l) ->
  1 <= t ->
  (forall key, In key state_keys -> t < rows (sim_states s) key) ->
  period_identities s' (sim_states s') t.
Proof.
  intros Hstep Ht Hrows.
  assert (Hne : t <> t - 1) by lia.
  run_step Hstep. injection Hstep as <- <- <-.
  unfold period_identities.
  cbn [sim_states sim_n sim_Delta sim_g sim_A sim_k sim_B_inv].
  subst n A Delta g_m k.
  assert (Hr : forall key, In key state_keys -> t < rows states key).
  { intros key Hk. rewrite Def_states. apply Hrows, Hk. }
  clear Hrows.
  repeat split.
  - strip_to_written.
    rewrite (read_written _ _ _ _ _ Def_states0) by (apply Hr; cbn; tauto).
    strip_frame Hne. reflexivity.
  - strip_to_written.
    rewrite (read_written _ _ _ _ _ Def_states3) by (rows_back; apply Hr; cbn; tauto).
    strip_frame Hne. reflexivity.
  - strip_to_written.
    rewrite (read_written _ _ _ _ _ Def_states5) by (rows_back; apply Hr; cbn; tauto).
    strip_to_written. reflexivity.
  - strip_to_written.
    rewrite (read_written _ _ _ _ _ Def_states6) by (rows_back; apply Hr; cbn; tauto).
    reflexivity.
  - strip_to_written.
    rewrite (read_written _ _ _ _ _ Def_states8) by (rows_back; apply Hr; cbn; tauto).
    strip_to_written. reflexivity.
  - strip_to_written.
    rewrite (read_written _ _ _ _ _ Def_states10) by (rows_back; apply Hr; cbn; tauto).
    strip_to_written. reflexivity.
  - strip_to_written.
    rewrite (read_written _ _ _ _ _ Def_states11) by (rows_back; apply Hr; cbn; tauto).
    strip_to_written. reflexivity.
  - strip_to_written.
    rewrite (read_written _ _ _ _ _ Def_states12) by (rows_back; apply Hr; cbn; tauto).
    reflexivity.
Qed.

End PeriodEquations.

Section RunEquations.
Context {num : Type} `{Scalar num}.

Lemma period_identities_transport (s s' : sim num)
    (st st' : gmap string (list (list num))) (t : nat) :
  same_structure s s' ->
  (forall key, get_row st' key t = get_row st key t) ->
  (forall key, get_row st' key (t - 1) = get_row st key (t - 1)) ->
  period_identities s st t -> period_identities s' st' t.
Proof.
  unfold same_structure, period_identities. intros Hs Ht Ht1 Hp.
  repeat match goal with Hc : _ /\ _ |- _ => destruct Hc end.
  rewrite !Ht, !Ht1.
  repeat match goal with Hc : sim_Delta _ = _ |- _ => rewrite Hc; clear Hc
                    | Hc : sim_B_inv _ = _ |- _ => rewrite Hc; clear Hc
                    | Hc : sim_A _ = _ |- _ => rewrite Hc; clear Hc
                    | Hc : sim_g _ = _ |- _ => rewrite Hc; clear Hc
                    | Hc : sim_n _ = _ |- _ => rewrite Hc; clear Hc
                    | Hc : sim_k _ = _ |- _ => rewrite Hc; clear Hc end.
  repeat split; assumption.
Qed.

Lemma run_loop_same_structure (cfg : config num) (ts : list nat) :
  forall (s : sim num) (g : rng num) (s' : sim num) (g' : rng num),
    run_loop cfg ts s g = Ok (s', g') -> same_structure s s'.
Proof.
  induction ts as [|t ts IH]; intros s g s' g' Hrun.
  - injection Hrun as <- _. apply same_structure_refl.
  - cbn [run_loop] in Hrun.
    destruct (step cfg t s g) as [[[s1 g1] l]|e] eqn:Hstep; [|discriminate Hrun].
    cbn in Hrun.
    eapply same_structure_trans;
      [eapply step_same_structure, Hstep | eapply IH, Hrun].
Qed.

Lemma run_loop_rows (cfg : config num) (ts : list nat) :
  forall (s : sim num) (g : rng num) (s' : sim num) (g' : rng num),
    run_loop cfg ts s g = Ok (s', g') ->
    forall key, rows (sim_states s') key = rows (sim_states s) key.
Proof.
  induction ts as [|t ts IH]; intros s g s' g' Hrun key.
  - injection Hrun as <- _. reflexivity.
  - cbn [run_loop] in Hrun.
    destruct (step cfg t s g) as [[[s1 g1] l]|e] eqn:Hstep; [|discriminate Hrun].
    cbn in Hrun. rewrite (IH _ _ _ _ Hrun key).
    apply (step_frame _ _ _ _ _ _ _ Hstep).
Qed.

Lemma run_loop_period_identities (cfg : config num) (len : nat) :
  forall (a : nat) (s : sim num) (g : rng num) (sf : sim num) (gf : rng num),
    run_loop cfg (seq a len) s g = Ok (sf, gf) ->
    1 <= a ->
    (forall key, In key state_keys -> a + len <= rows (sim_states s) key) ->
    forall t, a <= t < a + len -> period_identities sf (sim_states sf) t.
Proof.
  induction len as [|len IH]; intros a s g sf gf Hrun Ha Hrows t Ht; [lia|].
  cbn [seq run_loop] in Hrun.
  destruct (step cfg a s g) as [[[s1 g1] l]|e] eqn:Hstep; [|discriminate Hrun].
  cbn in Hrun.
  destruct (decide (t = a)) as [->|Hne].
  - assert (Hp : period_identities s1 (sim_states s1) a).
    { apply (step_period_identities _ _ _ _ _ _ _ Hstep Ha).
      intros key Hk. specialize (Hrows key Hk). lia. }
    apply (period_identities_transport s1 sf (sim_states s1));
      [eapply run_loop_same_structure, Hrun | | | exact Hp].
    + intros key. apply (run_loop_frame _ _ _ _ _ _ Hrun).
      intros Hin. apply list_elem_of_In, List.in_seq in Hin. lia.
    + intros key. apply (run_loop_frame _ _ _ _ _ _ Hrun).
      intros Hin. apply list_elem_of_In, List.in_seq in Hin. lia.
  - apply (IH (S a) s1 g1 sf gf Hrun); [lia | | lia].
    intros key Hk. destruct (step_frame _ _ _ _ _ _ _ Hstep) as [_ Hr].
    rewrite Hr. specialize (Hrows key Hk). lia.
Qed.

End RunEquations.

(** In the state a run returns, every simulated period [t = 1 .. T-1]
    satisfies the equations of the loop body, read back from the arrays:
    [K[t] = (I - Delta) K[t-1] + I[t-1]], [G[t] = (1 + g) G[t-1]],
    [F[t] = C_p[t] + I[t] + G[t]], [X[t] = neumann(A, F[t], k)],
    [ED[t] = C_0[t] - C_p[t]], [AD[t] = C[t] + I[t] + G[t]],
    [X_max[t] = B_inv K[t]] and [F_c[t] = (I - A) X_max[t]]: later periods
    do not overwrite them. *)
Theorem run_keeps_period_equations {num : Type} `{Scalar num}
    (cfg : config num) (d : data num) (entropy g : rng num)
    (sf : sim num) (gf : rng num) :
  simulate cfg d entropy g = Ok (sf, gf) ->
  forall t, 1 <= t < cfg_T_plan cfg + cfg_W cfg ->
    period_identities sf (sim_states sf) t.
Proof.
  intros Hsim t Ht. unfold simulate in Hsim.
  destruct (initialize_simulation cfg d entropy g) as [[si g1]|e] eqn:Hinit;
    [|discriminate Hsim].
  cbn [mbind res_bind] in Hsim. unfold run_simulation in Hsim.
  destruct (forecasters_ready_init _ _ _ _ _ _ Hinit) as (_ & _ & HT & _).
  destruct (initialize_simulation_facts _ _ _ _ _ _ Hinit)
    as (_ & _ & _ & _ & _ & _ & Hrows & _).
  apply (run_loop_period_identities cfg _ 1 si g1 sf gf Hsim); [lia | | lia].
  intros key Hk. rewrite Hrows by (apply list_elem_of_In, Hk). lia.
Qed.

Lemma run_keeps_period_equations_witness :
  exists sf gf,
    simulate example_config example_data all_zero all_one = Ok (sf, gf) /\
    forall t, 1 <= t < cfg_T_plan example_config + cfg_W example_config ->
      period_identities sf (sim_states sf) t.
Proof.
  destruct (example_simulate_ok all_zero all_one)
    as (sf & gf & Hsim).
  exists sf, gf. split; [exact Hsim|].
  exact (run_keeps_period_equations example_config example_data all_zero all_one
           sf gf Hsim).
Defined.


(** ** Period 0 *)

Section InitialEquations.
Context {num : Type} `{Scalar num}.

Ltac skip_rows :=
  repeat match goal with
    | Hx : ?x = set_row _ _ _ _ |- context [get_row ?x ?key' ?t'] =>
        first [ rewrite (get_row_skip _ _ _ _ _ key' t' Hx) by discriminate
              | rewrite (get_row_skip_frame _ _ _ _ _ key' t' Hx) by discriminate ]
    end.

Lemma initialize_simulation_identities (cfg : config num) (d : data num)
    (entropy g : rng num) (si : sim num) (g0 : rng num) :
  initialize_simulation cfg d entropy g = Ok (si, g0) ->
  initial_identities cfg d si (sim_states si).
Proof.
  intros Hinit. run_init Hinit. injection Hinit as <- _.
  unfold initial_identities.
  cbn [sim_states sim_P0 sim_Delta sim_B sim_A sim_k sim_n]. cbn zeta.
  match goal with E : (_ <? 2) = false |- _ => apply Nat.ltb_ge in E; rename E into HT end.
  assert (Hr : forall key, In key state_keys -> 0 < rows states key).
  { intros key Hk. rewrite Def_states.
    rewrite rows_initialize_state_arrays by (apply list_elem_of_In, Hk). lia. }
  subst buffer k A.
  match goal with
  | E : create_delta_matrix _ _ = (?D, _) |- _ => rename D into Dm
  end.
  match goal with
  | E : create_capital_intensity_matrix _ _ = Ok (?M, _, _) |- _ => rename M into Bm
  end.
  assert (HC0 : get_row states15 "C_0" 0 = vdiv (data_C_household d) P0).
  { skip_rows. apply (read_written _ _ _ _ _ Def_states0). apply Hr. cbn. tauto. }
  assert (HC : get_row states15 "C" 0 = get_row states15 "C_0" 0).
  { skip_rows.
    rewrite (read_written _ _ _ _ _ Def_states1) by (rows_back; apply Hr; cbn; tauto).
    reflexivity. }
  assert (HCp : get_row states15 "C_p" 0 = get_row states15 "C" 0).
  { skip_rows.
    rewrite (read_written _ _ _ _ _ Def_states2) by (rows_back; apply Hr; cbn; tauto).
    skip_rows. reflexivity. }
  assert (HG : get_row states15 "G" 0 = vdiv (data_G_government d) P0).
  { skip_rows.
    apply (read_written _ _ _ _ _ Def_states3). rows_back. apply Hr. cbn. tauto. }
  assert (HI : get_row states15 "I" 0 =
               matvec Dm (vscale (cfg_initial_capacity_buffer cfg)
                           (matvec Bm (vdiv (data_total_output d) P0)))).
  { skip_rows.
    rewrite (read_written _ _ _ _ _ Def_states5) by (rows_back; apply Hr; cbn; tauto).
    rewrite (read_written _ _ _ _ _ Def_states4) by (rows_back; apply Hr; cbn; tauto).
    reflexivity. }
  assert (HAD : get_row states15 "AD" 0 =
                vadd (vadd (get_row states15 "C" 0) (get_row states15 "I" 0))
                     (get_row states15 "G" 0)).
  { skip_rows.
    rewrite (read_written _ _ _ _ _ Def_states9) by (rows_back; apply Hr; cbn; tauto).
    skip_rows. reflexivity. }
  assert (HF : get_row states15 "F" 0 = get_row states15 "AD" 0).
  { skip_rows.
    rewrite (read_written _ _ _ _ _ Def_states10) by (rows_back; apply Hr; cbn; tauto).
    reflexivity. }
  assert (HX : get_row states15 "X" 0 =
               neumann (data_A d) (get_row states15 "F" 0) (cfg_k cfg)).
  { rewrite HF, HAD. skip_rows.
    rewrite (read_written _ _ _ _ _ Def_states6) by (rows_back; apply Hr; cbn; tauto).
    skip_rows. reflexivity. }
  assert (HKe : get_row states15 "K_e" 0 = matvec Bm (get_row states15 "X" 0)).
  { skip_rows.
    rewrite (read_written _ _ _ _ _ Def_states7) by (rows_back; apply Hr; cbn; tauto).
    reflexivity. }
  assert (HXm : get_row states15 "X_max" 0 =
                vscale (cfg_initial_capacity_buffer cfg) (get_row states15 "X" 0)).
  { skip_rows.
    rewrite (read_written _ _ _ _ _ Def_states8) by (rows_back; apply Hr; cbn; tauto).
    skip_rows. reflexivity. }
  assert (HFc : get_row states15 "F_c" 0 =
                matvec (msub (eye n) (data_A d)) (get_row states15 "X_max" 0)).
  { skip_rows.
    rewrite (read_written _ _ _ _ _ Def_states11) by (rows_back; apply Hr; cbn; tauto).
    skip_rows. reflexivity. }
  assert (HK : get_row states15 "K" 0 = matvec Bm (get_row states15 "X_max" 0)).
  { skip_rows.
    rewrite (read_written _ _ _ _ _ Def_states12) by (rows_back; apply Hr; cbn; tauto).
    skip_rows. reflexivity. }
  assert (HU : get_row states15 "U" 0 =
               vsub (get_row states15 "X_max" 0) (get_row states15 "X" 0)).
  { skip_rows.
    rewrite (read_written _ _ _ _ _ Def_states13) by (rows_back; apply Hr; cbn; tauto).
    skip_rows. reflexivity. }
  assert (HKu : get_row states15 "K_u" 0 = matvec Bm (get_row states15 "U" 0)).
  { skip_rows.
    rewrite (read_written _ _ _ _ _ Def_states14) by (rows_back; apply Hr; cbn; tauto).
    skip_rows. reflexivity. }
  repeat split; assumption.
Qed.

End InitialEquations.

Lemma initial_identities_transport {num : Type} `{Scalar num}
    (cfg : config num) (d : data num) (s s' : sim num)
    (st st' : gmap string (list (list num))) :
  same_structure s s' ->
  (forall key, get_row st' key 0 = get_row st key 0) ->
  initial_identities cfg d s st -> initial_identities cfg d s' st'.
Proof.
  unfold same_structure, initial_identities. cbn zeta. intros Hs Ht Hp.
  repeat match goal with Hc : _ /\ _ |- _ => destruct Hc end.
  rewrite !Ht.
  repeat match goal with Hc : sim_Delta _ = _ |- _ => rewrite Hc; clear Hc
                    | Hc : sim_B _ = _ |- _ => rewrite Hc; clear Hc
                    | Hc : sim_A _ = _ |- _ => rewrite Hc; clear Hc
                    | Hc : sim_P0 _ = _ |- _ => rewrite Hc; clear Hc
                    | Hc : sim_n _ = _ |- _ => rewrite Hc; clear Hc
                    | Hc : sim_k _ = _ |- _ => rewrite Hc; clear Hc end.
  repeat split; assumption.
Qed.

(** The state a run returns still holds period 0 as the initialisation set
    it from the loaded data: [C_0[0] = C[0] = C_p[0] = C_household / P0],
    [G[0] = G_government / P0], [F[0] = AD[0] = C[0] + I[0] + G[0]],
    [X[0] = neumann(A, F[0], k)], [X_max[0] = buffer * X[0]],
    [U[0] = X_max[0] - X[0]], [K[0] = B X_max[0]], [K_e[0] = B X[0]],
    [K_u[0] = B U[0]], [F_c[0] = (I - A) X_max[0]]; and [I[0]] is [Delta]
    applied to the capital first computed from [total_output], not to the
    [K[0]] finally stored. *)
Theorem run_keeps_initial_equations {num : Type} `{Scalar num}
    (cfg : config num) (d : data num) (entropy g : rng num)
    (sf : sim num) (gf : rng num) :
  simulate cfg d entropy g = Ok (sf, gf) ->
  initial_identities cfg d sf (sim_states sf).
Proof.
  intros Hsim. unfold simulate in Hsim.
  destruct (initialize_simulation cfg d entropy g) as [[si g1]|e] eqn:Hinit;
    [|discriminate Hsim].
  cbn [mbind res_bind] in Hsim. unfold run_simulation in Hsim.
  apply (initial_identities_transport cfg d si sf (sim_states si)).
  - eapply run_loop_same_structure, Hsim.
  - intros key. apply (run_loop_frame _ _ _ _ _ _ Hsim).
    intros Hin. apply list_elem_of_In, List.in_seq in Hin. lia.
  - apply (initialize_simulation_identities _ _ _ _ _ _ Hinit).
Qed.

Lemma run_keeps_initial_equations_witness :
  exists sf gf,
    simulate example_config example_data all_zero all_one = Ok (sf, gf) /\
    initial_identities example_config example_data sf (sim_states sf).
Proof.
  destruct (example_simulate_ok all_zero all_one)
    as (sf & gf & Hsim).
  exists sf, gf. split; [exact Hsim|].
  exact (run_keeps_initial_equations example_config example_data all_zero all_one
           sf gf Hsim).
Defined.

(** ** What the loop leaves alone *)

(** [run_simulation] changes none of the structural data ([A], [B],
    [B_inv], [Delta], [P0], [wL], [epsilon], [mu], [g], the sizes), keeps the
    number of rows of every state array, and writes rows [1 .. T-1] only:
    row 0 and any row from [T] on are as the caller passed them. *)
Theorem run_simulation_frame {num : Type} `{Scalar num}
    (cfg : config num) (s : sim num) (g : rng num) (s' : sim num) (g' : rng num) :
  run_simulation cfg s g = Ok (s', g') ->
  same_structure s s' /\
  (forall key, rows (sim_states s') key = rows (sim_states s) key) /\
  (forall key t, t = 0 \/ sim_T s <= t ->
      get_row (sim_states s') key t = get_row (sim_states s) key t).
Proof.
  intros Hrun. unfold run_simulation in Hrun.
  split; [eapply run_loop_same_structure, Hrun|].
  split; [eapply run_loop_rows, Hrun|].
  intros key t Ht. apply (run_loop_frame _ _ _ _ _ _ Hrun).
  intros Hin. apply list_elem_of_In, List.in_seq in Hin. lia.
Qed.

Lemma run_simulation_frame_witness :
  exists s g s' g',
    initialize_simulation example_config example_data all_zero all_one = Ok (s, g) /\
    run_simulation example_config s g = Ok (s', g') /\
    same_structure s s' /\
    (forall key, rows (sim_states s') key = rows (sim_states s) key) /\
    (forall key t, t = 0 \/ sim_T s <= t ->
        get_row (sim_states s') key t = get_row (sim_states s) key t).
Proof.
  destruct (example_run_ok all_zero all_one) as (s & g & s' & g' & Hinit & Hrun).
  exists s, g, s', g'. split; [exact Hinit|]. split; [exact Hrun|].
  exact (run_simulation_frame example_config s g s' g' Hrun).
Defined.

(** ** Accumulated debt *)

Lemma step_debt (cfg : config R) (t : nat) (s : sim R) (g : rng R)
    (s' : sim R) (g' : rng R) (l : locals R) :
  step cfg t s g = Ok (s', g', l) ->
  sim_Debt s' =
    (sim_Debt s +
     cfg_tau cfg * dot (sim_P0 s) (vadd (get_row (sim_states s') "G" t)
                                        (get_row (sim_states s') "I" t)))%R.
Proof.
  intros Hstep. run_step Hstep. injection Hstep as <- <- <-.
  cbn [sim_Debt sim_states]. subst P0 tau.
  rewrite Def_Debt, Def_Taxes, dot_vscale_l.
  assert (HG : get_row states6 "G" t = get_row states12 "G" t).
  { strip_rows. reflexivity. }
  assert (HI : get_row states6 "I" t = get_row states12 "I" t).
  { strip_rows. reflexivity. }
  rewrite HG, HI.
  rewrite (vadd_comm (get_row states12 "I" t) (get_row states12 "G" t)).
  cbn [sadd ssub smul s1 R_scalar]. ring.
Qed.

Lemma run_loop_debt (cfg : config R) (len : nat) :
  forall (a : nat) (s : sim R) (g : rng R) (sf : sim R) (gf : rng R),
    run_loop cfg (seq a len) s g = Ok (sf, gf) ->
    sim_Debt sf =
      (sim_Debt s +
       foldr Rplus 0
         (map (fun t => cfg_tau cfg *
                        dot (sim_P0 sf) (vadd (get_row (sim_states sf) "G" t)
                                              (get_row (sim_states sf) "I" t)))
              (seq a len)))%R.
Proof.
  induction len as [|len IH]; intros a s g sf gf Hrun.
  - injection Hrun as <- _. cbn. lra.
  - cbn [seq run_loop] in Hrun.
    destruct (step cfg a s g) as [[[s1 g1] l]|e] eqn:Hstep; [|discriminate Hrun].
    cbn in Hrun. rewrite (IH _ _ _ _ _ Hrun), (step_debt _ _ _ _ _ _ _ Hstep).
    cbn [seq map foldr].
    assert (Hfr : forall key, get_row (sim_states sf) key a = get_row (sim_states s1) key a).
    { intros key. apply (run_loop_frame _ _ _ _ _ _ Hrun).
      intros Hin. apply list_elem_of_In, List.in_seq in Hin. lia. }
    pose proof (run_loop_same_structure _ _ _ _ _ _ Hrun) as Hs1.
    pose proof (step_same_structure _ _ _ _ _ _ _ Hstep) as Hs0.
    destruct Hs1 as (_ & _ & _ & _ & HP1 & _).
    destruct Hs0 as (_ & _ & _ & _ & HP0 & _).
    rewrite !Hfr, HP1, HP0. ring.
Qed.

(** The debt a run returns is the sum over the simulated periods of
    [tau * P0 . (G[t] + I[t])], taken on the series the run returns. *)
Theorem final_debt_is_sum_of_deficits
    (cfg : config R) (d : data R) (entropy g : rng R) (sf : sim R) (gf : rng R) :
  simulate cfg d entropy g = Ok (sf, gf) ->
  sim_Debt sf =
    foldr Rplus 0%R
      (map (fun t => (cfg_tau cfg *
                      dot (sim_P0 sf) (vadd (get_row (sim_states sf) "G" t)
                                            (get_row (sim_states sf) "I" t)))%R)
           (seq 1 (cfg_T_plan cfg + cfg_W cfg - 1))).
Proof.
  intros Hsim. unfold simulate in Hsim.
  destruct (initialize_simulation cfg d entropy g) as [[si g1]|e] eqn:Hinit;
    [|discriminate Hsim].
  cbn [mbind res_bind] in Hsim. unfold run_simulation in Hsim.
  destruct (forecasters_ready_init _ _ _ _ _ _ Hinit) as (_ & _ & HT & _).
  rewrite HT in Hsim. rewrite (run_loop_debt _ _ _ _ _ _ _ Hsim).
  assert (H0 : sim_Debt si = 0%R).
  { clear Hsim HT. run_init Hinit. injection Hinit as <- _. reflexivity. }
  rewrite H0. lra.
Qed.

Lemma final_debt_is_sum_of_deficits_witness :
  exists sf gf,
    simulate example_config example_data all_zero all_one = Ok (sf, gf) /\
    sim_Debt sf =
      foldr Rplus 0%R
        (map (fun t => (cfg_tau example_config *
                        dot (sim_P0 sf) (vadd (get_row (sim_states sf) "G" t)
                                              (get_row (sim_states sf) "I" t)))%R)
             (seq 1 (cfg_T_plan example_config + cfg_W example_config - 1))).
Proof.
  destruct (example_simulate_ok all_zero all_one)
    as (sf & gf & Hsim).
  exists sf, gf. split; [exact Hsim|].
  exact (final_debt_is_sum_of_deficits example_config example_data all_zero all_one
           sf gf Hsim).
Defined.

(** ** The demand shares through a run *)

Lemma step_alpha (cfg : config R) (t : nat) (s : sim R) (g : rng R)
    (s' : sim R) (g' : rng R) (l : locals R) :
  step cfg t s g = Ok (s', g', l) ->
  update_alpha g (sim_alpha s) (sim_alpha_shock s) (cfg_shock_sigma cfg)
    (cfg_shock_persist cfg) (sim_mu s) = Ok (sim_alpha s', sim_alpha_shock s', g').
Proof.
  intros Hstep. run_step Hstep. injection Hstep as <- <- <-.
  cbn [sim_alpha sim_alpha_shock]. subst shock_sigma shock_persist.
  match goal with E : update_alpha _ _ _ _ _ _ = _ |- _ => exact E end.
Qed.

Lemma run_loop_alpha (cfg : config R) (ts : list nat) :
  forall (s : sim R) (g : rng R) (sf : sim R) (gf : rng R),
    run_loop cfg ts s g = Ok (sf, gf) ->
    prob_vector (sim_alpha s) ->
    length (sim_alpha_shock s) = length (sim_alpha s) ->
    length (sim_mu s) = length (sim_alpha s) ->
    prob_vector (sim_alpha sf) /\ length (sim_alpha sf) = length (sim_alpha s).
Proof.
  induction ts as [|t ts IH]; intros s g sf gf Hrun Hp Hsh Hmu.
  - injection Hrun as <- _. auto.
  - cbn [run_loop] in Hrun.
    destruct (step cfg t s g) as [[[s1 g1] l]|e] eqn:Hstep; [|discriminate Hrun].
    cbn in Hrun.
    pose proof (step_alpha _ _ _ _ _ _ _ Hstep) as Hup.
    destruct (update_alpha_invariant _ _ _ _ _ _ _ _ _ Hp Hsh Hmu Hup)
      as (Hp1 & Hl2 & Hl1).
    destruct (step_same_structure _ _ _ _ _ _ _ Hstep)
      as (_ & _ & _ & _ & _ & _ & _ & _ & _ & Hmu1 & _).
    destruct (IH s1 g1 sf gf Hrun Hp1) as [Hpf Hlf]; [congruence | congruence |].
    split; [exact Hpf | congruence].
Qed.

(** When the loaded household consumption is nonnegative with a positive
    total (and has the configured number of sectors), the demand shares are
    a probability vector at the start, and the shares a run returns still
    are one. *)
Theorem alpha_stays_probability_vector
    (cfg : config R) (d : data R) (entropy g : rng R) (sf : sim R) (gf : rng R) :
  Forall (fun x => (0 <= x)%R) (data_C_household d) ->
  (0 < vsum (data_C_household d))%R ->
  length (data_C_household d) = cfg_n cfg ->
  simulate cfg d entropy g = Ok (sf, gf) ->
  prob_vector (vdivs (data_C_household d) (vsum (data_C_household d))) /\
  prob_vector (sim_alpha sf) /\
  length (sim_alpha sf) = cfg_n cfg.
Proof.
  intros Hnn Hpos Hlen Hsim.
  assert (Hp0 : prob_vector (vdivs (data_C_household d) (vsum (data_C_household d)))).
  { split; [apply vdivs_nonneg; assumption|].
    rewrite vsum_vdivs. apply Rdiv_diag. lra. }
  split; [exact Hp0|].
  unfold simulate in Hsim.
  destruct (initialize_simulation cfg d entropy g) as [[si g1]|e] eqn:Hinit;
    [|discriminate Hsim].
  cbn [mbind res_bind] in Hsim. unfold run_simulation in Hsim.
  assert (Hi : sim_alpha si = vdivs (data_C_household d) (vsum (data_C_household d)) /\
               sim_alpha_shock si = zeros (cfg_n cfg) /\
               sim_mu si = create_mu_vector cfg).
  { clear Hsim. run_init Hinit. injection Hinit as <- _.
    cbn [sim_alpha sim_alpha_shock sim_mu]. subst alpha alpha_shock mu n.
    repeat split. }
  destruct Hi as (Ha & Hs & Hm).
  assert (Hla : length (sim_alpha si) = cfg_n cfg).
  { rewrite Ha. unfold vdivs. rewrite length_map. exact Hlen. }
  destruct (run_loop_alpha _ _ _ _ _ _ Hsim) as [Hpf Hlf].
  - rewrite Ha. exact Hp0.
  - rewrite Hs, Hla. apply length_replicate.
  - rewrite Hm, Hla. unfold create_mu_vector. rewrite length_map. apply length_seq.
  - split; [exact Hpf | congruence].
Qed.

Lemma alpha_stays_probability_vector_witness :
  exists sf gf,
    simulate example_config example_data all_zero all_one = Ok (sf, gf) /\
    prob_vector (vdivs (data_C_household example_data)
                   (vsum (data_C_household example_data))) /\
    prob_vector (sim_alpha sf) /\
    length (sim_alpha sf) = cfg_n example_config.
Proof.
  destruct (example_simulate_ok all_zero all_one)
    as (sf & gf & Hsim).
  exists sf, gf. split; [exact Hsim|].
  apply (alpha_stays_probability_vector example_config example_data all_zero all_one
           sf gf).
  - repeat constructor. simpl. lra.
  - cbn. lra.
  - reflexivity.
  - exact Hsim.
Defined.

(** ** The structural matrices *)

Section DiagonalMatrices.
Local Open Scope R_scope.
Implicit Types (d v : list R).

Lemma dot_unit_row v (j : nat) (x : R) :
  (j < length v)%nat -> dot (unit_row (length v) j x) v = x * nth j v 0.
Proof.
  intros Hj. unfold unit_row.
  etransitivity; [apply (dot_indicator j x v 0%nat)|].
  case_decide; [|lia]. rewrite Nat.sub_0_r. reflexivity.
Qed.

Lemma matvec_imap_unit_rows v :
  forall d (off : nat),
    (off + length d <= length v)%nat ->
    map (fun r => dot r v) (imap (fun i x => unit_row (length v) (off + i) x) d) =
    imap (fun i x => x * nth (off + i) v 0) d.
Proof.
  induction d as [|x d IH]; intros off Hle; [reflexivity|].
  cbn [imap map]. rewrite Nat.add_0_r.
  rewrite dot_unit_row by (simpl in Hle; lia). f_equal.
  rewrite (imap_ext _ (fun i y => unit_row (length v) (S off + i) y) d).
  2:{ intros i y _. cbn. f_equal. lia. }
  rewrite IH by (simpl in Hle; lia).
  apply imap_ext. intros i y _. cbn. do 2 f_equal. lia.
Qed.

Lemma vmul_imap v :
  forall d (off : nat),
    (off + length d <= length v)%nat ->
    vmul d (drop off v) = imap (fun i x => x * nth (off + i) v 0) d.
Proof.
  induction d as [|x d IH]; intros off Hle; [reflexivity|].
  simpl in Hle.
  destruct (drop off v) as [|y w] eqn:Hdrop.
  { apply (f_equal length) in Hdrop. rewrite length_drop in Hdrop. simpl in Hdrop. lia. }
  assert (Hy : nth off v 0 = y).
  { rewrite <- (take_drop off v) at 1. rewrite Hdrop.
    rewrite List.app_nth2 by (rewrite length_take; lia).
    rewrite length_take. replace (off - Nat.min off (length v))%nat with 0%nat by lia.
    reflexivity. }
  assert (Hw : w = drop (S off) v).
  { replace (S off) with (off + 1)%nat by lia. rewrite <- drop_drop, Hdrop. reflexivity. }
  cbn [imap]. rewrite Nat.add_0_r, Hy.
  change (vmul (x :: d) (y :: w)) with (x * y :: vmul d w).
  f_equal. rewrite Hw, IH by lia.
  apply imap_ext. intros i z _. cbn. do 2 f_equal. lia.
Qed.

(** A diagonal matrix acts entry by entry. *)
Lemma matvec_diag d v : length v = length d -> matvec (diag d) v = vmul d v.
Proof.
  intros Hlen. unfold matvec, diag. rewrite <- Hlen.
  etransitivity; [apply (matvec_imap_unit_rows v d 0); lia|].
  symmetry. apply (vmul_imap v d 0). lia.
Qed.

Lemma vmul_inverse d v :
  Forall (fun x => x <> 0) d -> length v = length d ->
  vmul (map (fun x => 1 / x) d) (vmul d v) = v /\
  vmul d (vmul (map (fun x => 1 / x) d) v) = v.
Proof.
  intros Hd. revert v. induction Hd as [|x d Hx _ IH]; intros [|y v] Hlen;
    try discriminate; [split; reflexivity|].
  destruct (IH v ltac:(simpl in Hlen; lia)) as [IH1 IH2].
  split.
  - change (1 / x * (x * y) :: vmul (map (fun x => 1 / x) d) (vmul d v) = y :: v).
    rewrite IH1. f_equal. field. exact Hx.
  - change (x * (1 / x * y) :: vmul d (vmul (map (fun x => 1 / x) d) v) = y :: v).
    rewrite IH2. f_equal. field. exact Hx.
Qed.

Lemma uniform_in_range (g : rng R) (lo hi : R) (m : nat) :
  (forall i, 0 <= g i <= 1) -> lo <= hi ->
  Forall (fun x => lo <= x <= hi) (np_random_uniform g lo hi m).1 /\
  length (np_random_uniform g lo hi m).1 = m /\
  (forall i, 0 <= (np_random_uniform g lo hi m).2 i <= 1) /\
  (forall i, (np_random_uniform g lo hi m).2 i = g (m + i)%nat).
Proof.
  intros Hg Hle. unfold np_random_uniform, draw. cbn [fst snd].
  split; [|split; [|split]].
  - apply Forall_forall. intros x Hx. apply list_elem_of_In in Hx.
    apply List.in_map_iff in Hx as (u & <- & Hu).
    apply List.in_map_iff in Hu as (i & <- & _).
    specialize (Hg i). cbn. nra.
  - rewrite !length_map. apply length_seq.
  - intros i. apply Hg.
  - reflexivity.
Qed.

End DiagonalMatrices.

Lemma existsb_szerob (b : list R) :
  Forall (fun x => x <> 0%R) b -> existsb szerob b = false.
Proof.
  induction 1 as [|x b Hx _ IH]; [reflexivity|].
  cbn. destruct (Req_EM_T x 0); [contradiction | exact IH].
Qed.

(** The diagonal the function samples, when the ranges are positive. *)
Lemma capital_intensity_regular (cfg : config R) (g : rng R) :
  (forall i, 0 <= g i <= 1)%R ->
  (0 < cfg_heavy_diag_min cfg <= cfg_heavy_diag_max cfg)%R ->
  (0 < cfg_medium_diag_min cfg <= cfg_medium_diag_max cfg)%R ->
  (0 < cfg_light_diag_min cfg <= cfg_light_diag_max cfg)%R ->
  exists b g',
    create_capital_intensity_matrix cfg g
      = Ok (diag b, diag (map (fun x => (1 / x)%R) b), g') /\
    length b = cfg_n_heavy cfg + cfg_n_medium cfg + cfg_n_light cfg /\
    Forall (fun x => (0 < x)%R) b.
Proof.
  intros Hg Hh Hm Hl.
  unfold create_capital_intensity_matrix.
  destruct (uniform_in_range g (cfg_heavy_diag_min cfg) (cfg_heavy_diag_max cfg)
              (cfg_n_heavy cfg) Hg ltac:(lra)) as (Hr1 & Hl1 & Hg1 & _).
  destruct (np_random_uniform g _ _ (cfg_n_heavy cfg)) as [hd g1]. cbn [fst snd] in *.
  destruct (uniform_in_range g1 (cfg_medium_diag_min cfg) (cfg_medium_diag_max cfg)
              (cfg_n_medium cfg) Hg1 ltac:(lra)) as (Hr2 & Hl2 & Hg2 & _).
  destruct (np_random_uniform g1 _ _ (cfg_n_medium cfg)) as [md g2]. cbn [fst snd] in *.
  destruct (uniform_in_range g2 (cfg_light_diag_min cfg) (cfg_light_diag_max cfg)
              (cfg_n_light cfg) Hg2 ltac:(lra)) as (Hr3 & Hl3 & _ & _).
  destruct (np_random_uniform g2 _ _ (cfg_n_light cfg)) as [ld g3]. cbn [fst snd] in *.
  set (b := hd ++ md ++ ld).
  assert (Hb : length b = cfg_n_heavy cfg + cfg_n_medium cfg + cfg_n_light cfg).
  { unfold b. rewrite !length_app. lia. }
  assert (Hpos : Forall (fun x => (0 < x)%R) b).
  { unfold b. rewrite !Forall_app. repeat split.
    - eapply Forall_impl; [exact Hr1|]. cbn. intros x Hx. lra.
    - eapply Forall_impl; [exact Hr2|]. cbn. intros x Hx. lra.
    - eapply Forall_impl; [exact Hr3|]. cbn. intros x Hx. lra. }
  assert (Hnz : Forall (fun x => x <> 0%R) b).
  { eapply Forall_impl; [exact Hpos|]. cbn. intros x Hx. lra. }
  rewrite (existsb_szerob b Hnz).
  exists b, g3. split; [reflexivity|]. split; [exact Hb | exact Hpos].
Qed.

Lemma capital_intensity_returns (cfg : config R) (g : rng R) :
  (forall i, 0 <= g i <= 1)%R ->
  (0 < cfg_heavy_diag_min cfg <= cfg_heavy_diag_max cfg)%R ->
  (0 < cfg_medium_diag_min cfg <= cfg_medium_diag_max cfg)%R ->
  (0 < cfg_light_diag_min cfg <= cfg_light_diag_max cfg)%R ->
  exists r, create_capital_intensity_matrix cfg g = Ok r.
Proof.
  intros Hg Hh Hm Hl.
  destruct (capital_intensity_regular cfg g Hg Hh Hm Hl) as (b & g' & Hc & _).
  eauto.
Qed.

(** The generator [create_delta_matrix] leaves still delivers variates in
    [[0, 1]]. *)
Lemma create_delta_matrix_stream (cfg : config R) (g : rng R) :
  (forall i, 0 <= g i <= 1)%R ->
  (forall i, 0 <= (create_delta_matrix cfg g).2 i <= 1)%R.
Proof.
  intros Hg. unfold create_delta_matrix, np_random_uniform, draw. cbn. intros i. apply Hg.
Qed.

(** [B_inv] is the inverse of [B]: when the configured ranges of the
    capital-intensity diagonal are positive and the generator delivers
    variates in [[0, 1]], so that no sampled entry is zero, the function
    returns, [B_inv (B v) = v] and [B (B_inv v) = v] for every vector of the
    sampled size, and [B] itself acts entry by entry with entries inside
    the configured range. *)
Theorem capital_intensity_inverse
    (cfg : config R) (g : rng R) (v : list R) :
  (forall i, 0 <= g i <= 1)%R ->
  (0 < cfg_heavy_diag_min cfg <= cfg_heavy_diag_max cfg)%R ->
  (0 < cfg_medium_diag_min cfg <= cfg_medium_diag_max cfg)%R ->
  (0 < cfg_light_diag_min cfg <= cfg_light_diag_max cfg)%R ->
  length v = cfg_n_heavy cfg + cfg_n_medium cfg + cfg_n_light cfg ->
  exists B B_inv g',
    create_capital_intensity_matrix cfg g = Ok (B, B_inv, g') /\
    matvec B_inv (matvec B v) = v /\
    matvec B (matvec B_inv v) = v /\
    exists b, B = diag b /\ matvec B v = vmul b v /\
              length b = length v /\ Forall (fun x => (0 < x)%R) b.
Proof.
  intros Hg Hh Hm Hl Hlen.
  destruct (capital_intensity_regular cfg g Hg Hh Hm Hl) as (b & g' & Hc & Hb & Hpos).
  exists (diag b), (diag (map (fun x => (1 / x)%R) b)), g'.
  split; [exact Hc|].
  assert (Hbv : length b = length v) by congruence.
  assert (Hnz : Forall (fun x => x <> 0%R) b).
  { eapply Forall_impl; [exact Hpos|]. cbn. intros x Hx. lra. }
  destruct (vmul_inverse b v Hnz (eq_sym Hbv)) as [Hinv1 Hinv2].
  set (bi := map (fun x => (1 / x)%R) b).
  assert (E1 : forall w, length w = length b -> matvec (diag b) w = vmul b w).
  { intros w Hw. apply matvec_diag. exact Hw. }
  assert (E2 : forall w, length w = length b -> matvec (diag bi) w = vmul bi w).
  { intros w Hw. apply matvec_diag. unfold bi. rewrite length_map. exact Hw. }
  assert (L1 : length (vmul b v) = length b).
  { unfold vmul. rewrite length_zip_with. lia. }
  assert (L2 : length (vmul bi v) = length b).
  { unfold vmul, bi. rewrite length_zip_with, length_map. lia. }
  split; [|split].
  - rewrite (E1 v) by congruence. rewrite E2 by exact L1. exact Hinv1.
  - rewrite (E2 v) by congruence. rewrite E1 by exact L2. exact Hinv2.
  - exists b. split; [reflexivity|]. split; [apply E1; congruence|].
    split; [exact Hbv | exact Hpos].
Qed.

Lemma capital_intensity_inverse_witness :
  exists B B_inv g',
    create_capital_intensity_matrix example_config all_one = Ok (B, B_inv, g') /\
    matvec B_inv (matvec B [3%R]) = [3%R] /\
    matvec B (matvec B_inv [3%R]) = [3%R] /\
    exists b, B = diag b /\ matvec B [3%R] = vmul b [3%R] /\
              length b = length [3%R] /\ Forall (fun x => (0 < x)%R) b.
Proof.
  apply (capital_intensity_inverse example_config all_one [3%R]).
  - intros i. unfold all_one. lra.
  - simpl. lra.
  - simpl. lra.
  - simpl. lra.
  - reflexivity.
Defined.

(** ** A window below 2 *)

(** With a window [W <= 1] and a horizon of at least 2 periods the run
    stops in its first period with the "not fitted" error of [predict]: the
    forecaster is fitted on a history of at most one entry.  The run gets
    as far as [predict]: the capital-intensity ranges are positive and the
    uniform variates lie in [[0, 1]], so that [B] has an inverse, the
    volatility is not negative, and the data have the configured shapes. *)
Theorem window_below_two_fails
    (cfg : config R) (d : data R) (entropy g : rng R) :
  cfg_W cfg <= 1 ->
  2 <= cfg_T_plan cfg + cfg_W cfg ->
  cfg_n cfg = cfg_n_heavy cfg + cfg_n_medium cfg + cfg_n_light cfg ->
  is_matrix (cfg_n cfg) (cfg_n cfg) (data_A d) ->
  length (data_va_per_unit d) = cfg_n cfg ->
  length (data_total_output d) = cfg_n cfg ->
  length (data_C_household d) = cfg_n cfg ->
  length (data_G_government d) = cfg_n cfg ->
  (0 <= cfg_shock_sigma cfg)%R ->
  (forall i, 0 <= entropy i <= 1)%R ->
  (cfg_delta_heavy_min cfg <= cfg_delta_heavy_max cfg)%R ->
  (cfg_delta_medium_min cfg <= cfg_delta_medium_max cfg)%R ->
  (cfg_delta_light_min cfg <= cfg_delta_light_max cfg)%R ->
  (0 < cfg_heavy_diag_min cfg <= cfg_heavy_diag_max cfg)%R ->
  (0 < cfg_medium_diag_min cfg <= cfg_medium_diag_max cfg)%R ->
  (0 < cfg_light_diag_min cfg <= cfg_light_diag_max cfg)%R ->
  simulate cfg d entropy g = Err ValueError_not_fitted.
Proof.
  intros HW HT _ _ _ _ _ _ Hs He _ _ _ Hh Hm Hl.
  apply simulate_short_window; [exact HW | exact HT | apply snegb_false, Hs |].
  apply capital_intensity_returns; [|assumption..].
  apply create_delta_matrix_stream, He.
Qed.

Lemma window_below_two_fails_witness :
  simulate (num := R)
    {| cfg_n := 1; cfg_k := 2; cfg_T_plan := 2; cfg_W := 1;
       cfg_random_seed := 42;
       cfg_tau := (1/2)%R; cfg_b := (1/10)%R;
       cfg_shock_sigma := (1/100)%R; cfg_shock_persist := (1/2)%R;
       cfg_g_a := (3/100)%R; cfg_initial_capacity_buffer := (11/10)%R;
       cfg_n_heavy := 1; cfg_n_medium := 0; cfg_n_light := 0;
       cfg_delta_heavy_min := 0%R; cfg_delta_heavy_max := 12%R;
       cfg_delta_medium_min := 0%R; cfg_delta_medium_max := 0%R;
       cfg_delta_light_min := 0%R; cfg_delta_light_max := 0%R;
       cfg_heavy_diag_min := 1%R; cfg_heavy_diag_max := 1%R;
       cfg_medium_diag_min := 1%R; cfg_medium_diag_max := 1%R;
       cfg_light_diag_min := 1%R; cfg_light_diag_max := 1%R;
       cfg_mu_heavy := 0%R; cfg_mu_medium := 0%R; cfg_mu_light := 0%R |}
    example_data all_zero all_one = Err ValueError_not_fitted.
Proof.
  apply window_below_two_fails.
  - simpl. lia.
  - simpl. lia.
  - reflexivity.
  - split; [reflexivity | repeat constructor].
  - reflexivity.
  - reflexivity.
  - reflexivity.
  - reflexivity.
  - simpl. lra.
  - intros i. unfold all_zero. lra.
  - simpl. lra.
  - simpl. lra.
  - simpl. lra.
  - simpl. lra.
  - simpl. lra.
  - simpl. lra.
Defined.


Lemma vdivs_in_range (u : list R) (lo hi : R) :
  Forall (fun x => lo <= x <= hi)%R u ->
  Forall (fun x => lo / 12 <= x <= hi / 12)%R (vdivs u twelve).
Proof.
  intros Hu. unfold vdivs. rewrite twelve_eq. apply Forall_forall.
  intros y Hy. apply list_elem_of_In, List.in_map_iff in Hy as (x & <- & Hx).
  apply list_elem_of_In in Hx. rewrite Forall_forall in Hu. specialize (Hu x Hx).
  cbn. lra.
Qed.

(** The depreciation matrix is diagonal, of size
    [n_heavy + n_medium + n_light], and when the generator delivers variates
    in [[0, 1]] every monthly rate of a class lies between one twelfth of
    the annual minimum and one twelfth of the annual maximum configured for
    that class. *)
Theorem depreciation_rates_in_range (cfg : config R) (g : rng R) :
  (forall i, 0 <= g i <= 1)%R ->
  (cfg_delta_heavy_min cfg <= cfg_delta_heavy_max cfg)%R ->
  (cfg_delta_medium_min cfg <= cfg_delta_medium_max cfg)%R ->
  (cfg_delta_light_min cfg <= cfg_delta_light_max cfg)%R ->
  exists dh dm dl,
    (create_delta_matrix cfg g).1 = diag (dh ++ dm ++ dl) /\
    length dh = cfg_n_heavy cfg /\
    length dm = cfg_n_medium cfg /\
    length dl = cfg_n_light cfg /\
    Forall (fun x => cfg_delta_heavy_min cfg / 12 <= x <= cfg_delta_heavy_max cfg / 12)%R dh /\
    Forall (fun x => cfg_delta_medium_min cfg / 12 <= x <= cfg_delta_medium_max cfg / 12)%R dm /\
    Forall (fun x => cfg_delta_light_min cfg / 12 <= x <= cfg_delta_light_max cfg / 12)%R dl.
Proof.
  intros Hg Hh Hm Hl. unfold create_delta_matrix.
  destruct (uniform_in_range g (cfg_delta_heavy_min cfg) (cfg_delta_heavy_max cfg)
              (cfg_n_heavy cfg) Hg Hh) as (Hr1 & Hl1 & Hg1 & _).
  destruct (np_random_uniform g _ _ (cfg_n_heavy cfg)) as [dh g1]. cbn [fst snd] in *.
  destruct (uniform_in_range g1 (cfg_delta_medium_min cfg) (cfg_delta_medium_max cfg)
              (cfg_n_medium cfg) Hg1 Hm) as (Hr2 & Hl2 & Hg2 & _).
  destruct (np_random_uniform g1 _ _ (cfg_n_medium cfg)) as [dm g2]. cbn [fst snd] in *.
  destruct (uniform_in_range g2 (cfg_delta_light_min cfg) (cfg_delta_light_max cfg)
              (cfg_n_light cfg) Hg2 Hl) as (Hr3 & Hl3 & _ & _).
  destruct (np_random_uniform g2 _ _ (cfg_n_light cfg)) as [dl g3]. cbn [fst snd] in *.
  exists (vdivs dh twelve), (vdivs dm twelve), (vdivs dl twelve).
  split; [reflexivity|].
  unfold vdivs at 1 2 3. rewrite !length_map.
  repeat split; try assumption; apply vdivs_in_range; assumption.
Qed.

Lemma depreciation_rates_in_range_witness :
  exists dh dm dl,
    (create_delta_matrix example_config all_one).1 = diag (dh ++ dm ++ dl) /\
    length dh = cfg_n_heavy example_config /\
    length dm = cfg_n_medium example_config /\
    length dl = cfg_n_light example_config /\
    Forall (fun x => cfg_delta_heavy_min example_config / 12 <= x
                     <= cfg_delta_heavy_max example_config / 12)%R dh /\
    Forall (fun x => cfg_delta_medium_min example_config / 12 <= x
                     <= cfg_delta_medium_max example_config / 12)%R dm /\
    Forall (fun x => cfg_delta_light_min example_config / 12 <= x
                     <= cfg_delta_light_max example_config / 12)%R dl.
Proof.
  apply (depreciation_rates_in_range example_config all_one).
  - intros i. unfold all_one. lra.
  - simpl. lra.
  - simpl. lra.
  - simpl. lra.
Defined.

(** ** The convergence test of the series *)

Section ConvergenceTest.
Context {num : Type} `{Scalar num}.
Variable slt : num -> num -> bool.
Variables (A : list (list num)) (v : list num) (tolerance : num).

Local Abbreviation below k := (slt (term_error A v k) (tolerance *! hundred)).
Local Abbreviation start :=
  {| cl_x := v; cl_term := v; cl_errors := [];
     cl_converged := false; cl_converged_k := None |}.
Local Abbreviation after k :=
  (foldl (convergence_body slt A (norm v) tolerance) start (seq 1 k)).

Lemma find_snoc {X} (p : X -> bool) (l : list X) (a : X) :
  find p (l ++ [a]) =
  match find p l with Some x => Some x | None => if p a then Some a else None end.
Proof.
  induction l as [|x l IH]; cbn; [reflexivity|]. destruct (p x); [reflexivity|exact IH].
Qed.

Lemma find_seq_first (p : nat -> bool) :
  forall m a k, find p (seq a m) = Some k ->
    a <= k < a + m /\ p k = true /\ forall j, a <= j < k -> p j = false.
Proof.
  induction m as [|m IH]; intros a k Hf; [discriminate|].
  cbn in Hf. destruct (p a) eqn:Hpa.
  - injection Hf as <-. repeat split; [lia..|assumption|]. intros j Hj. lia.
  - destruct (IH _ _ Hf) as (Hr & Hk & Hfirst). repeat split; [lia..|assumption|].
    intros j Hj. destruct (decide (j = a)) as [->|Hne]; [exact Hpa|].
    apply Hfirst. lia.
Qed.

Lemma find_seq_none (p : nat -> bool) m a :
  find p (seq a m) = None -> forall j, a <= j < a + m -> p j = false.
Proof.
  intros Hf j Hj. apply (find_none p _ Hf). apply in_seq. lia.
Qed.

(** The state of the loop after [k] passes. *)
Lemma convergence_loop k :
  cl_term (after k) = Nat.iter k (matvec A) v /\
  cl_errors (after k) = map (term_error A v) (seq 1 k) /\
  cl_converged_k (after k) = find (fun j => below j) (seq 1 k) /\
  cl_converged (after k) = bool_decide (is_Some (cl_converged_k (after k))).
Proof.
  induction k as [|k (IHt & IHe & IHk & IHc)].
  - cbn. repeat split.
  - rewrite seq_S, foldl_app. cbn [foldl Nat.add].
    rewrite map_app, find_snoc. cbn [map].
    destruct (after k) as [x term errs cv ck].
    cbn [cl_term cl_errors cl_converged cl_converged_k] in IHt, IHe, IHk, IHc.
    subst term errs cv. rewrite <- IHk.
    unfold convergence_body. cbn [cl_term cl_errors cl_converged cl_converged_k cl_x].
    change (norm (matvec A (Nat.iter k (matvec A) v)) /! norm v *! hundred)
      with (term_error A v (S k)).
    destruct (below (S k)), ck as [j|]; cbn; repeat split.
Qed.

Lemma last_map_seq {X} (f : nat -> X) k : last (map f (seq 1 (S k))) = Some (f (S k)).
Proof. rewrite seq_S, map_app. cbn [map]. apply last_snoc. Qed.

End ConvergenceTest.

(** [test_neumann_convergence] on conforming shapes.  With [k_max = 0] the
    loop does not run and the function fails with an IndexError at
    [errors[-1]].  With [k_max >= 1] it returns: ['errors'] holds, for
    [k = 1 .. k_max], the size of the term [A^k v] relative to [v] in
    percent, ['final_error'] is the last of them, ['tolerance'] is the
    tolerance in percent, ['converged_k'] is the first [k] whose error is
    below the tolerance ([None] when there is none), and ['converged'] says
    whether there is one. *)
Theorem convergence_test_result {num : Type} `{Scalar num} (slt : num -> num -> bool)
    (n : nat) (A : list (list num)) (v : list num) (k_max : nat) (tolerance : num) :
  is_matrix n n A -> length v = n ->
  (k_max = 0 -> test_neumann_convergence slt A v k_max tolerance = Err IndexError) /\
  (0 < k_max ->
   exists r, test_neumann_convergence slt A v k_max tolerance = Ok r /\
     conv_errors r = map (term_error A v) (seq 1 k_max) /\
     conv_final_error r = term_error A v k_max /\
     conv_tolerance r = tolerance *! hundred /\
     conv_converged r = bool_decide (is_Some (conv_converged_k r)) /\
     (forall k, conv_converged_k r = Some k ->
        1 <= k <= k_max /\
        slt (term_error A v k) (tolerance *! hundred) = true /\
        forall j, 1 <= j < k -> slt (term_error A v j) (tolerance *! hundred) = false) /\
     (conv_converged_k r = None ->
        forall j, 1 <= j <= k_max ->
          slt (term_error A v j) (tolerance *! hundred) = false)).
Proof.
  intros _ _. split.
  - intros ->. reflexivity.
  - intros Hk. destruct k_max as [|k]; [lia|].
    destruct (convergence_loop slt A v tolerance (S k)) as (Ht & He & Hck & Hc).
    unfold test_neumann_convergence. cbv zeta.
    set (l := foldl _ _ _) in *.
    assert (Hlast : last_entry (cl_errors l) = Ok (term_error A v (S k))).
    { unfold last_entry. rewrite He, last_map_seq. reflexivity. }
    rewrite Hlast.
    eexists. split.
    { destruct (negb (cl_converged l)); reflexivity. }
    cbn [conv_errors conv_final_error conv_tolerance conv_converged conv_converged_k].
    split; [exact He|]. split; [reflexivity|]. split; [reflexivity|].
    split; [exact Hc|]. rewrite Hck. split.
    + intros k0 Hk0.
      destruct (find_seq_first _ _ _ _ Hk0) as (Hr & Hb & Hf).
      split; [lia|]. split; [exact Hb | exact Hf].
    + intros Hn j Hj. apply (find_seq_none _ _ _ Hn). lia.
Qed.

Lemma convergence_test_result_witness :
  let slt := fun a b : R => if Rlt_dec a b then true else false in
  let A := [[(1 / 2)%R]] in
  let v := [1%R] in
  let tolerance := (1 / 100)%R in
  (2 = 0 -> test_neumann_convergence slt A v 2 tolerance = Err IndexError) /\
  (0 < 2 ->
   exists r, test_neumann_convergence slt A v 2 tolerance = Ok r /\
     conv_errors r = map (term_error A v) (seq 1 2) /\
     conv_final_error r = term_error A v 2 /\
     conv_tolerance r = tolerance *! hundred /\
     conv_converged r = bool_decide (is_Some (conv_converged_k r)) /\
     (forall k, conv_converged_k r = Some k ->
        1 <= k <= 2 /\
        slt (term_error A v k) (tolerance *! hundred) = true /\
        forall j, 1 <= j < k -> slt (term_error A v j) (tolerance *! hundred) = false) /\
     (conv_converged_k r = None ->
        forall j, 1 <= j <= 2 ->
          slt (term_error A v j) (tolerance *! hundred) = false)).
Proof.
  intros slt A v tolerance.
  apply (convergence_test_result slt 1 A v 2 tolerance).
  - split; [reflexivity | repeat constructor].
  - reflexivity.
Defined.

(** ** Fitting a series that follows the recurrence exactly *)

Section ExactFit.
Local Open Scope R_scope.
Implicit Types (x y : list R).

Lemma sofnat_INR (m : nat) : sofnat (num := R) m = INR m.
Proof.
  induction m as [|m IH]; [reflexivity|].
  rewrite S_INR, <- IH. reflexivity.
Qed.

Lemma vsum_affine phi c x :
  vsum (affine phi c x) = phi * vsum x + INR (length x) * c.
Proof.
  induction x as [|a x IH]; [cbn; ring|].
  change (vsum (affine phi c (a :: x))) with (phi * a + c + vsum (affine phi c x)).
  rewrite IH. change (length (a :: x)) with (S (length x)). rewrite S_INR.
  rewrite vsum_cons. ring.
Qed.

Lemma dot_affine phi c x :
  dot x (affine phi c x) = phi * dot x x + c * vsum x.
Proof.
  induction x as [|a x IH]; [cbn; ring|].
  change (affine phi c (a :: x)) with (phi * a + c :: affine phi c x).
  rewrite !dot_cons, IH, vsum_cons. ring.
Qed.

Lemma vsub_self y : vsub y y = map (fun _ => 0) y.
Proof.
  induction y as [|a y IH]; [reflexivity|].
  change (a - a :: vsub y y = 0 :: map (fun _ => 0) y). rewrite IH. f_equal. ring.
Qed.

Lemma vsum_const_zero {X} (l : list X) : vsum (map (fun _ => 0) l) = 0.
Proof. induction l as [|a l IH]; [reflexivity|]. cbn [map]. rewrite vsum_cons, IH. ring. Qed.

Lemma std_ddof1_zero {X} (l : list X) : std_ddof1 (map (fun _ => 0) l) = 0.
Proof.
  unfold std_ddof1. cbv zeta. rewrite vsum_const_zero, map_map.
  change (sqrt (vsum (map (fun _ : X => (0 - 0 / sofnat (length (map (fun _ => 0) l)))
                                       * (0 - 0 / sofnat (length (map (fun _ => 0) l)))) l)
                / (sofnat (length (map (fun _ => 0) l)) - 1)) = 0).
  rewrite (map_ext _ (fun _ => 0)) by (intros; unfold Rdiv; ring).
  rewrite vsum_const_zero. unfold Rdiv. rewrite Rmult_0_l. apply sqrt_0.
Qed.

Lemma sum_sq_dev a x :
  vsum (map (fun z => (z - a) * (z - a)) x) =
  dot x x - 2 * a * vsum x + INR (length x) * (a * a).
Proof.
  induction x as [|b x IH]; [cbn; ring|].
  cbn [map]. rewrite vsum_cons, IH, dot_cons, vsum_cons.
  change (length (b :: x)) with (S (length x)). rewrite S_INR. ring.
Qed.

Lemma sum_sq_zero a x :
  vsum (map (fun z => (z - a) * (z - a)) x) = 0 -> Forall (fun z => z = a) x.
Proof.
  induction x as [|b x IH]; intros Hs; [constructor|].
  cbn [map] in Hs. rewrite vsum_cons in Hs.
  assert (Hn : 0 <= vsum (map (fun z => (z - a) * (z - a)) x)).
  { apply vsum_nonneg, Forall_forall. intros z Hz.
    apply list_elem_of_In, List.in_map_iff in Hz as (w & <- & _).
    apply Rle_0_sqr. }
  pose proof (Rle_0_sqr (b - a)) as Hsq. unfold Rsqr in Hsq.
  assert (Hb : (b - a) * (b - a) = 0) by lra.
  constructor.
  - apply Rmult_integral in Hb. lra.
  - apply IH. lra.
Qed.

(** The normal equations of the line fit are regular as soon as two
    abscissas differ. *)
Lemma det_nonzero x (a b : R) :
  In a x -> In b x -> a <> b ->
  INR (length x) * dot x x - vsum x * vsum x <> 0.
Proof.
  intros Ha Hb Hab Hdet.
  assert (Hm : INR (length x) <> 0).
  { destruct x; [destruct Ha|]. apply not_0_INR. discriminate. }
  pose proof (sum_sq_dev (vsum x / INR (length x)) x) as Hdev.
  assert (Hz : vsum (map (fun z => (z - vsum x / INR (length x))
                                   * (z - vsum x / INR (length x))) x) = 0).
  { rewrite Hdev.
    apply (Rmult_eq_reg_l (INR (length x))); [|exact Hm].
    rewrite Rmult_0_r. rewrite <- Hdet. field. exact Hm. }
  apply sum_sq_zero in Hz. rewrite Forall_forall in Hz.
  apply Hab. rewrite (Hz a), (Hz b) by (apply list_elem_of_In; assumption).
  reflexivity.
Qed.

Lemma lstsq_line_affine phi c x (a b : R) :
  In a x -> In b x -> a <> b ->
  lstsq_line x (affine phi c x) = (phi, c).
Proof.
  intros Ha Hb Hab. pose proof (det_nonzero x a b Ha Hb Hab) as Hdet.
  assert (Hm : INR (length x) <> 0).
  { destruct x; [destruct Ha|]. apply not_0_INR. discriminate. }
  unfold lstsq_line. cbv zeta. rewrite sofnat_INR.
  change (szerob (INR (length x) *! dot x x -! vsum x *! vsum x))
    with (if Req_EM_T (INR (length x) * dot x x - vsum x * vsum x) 0
          then true else false).
  destruct (Req_EM_T _ 0) as [Hz|_]; [contradiction|].
  rewrite dot_affine, vsum_affine.
  assert (Hphi : (INR (length x) * (phi * dot x x + c * vsum x)
                  - vsum x * (phi * vsum x + INR (length x) * c))
                 / (INR (length x) * dot x x - vsum x * vsum x) = phi).
  { field. exact Hdet. }
  change ((((INR (length x) * (phi * dot x x + c * vsum x)
             - vsum x * (phi * vsum x + INR (length x) * c))
            / (INR (length x) * dot x x - vsum x * vsum x)),
           ((phi * vsum x + INR (length x) * c
             - (INR (length x) * (phi * dot x x + c * vsum x)
                - vsum x * (phi * vsum x + INR (length x) * c))
               / (INR (length x) * dot x x - vsum x * vsum x) * vsum x)
            / INR (length x))) = (phi, c)).
  rewrite Hphi. f_equal. field. exact Hm.
Qed.

Lemma fit_ar1_gaussian_affine (series : list R) (phi c a b : R) :
  tail series = affine phi c (removelast series) ->
  In a (removelast series) -> In b (removelast series) -> a <> b ->
  fit_ar1_gaussian series = (phi, c, 0).
Proof.
  intros Hrec Ha Hb Hab. unfold fit_ar1_gaussian. cbv zeta.
  rewrite Hrec, (lstsq_line_affine phi c _ a b Ha Hb Hab).
  rewrite vsub_self. unfold affine at 1. rewrite map_map.
  rewrite std_ddof1_zero. reflexivity.
Qed.

End ExactFit.

(** [fit_ar1_gaussian] recovers an exact recurrence: when every entry of
    the series after the first is [phi] times the entry before it plus [c],
    and the entries before the last are not all equal, the fit returns
    exactly [phi] and [c], with residual deviation 0. *)
Theorem fit_recovers_exact_recurrence (series : list R) (phi c a b : R) :
  tail series = affine phi c (removelast series) ->
  In a (removelast series) -> In b (removelast series) -> a <> b ->
  fit_ar1_gaussian series = (phi, c, 0%R).
Proof. exact (fit_ar1_gaussian_affine series phi c a b). Qed.

Lemma fit_recovers_exact_recurrence_witness :
  fit_ar1_gaussian [1; 3; 7]%R = (2, 1, 0)%R.
Proof.
  apply (fit_recovers_exact_recurrence [1; 3; 7]%R 2 1 1 3)%R.
  - cbn. repeat f_equal; ring.
  - cbn. tauto.
  - cbn. tauto.
  - lra.
Defined.

Section ExactForecast.
Import AR1Forecaster.
Local Open Scope R_scope.

Lemma removelast_map {X Y} (f : X -> Y) (l : list X) :
  removelast (map f l) = map f (removelast l).
Proof.
  induction l as [|a [|b l] IH]; [reflexivity..|].
  change (f a :: removelast (map f (b :: l)) = f a :: map f (removelast (b :: l))).
  rewrite IH. reflexivity.
Qed.

Lemma nth_zip_with (f : R -> R -> R) :
  forall (u w : list R) (i : nat),
    (i < length u)%nat -> (i < length w)%nat ->
    nth i (zip_with f u w) 0 = f (nth i u 0) (nth i w 0).
Proof.
  induction u as [|a u IH]; intros [|b w] i Hu Hw; simpl in *; try lia.
  destruct i; [reflexivity|]. apply IH; lia.
Qed.

Lemma nth_recurrence (phis cs u : list R) (n i : nat) :
  length phis = n -> length cs = n -> length u = n -> (i < n)%nat ->
  nth i (vadd (vmul phis u) cs) 0 = nth i phis 0 * nth i u 0 + nth i cs 0.
Proof.
  intros Hp Hc Hu Hi. unfold vadd, vmul.
  rewrite nth_zip_with by (rewrite ?length_zip_with; lia).
  rewrite nth_zip_with by lia. reflexivity.
Qed.

Lemma follows_recurrence_tail phis cs u h :
  follows_recurrence phis cs (u :: h) -> follows_recurrence phis cs h.
Proof. intros Hrec t a b Ha Hb. exact (Hrec (S t) a b Ha Hb). Qed.

Lemma column_recurrence (phis cs : list R) (n i : nat) :
  length phis = n -> length cs = n -> (i < n)%nat ->
  forall h, Forall (fun u => length u = n) h ->
    follows_recurrence phis cs h ->
    tail (column h i) = affine (nth i phis 0) (nth i cs 0) (removelast (column h i)).
Proof.
  intros Hp Hc Hi. induction h as [|u [|w h] IH]; intros Hrows Hrec; [reflexivity..|].
  specialize (IH ltac:(inversion Hrows; assumption) (follows_recurrence_tail _ _ _ _ Hrec)).
  change (column (u :: w :: h) i) with (nth i u 0 :: column (w :: h) i).
  change (tail (nth i u 0 :: column (w :: h) i)) with (column (w :: h) i).
  change (removelast (nth i u 0 :: column (w :: h) i))
    with (nth i u 0 :: removelast (column (w :: h) i)).
  change (affine (nth i phis 0) (nth i cs 0) (nth i u 0 :: removelast (column (w :: h) i)))
    with (nth i phis 0 * nth i u 0 + nth i cs 0
          :: affine (nth i phis 0) (nth i cs 0) (removelast (column (w :: h) i))).
  rewrite <- IH.
  change (column (w :: h) i) with (nth i w 0 :: column h i).
  change (tail (nth i w 0 :: column h i)) with (column h i).
  f_equal. rewrite (Hrec 0%nat u w eq_refl eq_refl).
  apply (nth_recurrence phis cs u n i Hp Hc); [|exact Hi].
  inversion Hrows; assumption.
Qed.

Lemma map_const_seq {X} (x : X) m a : map (fun _ => x) (seq a m) = replicate m x.
Proof.
  revert a. induction m as [|m IH]; intros a; [reflexivity|].
  cbn. f_equal. apply IH.
Qed.

Lemma fit_exact (f : t (num := R)) (phis cs : list R) (n : nat) :
  (2 <= length (history f))%nat ->
  Forall (fun u => length u = n) (history f) ->
  length phis = n -> length cs = n ->
  follows_recurrence phis cs (history f) ->
  (forall i, (i < n)%nat -> exists u w,
      In u (removelast (history f)) /\ In w (removelast (history f)) /\
      nth i u 0 <> nth i w 0) ->
  fit f = mk (window_size f) (history f) (Some phis) (Some cs)
             (Some (if (n =? 1)%nat then Num 0 else Arr (zeros n))) true.
Proof.
  intros Hlen Hrows Hp Hc Hrec Hvar.
  assert (Hcol : forall i, (i < n)%nat ->
            fit_ar1_gaussian (column (history f) i) = (nth i phis 0, nth i cs 0, 0)).
  { intros i Hi. destruct (Hvar i Hi) as (u & w & Hu & Hw & Hne).
    apply (fit_ar1_gaussian_affine _ _ _ (nth i u 0) (nth i w 0)).
    - apply (column_recurrence phis cs n i Hp Hc Hi _ Hrows Hrec).
    - unfold column. rewrite removelast_map. apply (in_map (fun v => nth i v 0)), Hu.
    - unfold column. rewrite removelast_map. apply (in_map (fun v => nth i v 0)), Hw.
    - exact Hne. }
  unfold fit.
  destruct (Nat.ltb_spec (length (history f)) 2) as [Hlt|_]; [lia|].
  assert (Hn : length (hd [] (history f)) = n).
  { destruct (history f) as [|u h]; [simpl in Hlen; lia|]. inversion Hrows; assumption. }
  rewrite Hn. destruct (Nat.eqb_spec n 1) as [->|Hn1].
  - rewrite (Hcol 0%nat) by lia.
    destruct phis as [|p [|? ?]]; try discriminate.
    destruct cs as [|c0 [|? ?]]; try discriminate. reflexivity.
  - rewrite (map_ext_in _ (fun i => (nth i phis 0, nth i cs 0, 0))).
    2:{ intros i Hi. apply in_seq in Hi. apply Hcol. lia. }
    rewrite !map_map. cbn [fst snd].
    rewrite <- Hp at 1. rewrite map_nth_seq.
    rewrite <- Hc at 1. rewrite map_nth_seq.
    rewrite map_const_seq. reflexivity.
Qed.

End ExactForecast.

(** A forecaster whose history follows the recurrence
    [V(t+1) = phi * V(t) + c] exactly, with every variable taking two
    different values among the observations before the last, is fitted with
    exactly these [phi] and [c] and with residual deviation 0, and its
    prediction from a value of the same length is the recurrence applied to
    that value. *)
Theorem fit_then_predict_continues_recurrence
    (f : AR1Forecaster.t (num := R)) (phis cs last_value : list R) (n : nat) :
  2 <= length (AR1Forecaster.history f) ->
  Forall (fun u => length u = n) (AR1Forecaster.history f) ->
  length phis = n -> length cs = n ->
  follows_recurrence phis cs (AR1Forecaster.history f) ->
  (forall i, i < n -> exists u w,
      In u (removelast (AR1Forecaster.history f)) /\
      In w (removelast (AR1Forecaster.history f)) /\
      nth i u 0%R <> nth i w 0%R) ->
  length last_value = n ->
  let f' := AR1Forecaster.fit f in
  AR1Forecaster.is_fitted f' = true /\
  AR1Forecaster.phi f' = Some phis /\
  AR1Forecaster.c f' = Some cs /\
  AR1Forecaster.sigma f' = Some (if n =? 1 then Num 0%R else Arr (zeros n)) /\
  AR1Forecaster.predict1 f' last_value = Ok (vadd (vmul phis last_value) cs).
Proof.
  intros Hlen Hrows Hp Hc Hrec Hvar _. cbv zeta.
  rewrite (fit_exact f phis cs n Hlen Hrows Hp Hc Hrec Hvar).
  repeat split.
Qed.

Lemma fit_then_predict_continues_recurrence_witness :
  let f := AR1Forecaster.mk 3 [[1; 0]; [3; 1]; [7; 2]]%R None None None false in
  let f' := AR1Forecaster.fit f in
  AR1Forecaster.is_fitted f' = true /\
  AR1Forecaster.phi f' = Some [2; 1]%R /\
  AR1Forecaster.c f' = Some [1; 1]%R /\
  AR1Forecaster.sigma f' = Some (if 2 =? 1 then Num 0%R else Arr (zeros 2)) /\
  AR1Forecaster.predict1 f' [7; 2]%R = Ok (vadd (vmul [2; 1]%R [7; 2]%R) [1; 1]%R).
Proof.
  intros f.
  apply (fit_then_predict_continues_recurrence f [2; 1]%R [1; 1]%R [7; 2]%R 2).
  - simpl. lia.
  - repeat constructor.
  - reflexivity.
  - reflexivity.
  - intros [|[|[|t]]] u w Hu Hw; simpl in Hu, Hw; try discriminate;
      injection Hu as <-; injection Hw as <-; cbn; repeat f_equal; ring.
  - intros i Hi. exists [1; 0]%R, [3; 1]%R. simpl.
    split; [tauto|]. split; [tauto|].
    destruct i as [|[|i]]; simpl; [lra | lra | lia].
  - reflexivity.
Defined.

(** ** Predictions several steps ahead *)

Section MultiStep.
Import AR1Forecaster.
Context {num : Type} `{Scalar num}.
Implicit Types (ph cc cur : list num).

Lemma length_predict_loop ph cc n_steps :
  forall cur, length (predict_loop ph cc cur n_steps) = n_steps.
Proof. induction n_steps as [|m IH]; intros cur; [reflexivity|]. cbn. rewrite IH. reflexivity. Qed.

Lemma predict_loop_chain ph cc n_steps :
  forall cur k u w,
    predict_loop ph cc cur n_steps !! k = Some u ->
    predict_loop ph cc cur n_steps !! S k = Some w ->
    w = vadd (vmul ph u) cc.
Proof.
  induction n_steps as [|m IH]; intros cur k u w Hu Hw; [discriminate|].
  cbn [predict_loop] in Hu, Hw. destruct k as [|k].
  - injection Hu as <-. destruct m as [|m]; [discriminate|].
    cbn in Hw. injection Hw as <-. reflexivity.
  - exact (IH _ k u w Hu Hw).
Qed.

Lemma predict_loop_lengths ph cc n_steps :
  forall cur, length ph = length cur -> length cc = length cur ->
    Forall (fun u => length u = length cur) (predict_loop ph cc cur n_steps).
Proof.
  induction n_steps as [|m IH]; intros cur Hp Hc; [constructor|].
  cbn [predict_loop].
  assert (Hn : length (vadd (vmul ph cur) cc) = length cur).
  { unfold vadd, vmul. rewrite !length_zip_with. lia. }
  constructor; [exact Hn|].
  rewrite <- Hn. apply IH; congruence.
Qed.

End MultiStep.

(** A prediction [n_steps >= 2] ahead on a fitted forecaster, from a value
    of the length of the fitted parameters, returns the list of [n_steps]
    values in which the first is the one-step prediction from [last_value]
    and every later one is the one-step prediction from the value before
    it; all of them have that same length. *)
Theorem multi_step_prediction_chains_one_step {num : Type} `{Scalar num}
    (f : AR1Forecaster.t (num := num)) (ph cc last_value : list num) (m : nat) :
  AR1Forecaster.is_fitted f = true ->
  AR1Forecaster.phi f = Some ph -> AR1Forecaster.c f = Some cc ->
  length ph = length last_value -> length cc = length last_value ->
  exists vs,
    AR1Forecaster.predict f last_value (S (S m)) = Ok (AR1Forecaster.Many vs) /\
    length vs = S (S m) /\
    Forall (fun u => length u = length last_value) vs /\
    (exists u0, vs !! 0 = Some u0 /\
       AR1Forecaster.predict f last_value 1 = Ok (AR1Forecaster.One u0)) /\
    (forall k u w, vs !! k = Some u -> vs !! S k = Some w ->
       AR1Forecaster.predict f u 1 = Ok (AR1Forecaster.One w)).
Proof.
  intros Hfit Hph Hcc Hlp Hlc.
  unfold AR1Forecaster.predict. rewrite Hfit, Hph, Hcc. cbn [negb Nat.eqb].
  eexists. split; [reflexivity|]. split; [apply length_predict_loop|]. split.
  - apply predict_loop_lengths; assumption.
  - split.
    + eexists. split; reflexivity.
    + intros k u w Hu Hw. cbn [AR1Forecaster.predict_loop hd].
      rewrite (predict_loop_chain ph cc _ _ k u w Hu Hw). reflexivity.
Qed.

Lemma multi_step_prediction_chains_one_step_witness :
  let f := AR1Forecaster.mk 3 [] (Some [2%R]) (Some [1%R]) (Some (Num 0%R)) true in
  exists vs,
    AR1Forecaster.predict f [1%R] 2 = Ok (AR1Forecaster.Many vs) /\
    length vs = 2 /\
    Forall (fun u => length u = length [1%R]) vs /\
    (exists u0, vs !! 0 = Some u0 /\
       AR1Forecaster.predict f [1%R] 1 = Ok (AR1Forecaster.One u0)) /\
    (forall k u w, vs !! k = Some u -> vs !! S k = Some w ->
       AR1Forecaster.predict f u 1 = Ok (AR1Forecaster.One w)).
Proof.
  intros f. apply (multi_step_prediction_chains_one_step f [2%R] [1%R] [1%R] 0);
    reflexivity.
Defined.

(** ** The household budget *)

Section Budget.
Local Open Scope R_scope.

Lemma dot_shares (P0 a : list R) (Y : R) :
  Forall (fun p => p <> 0) P0 -> length a = length P0 ->
  dot P0 (vdiv (vscale_r a Y) P0) = Y * vsum a.
Proof.
  intros HP. revert a. induction HP as [|p P0 Hp _ IH]; intros [|x a] Hl;
    try discriminate; [cbn; ring|].
  change (vdiv (vscale_r (x :: a) Y) (p :: P0))
    with (x * Y / p :: vdiv (vscale_r a Y) P0).
  rewrite dot_cons, vsum_cons, IH by (simpl in Hl; lia). field. exact Hp.
Qed.

Lemma step_household_budget (cfg : config R) (t : nat) (s : sim R) (g : rng R)
    (s' : sim R) (g' : rng R) (l : locals R) :
  step cfg t s g = Ok (s', g', l) ->
  vsum (sim_alpha s') = 1 ->
  length (sim_alpha s') = length (sim_P0 s) ->
  Forall (fun p => p <> 0) (sim_P0 s) ->
  (forall key, In key state_keys -> (t < rows (sim_states s) key)%nat) ->
  household_budget cfg s' (sim_states s') t.
Proof.
  intros Hstep Hsum Hlen Hnz Hrows.
  run_step Hstep. injection Hstep as <- <- <-.
  cbn [sim_alpha] in Hsum, Hlen.
  unfold household_budget. cbn [sim_states sim_P0 sim_wL].
  assert (Hr : forall key, In key state_keys -> (t < rows states key)%nat).
  { intros key Hk. rewrite Def_states. apply Hrows, Hk. }
  clear Hrows.
  strip_to_written.
  rewrite (read_written _ _ _ _ _ Def_states7) by (rows_back; apply Hr; cbn; tauto).
  rewrite <- Def_P0.
  rewrite dot_shares by (rewrite ?Def_P0; assumption).
  rewrite Hsum, Rmult_1_r, Def_Y_income, Def_Taxes, Def_tau.
  strip_to_written. reflexivity.
Qed.

Lemma household_budget_transport (cfg : config R) (s s' : sim R)
    (st st' : gmap string (list (list R))) (t : nat) :
  same_structure s s' ->
  (forall key, get_row st' key t = get_row st key t) ->
  household_budget cfg s st t -> household_budget cfg s' st' t.
Proof.
  unfold same_structure, household_budget. intros Hs Ht Hb.
  destruct Hs as (_ & _ & _ & _ & HP0 & _ & HwL & _).
  rewrite !Ht, HP0, HwL. exact Hb.
Qed.

Lemma run_loop_household_budget (cfg : config R) (len : nat) :
  forall (a : nat) (s : sim R) (g : rng R) (sf : sim R) (gf : rng R),
    run_loop cfg (seq a len) s g = Ok (sf, gf) ->
    prob_vector (sim_alpha s) ->
    length (sim_alpha_shock s) = length (sim_alpha s) ->
    length (sim_mu s) = length (sim_alpha s) ->
    length (sim_alpha s) = length (sim_P0 s) ->
    Forall (fun p => p <> 0) (sim_P0 s) ->
    (forall key, In key state_keys -> (a + len <= rows (sim_states s) key)%nat) ->
    forall t, (a <= t < a + len)%nat -> household_budget cfg sf (sim_states sf) t.
Proof.
  induction len as [|len IH];
    intros a s g sf gf Hrun Hp Hsh Hmu Hla Hnz Hrows t Ht; [lia|].
  cbn [seq run_loop] in Hrun.
  destruct (step cfg a s g) as [[[s1 g1] l]|e] eqn:Hstep; [|discriminate Hrun].
  cbn in Hrun.
  pose proof (step_alpha _ _ _ _ _ _ _ Hstep) as Hup.
  destruct (update_alpha_invariant _ _ _ _ _ _ _ _ _ Hp Hsh Hmu Hup)
    as (Hp1 & Hl2 & Hl1).
  pose proof (step_same_structure _ _ _ _ _ _ _ Hstep) as Hss.
  destruct Hss as (HD & HB & HBi & HA & HP0 & HP0r & HwL & He & Hem & Hmu1 & Hrest).
  destruct (decide (t = a)) as [->|Hne].
  - assert (Hb : household_budget cfg s1 (sim_states s1) a).
    { apply (step_household_budget _ _ _ _ _ _ _ Hstep).
      - apply Hp1.
      - congruence.
      - exact Hnz.
      - intros key Hk. specialize (Hrows key Hk). lia. }
    apply (household_budget_transport cfg s1 sf (sim_states s1));
      [eapply run_loop_same_structure, Hrun | | exact Hb].
    intros key. apply (run_loop_frame _ _ _ _ _ _ Hrun).
    intros Hin. apply list_elem_of_In, List.in_seq in Hin. lia.
  - apply (IH (S a) s1 g1 sf gf Hrun Hp1); [congruence.. | | | lia].
    + rewrite HP0. exact Hnz.
    + intros key Hk. destruct (step_frame _ _ _ _ _ _ _ Hstep) as [_ Hr].
      rewrite Hr. specialize (Hrows key Hk). lia.
Qed.

End Budget.

(** In every simulated period the household budget holds at the base
    prices: when the loaded household consumption is nonnegative with a
    positive total and no base price is zero, the state a run returns
    satisfies [P0 @ C_0[t] = wL @ X[t] - ((1 - tau) * P0) @ (I[t] + G[t])]
    for [t = 1 .. T-1], the demand shares summing to one in each period. *)
Theorem run_keeps_household_budget
    (cfg : config R) (d : data R) (entropy g : rng R) (sf : sim R) (gf : rng R) :
  Forall (fun x => (0 <= x)%R) (data_C_household d) ->
  (0 < vsum (data_C_household d))%R ->
  length (data_C_household d) = cfg_n cfg ->
  length (sim_P0 sf) = cfg_n cfg ->
  Forall (fun p => p <> 0%R) (sim_P0 sf) ->
  simulate cfg d entropy g = Ok (sf, gf) ->
  forall t, 1 <= t < cfg_T_plan cfg + cfg_W cfg ->
    household_budget cfg sf (sim_states sf) t.
Proof.
  intros Hnn Hpos Hlen HlP HnzP Hsim t Ht.
  assert (Hp0 : prob_vector (vdivs (data_C_household d) (vsum (data_C_household d)))).
  { split; [apply vdivs_nonneg; assumption|].
    rewrite vsum_vdivs. apply Rdiv_diag. lra. }
  unfold simulate in Hsim.
  destruct (initialize_simulation cfg d entropy g) as [[si g1]|e] eqn:Hinit;
    [|discriminate Hsim].
  cbn [mbind res_bind] in Hsim. unfold run_simulation in Hsim.
  destruct (forecasters_ready_init _ _ _ _ _ _ Hinit) as (_ & _ & HT & _).
  destruct (initialize_simulation_facts _ _ _ _ _ _ Hinit)
    as (_ & _ & _ & _ & _ & _ & Hrows & _).
  assert (Hi : sim_alpha si = vdivs (data_C_household d) (vsum (data_C_household d)) /\
               sim_alpha_shock si = zeros (cfg_n cfg) /\
               sim_mu si = create_mu_vector cfg).
  { clear Hsim Hrows HT. run_init Hinit. injection Hinit as <- _.
    cbn [sim_alpha sim_alpha_shock sim_mu]. subst alpha alpha_shock mu n.
    repeat split. }
  destruct Hi as (Ha & Hs & Hm).
  assert (Hla : length (sim_alpha si) = cfg_n cfg).
  { rewrite Ha. unfold vdivs. rewrite length_map. exact Hlen. }
  destruct (run_loop_same_structure _ _ _ _ _ _ Hsim)
    as (_ & _ & _ & _ & HP0 & _).
  rewrite HP0 in HlP, HnzP.
  apply (run_loop_household_budget cfg _ 1 si g1 sf gf Hsim).
  - rewrite Ha. exact Hp0.
  - rewrite Hs, Hla. apply length_replicate.
  - rewrite Hm, Hla. unfold create_mu_vector. rewrite length_map. apply length_seq.
  - congruence.
  - exact HnzP.
  - intros key Hk. rewrite Hrows by (apply list_elem_of_In, Hk). lia.
  - lia.
Qed.

Lemma final_P0 {num : Type} `{Scalar num}
    (cfg : config num) (d : data num) (entropy g : rng num)
    (sf : sim num) (gf : rng num) :
  simulate cfg d entropy g = Ok (sf, gf) ->
  sim_P0 sf = neumann (transpose (data_A d)) (data_va_per_unit d) (cfg_k cfg).
Proof.
  intros Hsim. unfold simulate in Hsim.
  destruct (initialize_simulation cfg d entropy g) as [[si g1]|e] eqn:Hinit;
    [|discriminate Hsim].
  cbn [mbind res_bind] in Hsim. unfold run_simulation in Hsim.
  destruct (initialize_simulation_facts _ _ _ _ _ _ Hinit) as (_ & _ & _ & HP & _).
  destruct (run_loop_same_structure _ _ _ _ _ _ Hsim) as (_ & _ & _ & _ & HP0 & _).
  congruence.
Qed.

Lemma run_keeps_household_budget_witness :
  exists sf gf,
    simulate example_config example_data all_zero all_one = Ok (sf, gf) /\
    forall t, 1 <= t < cfg_T_plan example_config + cfg_W example_config ->
      household_budget example_config sf (sim_states sf) t.
Proof.
  destruct (example_simulate_ok all_zero all_one)
    as (sf & gf & Hsim).
  exists sf, gf. split; [exact Hsim|].
  pose proof (final_P0 _ _ _ _ _ _ Hsim) as HP. rewrite example_P0 in HP.
  apply (run_keeps_household_budget example_config example_data all_zero all_one
           sf gf).
  - repeat constructor. simpl. lra.
  - cbn. lra.
  - reflexivity.
  - rewrite HP. reflexivity.
  - rewrite HP. repeat constructor. lra.
  - exact Hsim.
Defined.
